(** * Virtual memory of the Nachos-RiscV teaching kernel

    A shallow embedding of the address translation ([machine/mmu.cc]), the
    page-fault entry of the exception handler ([kernel/exception.cc]), the
    physical page manager ([vm/physMem.cc]) and the swap manager
    ([vm/swapManager.cc]), with the properties the design document states
    about them.

    The first part holds the embedding, the second part the lemmas. *)

From stdpp Require Import base numbers option list gmap.
From Stdlib Require Import ZArith Lia.
From Stdlib.Strings Require Import Byte.
From stdpp Require Import sorting.

Local Open Scope Z_scope.

(** ** Machine integers

    The sources mix [uint32_t], [uint64_t] and [int]; a value of such a type
    is a [Z], and every conversion is written out. *)

Definition to_uint32 (z : Z) : Z := z mod 2 ^ 32.
Definition to_uint64 (z : Z) : Z := z mod 2 ^ 64.
Definition to_int32 (z : Z) : Z := (z + 2 ^ 31) mod 2 ^ 32 - 2 ^ 31.
Definition INT_MAX : Z := 2 ^ 31 - 1.

(** ** Ways a kernel routine ends

    A routine either returns or stops the whole simulator: [exit(ERROR)],
    [Interrupt::Halt], a failed [ASSERT], or an operation that is undefined
    in C++ (an access outside an array, an integer division by zero, a
    signed overflow). *)

Inductive Stop : Set :=
| exit_ERROR
| halt_ERROR
| halt_NO_ERROR
| assert_failed
| undefined_behaviour.

Inductive Outcome (A : Type) : Type :=
| Returned (a : A)
| Stopped (why : Stop).
Arguments Returned {A} a.
Arguments Stopped {A} why.

#[global] Instance Outcome_ret : MRet Outcome := fun A a => Returned a.
#[global] Instance Outcome_bind : MBind Outcome := fun A B k c =>
  match c with
  | Returned a => k a
  | Stopped why => Stopped why
  end.

#[global] Instance Outcome_fmap : FMap Outcome := fun A B f c =>
  match c with
  | Returned a => Returned (f a)
  | Stopped why => Stopped why
  end.

Definition ASSERT (b : bool) : Outcome unit :=
  if b then Returned tt else Stopped assert_failed.

Definition returns {A : Type} (c : Outcome A) : Prop := ∃ a, c = Returned a.

#[global] Instance Stop_eq_dec : EqDecision Stop.
Proof. solve_decision. Defined.

(** ** Exceptions of the simulated machine ([machine/machine.h]) *)

Inductive ExceptionType : Set :=
| NO_EXCEPTION
| SYSCALL_EXCEPTION
| PAGEFAULT_EXCEPTION
| READONLY_EXCEPTION
| BUSERROR_EXCEPTION
| ADDRESSERROR_EXCEPTION
| OVERFLOW_EXCEPTION
| ILLEGALINSTR_EXCEPTION.

#[global] Instance ExceptionType_eq_dec : EqDecision ExceptionType.
Proof. solve_decision. Defined.

(** ** Configuration

    [g_cfg] points to a [Config] whose declaration ([utility/config.h]) is
    not part of the sources at hand.  Its two fields used by the memory
    subsystem are printed with [PRIu64] and compared with [uint64_t]
    counters in [physMem.cc]; they are taken as [uint64_t]. *)

Record Config : Set := {
  PageSize : Z;
  NumPhysPages : Z
}.

(** ** Translation table *)

(** Modelled from the spec: the class [TranslationTable]
    ([machine/translationtable.h]) is missing; only its callers are present.
    A table is the ordered sequence of its page table entries, indexed by
    virtual page number, with a capacity fixed at creation.  Reading or
    writing an entry outside the sequence is undefined. *)

Record PageTableEntry : Set := {
  physicalPage : Z;
  valid : bool;
  readAllowed : bool;
  writeAllowed : bool;
  U : bool;
  M : bool;
  addrDisk : Z
}.

Abbreviation TranslationTable := (list PageTableEntry).

Definition getMaxNumPages (tt : TranslationTable) : Z := Z.of_nat (length tt).

Definition entry (tt : TranslationTable) (vpn : Z) : option PageTableEntry :=
  if decide (0 ≤ vpn) then tt !! Z.to_nat vpn else None.

Definition get {A : Type} (field : PageTableEntry → A)
    (tt : TranslationTable) (vpn : Z) : Outcome A :=
  match entry tt vpn with
  | Some e => Returned (field e)
  | None => Stopped undefined_behaviour
  end.

Definition update (change : PageTableEntry → PageTableEntry)
    (tt : TranslationTable) (vpn : Z) : Outcome TranslationTable :=
  match entry tt vpn with
  | Some e => Returned (<[Z.to_nat vpn := change e]> tt)
  | None => Stopped undefined_behaviour
  end.

Definition getBitReadAllowed := get readAllowed.
Definition getBitWriteAllowed := get writeAllowed.
Definition getBitValid := get valid.
Definition getBitU := get U.
Definition getBitM := get M.
Definition getPhysicalPage := get physicalPage.

Definition with_U (b : bool) (e : PageTableEntry) : PageTableEntry :=
  {| physicalPage := physicalPage e; valid := valid e;
     readAllowed := readAllowed e; writeAllowed := writeAllowed e;
     U := b; M := M e; addrDisk := addrDisk e |}.

Definition with_M (b : bool) (e : PageTableEntry) : PageTableEntry :=
  {| physicalPage := physicalPage e; valid := valid e;
     readAllowed := readAllowed e; writeAllowed := writeAllowed e;
     U := U e; M := b; addrDisk := addrDisk e |}.

Definition with_valid (b : bool) (e : PageTableEntry) : PageTableEntry :=
  {| physicalPage := physicalPage e; valid := b;
     readAllowed := readAllowed e; writeAllowed := writeAllowed e;
     U := U e; M := M e; addrDisk := addrDisk e |}.

Definition setBitU := update (with_U true).
Definition setBitM := update (with_M true).
Definition clearBitValid := update (with_valid false).

(** An entry after a successful access: [setBitM] when writing, then
    [setBitU]. *)

Definition touched (writing : bool) (e : PageTableEntry) : PageTableEntry :=
  with_U true (if writing then with_M true e else e).

(** ** Per-process statistics ([utility/stats.h])

    Only the two counters the translation touches, both [uint64_t]. *)

Record ProcessStat : Set := {
  numMemoryAccess : Z;
  numPageFaults : Z
}.

(** Modelled from the spec: the body of [incrMemoryAccess] is in the missing
    [stats.cc]; it increments the memory-access counter of the process. *)

Definition incrMemoryAccess (s : ProcessStat) : ProcessStat :=
  {| numMemoryAccess := to_uint64 (numMemoryAccess s + 1);
     numPageFaults := numPageFaults s |}.

Definition incrPageFault (s : ProcessStat) : ProcessStat :=
  {| numMemoryAccess := numMemoryAccess s;
     numPageFaults := to_uint64 (numPageFaults s + 1) |}.

(** ** The MMU ([machine/mmu.cc]) and the exception entry point *)

(** What the translation sees of the machine: the translation table the MMU
    points to, the statistics of the running process, and the rest of the
    kernel (frames, swap, memory), which only the page fault manager
    touches. *)

Record Machine (K : Type) : Type := {
  translationTable : TranslationTable;
  stat : ProcessStat;
  kernel : K
}.
Arguments translationTable {K} m.
Arguments stat {K} m.
Arguments kernel {K} m.

Definition set_table {K : Type} (tt : TranslationTable) (m : Machine K)
    : Machine K :=
  {| translationTable := tt; stat := stat m; kernel := kernel m |}.

Definition set_stat {K : Type} (s : ProcessStat) (m : Machine K) : Machine K :=
  {| translationTable := translationTable m; stat := s; kernel := kernel m |}.

Section MMU.

Context {K : Type}.

(** The configuration, the page fault manager
    ([PageFaultManager::PageFault], in the missing [vm/pagefaultmanager.cc])
    and the system call switch (outside the memory subsystem) are taken as
    they come. *)

Context (g_cfg : Config).
Context (PageFault : Z → Machine K → Outcome (ExceptionType * Machine K)).
Context (SystemCall : Machine K → Outcome (Machine K)).

(** [ExceptionHandler(ExceptionType exceptiontype, int vaddr)]: the address
    arrives as an [int] and is divided by the unsigned page size; the
    division is undefined when the page size is 0. *)

Definition ExceptionHandler (exceptiontype : ExceptionType) (vaddr : Z)
    (m : Machine K)
    : Outcome (Machine K) :=
  match exceptiontype with
  | NO_EXCEPTION => Stopped halt_NO_ERROR
  | SYSCALL_EXCEPTION => SystemCall m
  | PAGEFAULT_EXCEPTION =>
      if decide (PageSize g_cfg = 0) then Stopped undefined_behaviour
      else
        '(e, m') ← PageFault (to_uint64 vaddr / PageSize g_cfg) m;
        if decide (e ≠ NO_EXCEPTION) then Stopped halt_ERROR else Returned m'
  | READONLY_EXCEPTION
  | BUSERROR_EXCEPTION
  | ADDRESSERROR_EXCEPTION
  | OVERFLOW_EXCEPTION
  | ILLEGALINSTR_EXCEPTION => Stopped halt_ERROR
  end.

(** Modelled from the spec: [Machine::RaiseException] ([machine/machine.cc])
    is missing; the translator raises the page fault and the exception layer
    hands it, with the faulting address, to the handler above. *)

Definition RaiseException (which : ExceptionType) (badVAddr : Z)
    (m : Machine K)
    : Outcome (Machine K) :=
  ExceptionHandler which (to_int32 badVAddr) m.

(** The alignment test at the head of [Translate]. *)

Definition alignment_error (virtAddr size : Z) : bool :=
  bool_decide (size = 4) && negb (bool_decide (Z.land virtAddr 3 = 0))
  || bool_decide (size = 2) && negb (bool_decide (Z.land virtAddr 1 = 0)).

(** The residency step: run the page fault manager on an absent page and
    leave the simulator when the page is still absent afterwards. *)

Definition make_resident (virtAddr vpn : Z) (m : Machine K)
    : Outcome (Machine K) :=
  v ← getBitValid (translationTable m) vpn;
  if negb v then
    m1 ← RaiseException PAGEFAULT_EXCEPTION virtAddr
           (set_stat (incrPageFault (stat m)) m);
    v1 ← getBitValid (translationTable m1) vpn;
    if negb v1 then Stopped exit_ERROR else Returned m1
  else Returned m.

(** The tail of [Translate]: frame bounds, U/M bits, physical address. *)

Definition resolve (vpn offset : Z) (writing : bool) (m : Machine K)
    : Outcome (ExceptionType * option Z * Machine K) :=
  pp ← getPhysicalPage (translationTable m) vpn;
  if bool_decide (pp < 0) || bool_decide (pp >= to_int32 (NumPhysPages g_cfg))
  then Returned (BUSERROR_EXCEPTION, None, m)
  else
    tt1 ← (if writing then setBitM (translationTable m) vpn
           else Returned (translationTable m));
    tt2 ← setBitU tt1 vpn;
    let m2 := set_stat (incrMemoryAccess (stat m)) (set_table tt2 m) in
    pp2 ← getPhysicalPage tt2 vpn;
    Returned (NO_EXCEPTION,
              Some (to_uint32
                      (to_uint64 (to_uint64 pp2 * PageSize g_cfg
                                  + to_uint64 offset))),
              m2).

(** [MMU::Translate(uint32_t virtAddr, uint32_t *physAddr, int size,
    bool writing)].  The result carries the exception, the value stored
    through [physAddr] (if any) and the machine afterwards.  The page
    number and the offset are a division and a remainder by the page size,
    undefined when it is 0. *)

Definition Translate (virtAddr size : Z) (writing : bool) (m : Machine K)
    : Outcome (ExceptionType * option Z * Machine K) :=
  if alignment_error virtAddr size then Returned (BUSERROR_EXCEPTION, None, m)
  else if decide (PageSize g_cfg = 0) then Stopped undefined_behaviour
  else
    let vpn := to_int32 (virtAddr / PageSize g_cfg) in
    let offset := to_int32 (virtAddr mod PageSize g_cfg) in
    if bool_decide (vpn >= getMaxNumPages (translationTable m))
    then Returned (ADDRESSERROR_EXCEPTION, None, m)
    else
      ra ← getBitReadAllowed (translationTable m) vpn;
      wa ← getBitWriteAllowed (translationTable m) vpn;
      if negb ra && negb wa then Returned (ADDRESSERROR_EXCEPTION, None, m)
      else if writing && negb wa then Returned (READONLY_EXCEPTION, None, m)
      else
        m1 ← make_resident virtAddr vpn m;
        resolve vpn offset writing m1.

(** The head of [MMU::ReadMem] ([writing] false) and of [MMU::WriteMem]
    ([writing] true), up to the assertion: the access is counted, the
    [uint64_t] address is translated twice, and on [NO_EXCEPTION] the two
    physical addresses are asserted to be equal. *)

Definition access_translation (virtAddr size : Z) (writing : bool)
    (m : Machine K) : Outcome (ExceptionType * option Z * Machine K) :=
  '(exc, physAddr, m1) ←
     Translate (to_uint32 virtAddr) size writing
       (set_stat (incrMemoryAccess (stat m)) m);
  '(_, physAddrEnd, m2) ← Translate (to_uint32 virtAddr) size writing m1;
  _ ← (if decide (exc = NO_EXCEPTION)
       then ASSERT (bool_decide (physAddr = physAddrEnd))
       else Returned ());
  Returned (exc, physAddr, m2).

End MMU.

(** What the design asks of the page fault manager: it brings pages in and
    out (frame, [valid], swap address, history bits) and leaves the access
    rights of every page as they are. *)

Definition keeps_permissions {K : Type}
    (PageFault : Z → Machine K → Outcome (ExceptionType * Machine K)) : Prop :=
  ∀ page m exc m1 v e e1,
    PageFault page m = Returned (exc, m1) →
    entry (translationTable m) v = Some e →
    entry (translationTable m1) v = Some e1 →
    readAllowed e1 = readAllowed e ∧ writeAllowed e1 = writeAllowed e.

(** The memory of the machine is [NumPhysPages] frames of [PageSize] bytes,
    addressed by a [uint32_t] physical address. *)

Definition Config_ok (c : Config) : Prop :=
  0 < PageSize c ∧ 0 ≤ NumPhysPages c ∧ NumPhysPages c * PageSize c ≤ 2 ^ 32.

(** ** The physical page manager ([vm/physMem.h], [vm/physMem.cc]) *)

Module PhysMem.

(** An [AddrSpace *] is the address of an address space in the kernel heap;
    [NULL] is [None].  An address space holds a pointer to its translation
    table, [NULL] once the table is gone ([kernel/addrspace.h]). *)

Record AddrSpace : Set := {
  translationTable : option TranslationTable
}.

Record tpr_c : Set := {
  free : bool;
  locked : bool;
  virtualPage : Z;
  owner : option nat
}.

Record State : Type := {
  tpr : list tpr_c;
  free_page_list : list Z;
  i_clock : Z;
  heap : gmap nat AddrSpace;
  stat : ProcessStat
}.

Definition set_tpr (t : list tpr_c) (s : State) : State :=
  {| tpr := t; free_page_list := free_page_list s; i_clock := i_clock s;
     heap := heap s; stat := stat s |}.

Definition set_free_page_list (l : list Z) (s : State) : State :=
  {| tpr := tpr s; free_page_list := l; i_clock := i_clock s;
     heap := heap s; stat := stat s |}.

Definition set_heap (h : gmap nat AddrSpace) (s : State) : State :=
  {| tpr := tpr s; free_page_list := free_page_list s; i_clock := i_clock s;
     heap := h; stat := stat s |}.

Definition set_stat (p : ProcessStat) (s : State) : State :=
  {| tpr := tpr s; free_page_list := free_page_list s; i_clock := i_clock s;
     heap := heap s; stat := p |}.

(** [tpr[n]]: undefined outside the array. *)

Definition frame (s : State) (n : Z) : Outcome tpr_c :=
  match (if decide (0 ≤ n) then tpr s !! Z.to_nat n else None) with
  | Some f => Returned f
  | None => Stopped undefined_behaviour
  end.

Definition store_frame (n : Z) (f : tpr_c) (s : State) : State :=
  set_tpr (<[Z.to_nat n := f]> (tpr s)) s.

Section Manager.

Context (g_cfg : Config).

(** [INVALID_PAGE] is defined in a header that is not at hand. *)
Context (INVALID_PAGE : Z).

(** The constructor: every frame free, unlocked and without owner, listed in
    increasing order; [virtualPage] is left as allocated ([junk]). *)

Definition PhysicalMemManager (junk : Z) (h : gmap nat AddrSpace)
    (p : ProcessStat) : State :=
  {| tpr := replicate (Z.to_nat (NumPhysPages g_cfg))
              {| free := true; locked := false; virtualPage := junk;
                 owner := None |};
     free_page_list := Z.of_nat <$> seq 0 (Z.to_nat (NumPhysPages g_cfg));
     i_clock := to_uint64 (-1);
     heap := h;
     stat := p |}.

Definition FreePhysicalPage (num_page : Z) (s : State) : Outcome State :=
  f ← frame s num_page;
  _ ← ASSERT (negb (free f));
  let s1 := store_frame num_page
              {| free := true; locked := false;
                 virtualPage := virtualPage f; owner := owner f |} s in
  s2 ← match owner f with
       | None => Stopped undefined_behaviour
       | Some o =>
           match heap s1 !! o with
           | None => Stopped undefined_behaviour
           | Some a =>
               match translationTable a with
               | Some t =>
                   t' ← clearBitValid t (virtualPage f);
                   Returned
                     (set_heap (<[o := {| translationTable := Some t' |}]>
                                  (heap s1)) s1)
               | None => Returned s1
               end
           end
       end;
  Returned (set_free_page_list (num_page :: free_page_list s2) s2).

Definition UnlockPage (num_page : Z) (s : State) : Outcome State :=
  _ ← ASSERT (bool_decide (num_page < NumPhysPages g_cfg));
  f ← frame s num_page;
  _ ← ASSERT (bool_decide (locked f = true));
  _ ← ASSERT (bool_decide (free f = false));
  Returned (store_frame num_page
              {| free := free f; locked := false;
                 virtualPage := virtualPage f; owner := owner f |} s).

Definition SetTPREntry (pp virtualpage : Z) (owner' : option nat)
    (locked' : bool) (s : State) : Outcome State :=
  f ← frame s pp;
  Returned (store_frame pp
              {| free := free f; locked := locked';
                 virtualPage := virtualpage; owner := owner' |} s).

Definition FindFreePage (s : State) : Outcome (Z * State) :=
  match free_page_list s with
  | [] => Returned (to_uint64 INVALID_PAGE, s)
  | page :: rest =>
      let s1 := set_free_page_list rest
                  (set_stat (incrMemoryAccess (stat s)) s) in
      f ← frame s1 page;
      _ ← ASSERT (free f);
      Returned (page,
                store_frame page
                  {| free := false; locked := locked f;
                     virtualPage := virtualPage f; owner := owner f |} s1)
  end.

(** [EvictPage] prints a warning and leaves the simulator. *)

Definition EvictPage (s : State) : Outcome (Z * State) :=
  Stopped exit_ERROR.

End Manager.

(** *** Consistency of frames and translation tables *)

(** The pair [(o, v)] maps to frame [f]: the table of address space [o] has
    a valid entry for virtual page [v] whose physical page is [f]. *)

Definition maps_to (s : State) (o : nat) (v : Z) (f : Z) : Prop :=
  ∃ a t e, heap s !! o = Some a ∧ translationTable a = Some t
           ∧ entry t v = Some e ∧ valid e = true ∧ physicalPage e = f.

Definition frames_disjoint (s : State) : Prop :=
  ∀ o1 v1 o2 v2 f,
    maps_to s o1 v1 f → maps_to s o2 v2 f → o1 = o2 ∧ v1 = v2.

Definition backrefs_match (s : State) : Prop :=
  ∀ n f, tpr s !! n = Some f → free f = false →
    ∃ o, owner f = Some o
         ∧ maps_to s o (virtualPage f) (Z.of_nat n)
         ∧ ∀ o' v', maps_to s o' v' (Z.of_nat n) →
                    o' = o ∧ v' = virtualPage f.

Definition consistent (s : State) : Prop :=
  frames_disjoint s ∧ backrefs_match s.

(** The mapping of a frame as the clock algorithm would see it. *)

Definition all_occupied (s : State) : Prop :=
  ∀ n f, tpr s !! n = Some f → free f = false.

Definition some_unlocked (s : State) : Prop :=
  ∃ n f, tpr s !! n = Some f ∧ locked f = false.

End PhysMem.

(** ** The swap manager ([vm/swapManager.h], [vm/swapManager.cc]) *)

Module Swap.

(** Modelled from the spec: the classes [BitMap] ([utility/bitmap.h]) and
    [DriverDisk] ([drivers/drvDisk.h]) are missing.  The bitmap has one bit
    per sector of the swap area, [true] for an occupied sector.  The disk is
    a flat array of page-sized slots indexed by sector number; a transfer
    moves one page-sized block between a slot and the machine memory.  A
    slot never written reads as zeros. *)

Record State : Type := {
  page_flags : list bool;
  swap_disk : gmap Z (list byte);
  mainMemory : list byte
}.

Definition set_page_flags (b : list bool) (s : State) : State :=
  {| page_flags := b; swap_disk := swap_disk s; mainMemory := mainMemory s |}.

Definition set_swap_disk (d : gmap Z (list byte)) (s : State) : State :=
  {| page_flags := page_flags s; swap_disk := d; mainMemory := mainMemory s |}.

Definition set_mainMemory (m : list byte) (s : State) : State :=
  {| page_flags := page_flags s; swap_disk := swap_disk s; mainMemory := m |}.

Definition Test (b : list bool) (i : Z) : Outcome bool :=
  match (if decide (0 ≤ i) then b !! Z.to_nat i else None) with
  | Some x => Returned x
  | None => Stopped undefined_behaviour
  end.

Definition Mark (b : list bool) (i : Z) : Outcome (list bool) :=
  _ ← Test b i; Returned (<[Z.to_nat i := true]> b).

Definition Clear (b : list bool) (i : Z) : Outcome (list bool) :=
  _ ← Test b i; Returned (<[Z.to_nat i := false]> b).

Section Manager.

Context (g_cfg : Config).

(** [NUM_SECTORS] and [ERROR] are macros of headers that are not at hand
    ([machine/disk.h], [kernel/msgerror.h]). *)
Context (NUM_SECTORS ERROR : Z).

(** Modelled from the spec: [INVALID_SECTOR] is the sentinel for "no sector
    ever allocated"; [swapManager.h] documents the argument of [PutPageSwap]
    that asks for a new sector as -1. *)
Definition INVALID_SECTOR : Z := -1.

(** The bytes of frame [pp], [&mainMemory[pp * PageSize]] onwards; undefined
    when the frame is not inside the memory. *)

Definition in_memory (mem : list byte) (pp : Z) : Prop :=
  0 ≤ pp ∧ 0 < PageSize g_cfg
  ∧ pp * PageSize g_cfg + PageSize g_cfg ≤ Z.of_nat (length mem).

Definition frame_bytes (mem : list byte) (pp : Z) : list byte :=
  take (Z.to_nat (PageSize g_cfg)) (drop (Z.to_nat (pp * PageSize g_cfg)) mem).

Definition sector_bytes (d : gmap Z (list byte)) (sector : Z) : list byte :=
  resize (Z.to_nat (PageSize g_cfg)) x00 (default [] (d !! sector)).

(** Modelled from the spec: [DriverDisk::WriteSector] is missing; it
    persists the page-sized block found at the given place of the machine
    memory to the given sector. *)

Definition WriteSector (sector pp : Z) (s : State) : Outcome State :=
  if decide (in_memory (mainMemory s) pp)
  then Returned (set_swap_disk
                   (<[sector := frame_bytes (mainMemory s) pp]> (swap_disk s)) s)
  else Stopped undefined_behaviour.

(** Modelled from the spec: [DriverDisk::ReadSector] is missing; it loads
    the page-sized block of the given sector to the given place of the
    machine memory. *)

Definition ReadSector (sector pp : Z) (s : State) : Outcome State :=
  if decide (in_memory (mainMemory s) pp)
  then Returned (set_mainMemory
                   (take (Z.to_nat (pp * PageSize g_cfg)) (mainMemory s)
                    ++ sector_bytes (swap_disk s) sector
                    ++ drop (Z.to_nat (pp * PageSize g_cfg + PageSize g_cfg))
                         (mainMemory s)) s)
  else Stopped undefined_behaviour.

(** The constructor: a bitmap of [NUM_SECTORS] clear bits. *)

Definition SwapManager (d : gmap Z (list byte)) (mem : list byte) : State :=
  {| page_flags := replicate (Z.to_nat NUM_SECTORS) false;
     swap_disk := d; mainMemory := mem |}.

(** The loop of [GetFreeSwapSector], [todo] iterations from index [i] on. *)

Fixpoint scan (b : list bool) (i : Z) (todo : nat) : Outcome (Z * list bool) :=
  match todo with
  | O => Returned (to_uint64 ERROR, b)
  | S todo' =>
      x ← Test b i;
      if negb x then b' ← Mark b i; Returned (to_uint64 i, b')
      else scan b (i + 1) todo'
  end.

Definition GetFreeSwapSector (s : State) : Outcome (Z * State) :=
  '(sector, b) ← scan (page_flags s) 0 (Z.to_nat NUM_SECTORS);
  Returned (sector, set_page_flags b s).

Definition ReleasePageSwap (disk_addr : Z) (s : State) : Outcome State :=
  b ← Clear (page_flags s) disk_addr;
  Returned (set_page_flags b s).

Definition GetPageSwap (disk_addr pp : Z) (s : State) : Outcome State :=
  ReadSector disk_addr pp s.

(** [PutPageSwap(uint32_t disk_addr, uint64_t pp)], result in [uint64_t]. *)

Definition PutPageSwap (disk_addr pp : Z) (s : State) : Outcome (Z * State) :=
  if decide (disk_addr ≠ to_uint32 INVALID_SECTOR) then
    s1 ← WriteSector disk_addr pp s;
    Returned (disk_addr, s1)
  else
    '(newsect, s1) ← GetFreeSwapSector s;
    if decide (newsect = to_uint64 INVALID_SECTOR)
    then Returned (to_uint64 INVALID_SECTOR, s1)
    else
      s2 ← WriteSector newsect pp s1;
      Returned (newsect, s2).

(** The state the constructor establishes and every operation keeps: one
    bit per sector, and a sector count that fits the [int] loop counter. *)

Definition well_formed (s : State) : Prop :=
  Z.of_nat (length (page_flags s)) = NUM_SECTORS ∧ NUM_SECTORS ≤ INT_MAX.

(** [k] is the lowest-indexed clear bit. *)

Definition first_clear (b : list bool) (k : nat) : Prop :=
  b !! k = Some false ∧ ∀ j, (j < k)%nat → b !! j = Some true.

Definition all_set (b : list bool) : Prop :=
  ∀ j x, b !! j = Some x → x = true.

End Manager.

End Swap.

(** ** A small machine

    Pages of 128 bytes, four frames.  One process with four virtual pages:
    page 0 resident in frame 2 and writable, page 1 readable and not yet
    resident, page 2 not mapped, page 3 resident in frame 3 and read-only. *)

Module Toy.

Definition cfg : Config := {| PageSize := 128; NumPhysPages := 4 |}.

Definition pte (pp : Z) (v r w : bool) : PageTableEntry :=
  {| physicalPage := pp; valid := v; readAllowed := r; writeAllowed := w;
     U := false; M := false; addrDisk := -1 |}.

Definition table : TranslationTable :=
  [pte 2 true true true; pte 0 false true false;
   pte 0 false false false; pte 3 true true false].

Definition machine : Machine unit :=
  {| translationTable := table;
     stat := {| numMemoryAccess := 0; numPageFaults := 0 |};
     kernel := tt |}.

(** A page fault manager that brings the page into frame 1. *)

Definition load (e : PageTableEntry) : PageTableEntry :=
  {| physicalPage := 1; valid := true;
     readAllowed := readAllowed e; writeAllowed := writeAllowed e;
     U := U e; M := M e; addrDisk := addrDisk e |}.

Definition PageFault (page : Z) (m : Machine unit)
    : Outcome (ExceptionType * Machine unit) :=
  match entry (translationTable m) page with
  | Some e =>
      Returned (NO_EXCEPTION,
                set_table (<[Z.to_nat page := load e]> (translationTable m)) m)
  | None => Returned (ADDRESSERROR_EXCEPTION, m)
  end.

Definition SystemCall (m : Machine unit) : Outcome (Machine unit) :=
  Returned m.

(** A page fault manager that reports success and does nothing. *)

Definition idle (page : Z) (m : Machine unit)
    : Outcome (ExceptionType * Machine unit) :=
  Returned (NO_EXCEPTION, m).

(** The machine after the fault on page 1. *)

Definition machine_loaded : Machine unit :=
  {| translationTable :=
       [pte 2 true true true; pte 1 true true false;
        pte 0 false false false; pte 3 true true false];
     stat := {| numMemoryAccess := 0; numPageFaults := 1 |};
     kernel := tt |}.

(** Two frames, both taken by pages of the address space at address 0 and
    not locked; nothing on the free list. *)

Definition full_memory : PhysMem.State :=
  {| PhysMem.tpr :=
       [ {| PhysMem.free := false; PhysMem.locked := false;
            PhysMem.virtualPage := 0; PhysMem.owner := Some 0%nat |};
         {| PhysMem.free := false; PhysMem.locked := false;
            PhysMem.virtualPage := 1; PhysMem.owner := Some 0%nat |} ];
     PhysMem.free_page_list := [];
     PhysMem.i_clock := to_uint64 (-1);
     PhysMem.heap :=
       {[ 0%nat := {| PhysMem.translationTable :=
                        Some [pte 0 true true true; pte 1 true true false] |} ]};
     PhysMem.stat := {| numMemoryAccess := 0; numPageFaults := 0 |} |}.

(** The manager as constructed at boot on a machine with one frame, before
    any process exists, and the state [FindFreePage] leaves. *)

Definition one_frame : Config := {| PageSize := 128; NumPhysPages := 1 |}.

Definition boot : PhysMem.State :=
  PhysMem.PhysicalMemManager one_frame 0 ∅
    {| numMemoryAccess := 0; numPageFaults := 0 |}.

Definition boot_after_find : PhysMem.State :=
  {| PhysMem.tpr :=
       [ {| PhysMem.free := false; PhysMem.locked := false;
            PhysMem.virtualPage := 0; PhysMem.owner := None |} ];
     PhysMem.free_page_list := [];
     PhysMem.i_clock := to_uint64 (-1);
     PhysMem.heap := ∅;
     PhysMem.stat := {| numMemoryAccess := 1; numPageFaults := 0 |} |}.

(** A swap area of three sectors on pages of four bytes, and a memory of
    two frames. *)

Definition tiny : Config := {| PageSize := 4; NumPhysPages := 2 |}.

Definition memory : list byte :=
  [x01; x02; x03; x04; x05; x06; x07; x08].

Definition swap (b : list bool) : Swap.State :=
  {| Swap.page_flags := b; Swap.swap_disk := ∅; Swap.mainMemory := memory |}.

End Toy.

(** ** Lists ([utility/list.h])

    A [List<T>] is a chain of [ListElement<T>] from [first] to [last]; the
    chain is the sequence of its elements, each with its key and its item
    (a [void *], here an integer, [NULL] being 0).  The chain being a
    sequence, it has no cycle, and the assertion [first != first->next] of
    [SortedRemove] holds. *)

Module List.

Record ListElement : Set := {
  key : Z;
  item : Z
}.

Definition NULL : Z := 0.

Definition IsEmpty (l : list ListElement) : bool :=
  match l with
  | [] => true
  | _ => false
  end.

Definition Prepend (it : Z) (l : list ListElement) : list ListElement :=
  {| key := 0; item := it |} :: l.

Definition Append (it : Z) (l : list ListElement) : list ListElement :=
  l ++ [{| key := 0; item := it |}].

(** The loop of [SortedInsert]: [ptr] is the element looked at, [behind]
    what follows it. *)

Fixpoint insert_behind (element ptr : ListElement)
    (behind : list ListElement) : list ListElement :=
  match behind with
  | [] => [ptr; element]
  | next :: behind' =>
      if bool_decide (key element < key next)
      then ptr :: element :: behind
      else ptr :: insert_behind element next behind'
  end.

Definition SortedInsert (it sortKey : Z) (l : list ListElement)
    : list ListElement :=
  let element := {| key := sortKey; item := it |} in
  match l with
  | [] => [element]
  | first :: behind =>
      if bool_decide (sortKey < key first) then element :: l
      else insert_behind element first behind
  end.

(** [SortedRemove(T *keyPtr)]: the item, the key stored through [keyPtr]
    (nothing on an empty list) and the list left. *)

Definition SortedRemove (l : list ListElement)
    : Z * option Z * list ListElement :=
  match l with
  | [] => (NULL, None, [])
  | first :: behind => (item first, Some (key first), behind)
  end.

(** [Remove()] is [SortedRemove(NULL)]. *)

Definition Remove (l : list ListElement) : Z * list ListElement :=
  let '(thing, _, l') := SortedRemove l in (thing, l').

(** The loop of [Search]: [element] is the element looked at, [behind] what
    follows it ([element] is [last] when nothing does). *)

Fixpoint Search_from (element : ListElement) (behind : list ListElement)
    (it : Z) : bool :=
  match behind with
  | [] => bool_decide (item element = it)
  | next :: behind' =>
      if bool_decide (item element ≠ it) then Search_from next behind' it
      else bool_decide (item element = it)
  end.

Definition Search (it : Z) (l : list ListElement) : bool :=
  match l with
  | [] => false
  | first :: behind => Search_from first behind it
  end.

(** [RemoveItem]: [while ((temp = Remove()) != item) Append(temp);], with a
    bound on the number of turns of the loop. *)

Fixpoint RemoveItem (turns : nat) (it : Z) (l : list ListElement)
    : option (list ListElement) :=
  match turns with
  | O => None
  | S turns' =>
      let '(temp, l') := Remove l in
      if bool_decide (temp ≠ it) then RemoveItem turns' it (Append temp l')
      else Some l'
  end.

(** The destructor: [while (Remove() != NULL);].  Each turn takes an
    element off, so the loop is a recursion on the list; the result is what
    stays chained when the loop ends. *)

Fixpoint destroy (l : list ListElement) : list ListElement :=
  match l with
  | [] => []
  | first :: behind =>
      if bool_decide (item first ≠ NULL) then destroy behind else behind
  end.

Definition items (l : list ListElement) : list Z := item <$> l.

(** A list kept "in increasing order by key". *)

Definition sorted (l : list ListElement) : Prop :=
  StronglySorted (λ a b, key a ≤ key b) l.

(** What [Remove] followed by [Append] makes of an element: the item, with
    the key [Append] gives. *)

Definition unkeyed (e : ListElement) : ListElement :=
  {| key := 0; item := item e |}.

End List.

(** ** The free page list of the physical page manager

    [free_page_list] is a [ListInt] used through [Append], [Prepend],
    [Remove] and [IsEmpty] only; the page manager above keeps the sequence
    of its items.  The list is exact when it names every free frame of the
    table, once, and nothing else. *)

Definition free_list_exact (s : PhysMem.State) : Prop :=
  NoDup (PhysMem.free_page_list s)
  ∧ ∀ n, n ∈ PhysMem.free_page_list s
         ↔ ∃ f, PhysMem.frame s n = Returned f ∧ PhysMem.free f = true.

(** [k] calls of [FindFreePage] in a row, with the frames they return. *)

Fixpoint FindFreePages (INVALID_PAGE : Z) (k : nat) (s : PhysMem.State)
    : Outcome (list Z * PhysMem.State) :=
  match k with
  | O => Returned ([], s)
  | S k' =>
      '(page, s1) ← PhysMem.FindFreePage INVALID_PAGE s;
      '(pages, s2) ← FindFreePages INVALID_PAGE k' s1;
      Returned (page :: pages, s2)
  end.

(** ** Reading and writing through the MMU ([machine/mmu.cc])

    [g_machine->mainMemory] is an array of bytes.  Accesses of 2, 4 and
    8 bytes go through a cast of the address to [uint16_t *], [uint32_t *]
    and [uint64_t *]: the bytes are laid out as the host lays them out,
    least significant byte first on a little-endian host ([host_endianess]
    of [kernel/system.h]).  An access of one byte reads the array element
    itself and widens it to [uint64_t]; the declaration of the array
    ([machine/machine.h]) is missing, so whether its elements are signed is
    taken as it comes ([signed_memory]). *)

Module Access.

Definition IS_BIG_ENDIAN : Z := 0.
Definition IS_LITTLE_ENDIAN : Z := 1.

Record WithMemory (K : Type) : Type := {
  mainMemory : list byte;
  others : K
}.
Arguments mainMemory {K} w.
Arguments others {K} w.

Definition memory {K : Type} (m : Machine (WithMemory K)) : list byte :=
  mainMemory (kernel m).

Definition set_memory {K : Type} (mem : list byte)
    (m : Machine (WithMemory K)) : Machine (WithMemory K) :=
  {| translationTable := translationTable m; stat := stat m;
     kernel := {| mainMemory := mem; others := others (kernel m) |} |}.

Definition byte_of (z : Z) : byte :=
  default x00 (Byte.of_N (Z.to_N (z mod 256))).

Definition byte_value (b : byte) : Z := Z.of_N (Byte.to_N b).

Definition to_int8 (z : Z) : Z := (z + 2 ^ 7) mod 2 ^ 8 - 2 ^ 7.

(** The value of a sequence of bytes, least significant first, and the
    [n] low bytes of a value. *)

Fixpoint le_value (bs : list byte) : Z :=
  match bs with
  | [] => 0
  | b :: bs' => byte_value b + 256 * le_value bs'
  end.

Fixpoint le_bytes (n : nat) (v : Z) : list byte :=
  match n with
  | O => []
  | S n' => byte_of v :: le_bytes n' (v / 256)
  end.

(** [size] bytes of the memory from [physAddr] on; nothing when they are
    not all inside the array (the access is then undefined). *)

Definition bytes_at (mem : list byte) (physAddr : Z) (size : nat)
    : option (list byte) :=
  if decide (0 ≤ physAddr ∧ physAddr + Z.of_nat size ≤ Z.of_nat (length mem))
  then Some (take size (drop (Z.to_nat physAddr) mem))
  else None.

Definition store_bytes (mem : list byte) (physAddr : Z) (bs : list byte)
    : option (list byte) :=
  if decide (0 ≤ physAddr
             ∧ physAddr + Z.of_nat (length bs) ≤ Z.of_nat (length mem))
  then Some (take (Z.to_nat physAddr) mem ++ bs
             ++ drop (Z.to_nat physAddr + length bs) mem)
  else None.

(** The sizes of the [switch]; any other size fails [ASSERT(false)]. *)

Definition access_size (size : Z) : option nat :=
  if decide (size = 1) then Some 1%nat
  else if decide (size = 2) then Some 2%nat
  else if decide (size = 4) then Some 4%nat
  else if decide (size = 8) then Some 8%nat
  else None.

Section ReadWrite.

Context {K : Type}.
Context (g_cfg : Config).
Context (PageFault : Z → Machine (WithMemory K)
                     → Outcome (ExceptionType * Machine (WithMemory K))).
Context (SystemCall : Machine (WithMemory K)
                      → Outcome (Machine (WithMemory K))).
Context (host_endianess : Z).
Context (signed_memory : bool).

Definition host_value (bs : list byte) : Z :=
  if decide (host_endianess = IS_LITTLE_ENDIAN) then le_value bs
  else le_value (reverse bs).

Definition host_bytes (n : nat) (v : Z) : list byte :=
  if decide (host_endianess = IS_LITTLE_ENDIAN) then le_bytes n v
  else reverse (le_bytes n v).

(** The value a read of [n] bytes stores through [value]. *)

Definition read_value (n : nat) (bs : list byte) : Z :=
  if decide (n = 1%nat) then
    if signed_memory then to_uint64 (to_int8 (le_value bs)) else le_value bs
  else host_value bs.

(** [MMU::ReadMem(uint64_t virtAddr, int size, uint64_t *value)]: the
    result, the value stored through [value] (if any) and the machine
    afterwards. *)

Definition ReadMem (virtAddr size : Z) (m : Machine (WithMemory K))
    : Outcome (bool * option Z * Machine (WithMemory K)) :=
  '(exc, physAddr, m2) ←
     access_translation g_cfg PageFault SystemCall virtAddr size false m;
  if decide (exc ≠ NO_EXCEPTION) then
    m3 ← RaiseException g_cfg PageFault SystemCall exc virtAddr m2;
    Returned (false, None, m3)
  else
    match access_size size with
    | None => Stopped assert_failed
    | Some n =>
        match physAddr ≫= λ p, bytes_at (memory m2) p n with
        | Some bs => Returned (true, Some (read_value n bs), m2)
        | None => Stopped undefined_behaviour
        end
    end.

(** [MMU::WriteMem(uint64_t addr, int size, uint64_t value)]. *)

Definition WriteMem (addr size value : Z) (m : Machine (WithMemory K))
    : Outcome (bool * Machine (WithMemory K)) :=
  '(exc, physicalAddress, m2) ←
     access_translation g_cfg PageFault SystemCall addr size true m;
  if decide (exc ≠ NO_EXCEPTION) then
    m3 ← RaiseException g_cfg PageFault SystemCall exc addr m2;
    Returned (false, m3)
  else
    match access_size size with
    | None => Stopped assert_failed
    | Some n =>
        match physicalAddress
              ≫= λ p, store_bytes (memory m2) p (host_bytes n value) with
        | Some mem => Returned (true, set_memory mem m2)
        | None => Stopped undefined_behaviour
        end
    end.

End ReadWrite.

End Access.

(** ** String parameters of system calls ([kernel/exception.cc])

    [GetLengthParam] and [GetStringParam] read a string of the user program
    through the MMU, one byte at a time.  A loop is run with a bound on its
    number of turns; [None] says that the bound was too small. *)

Module Params.

(** [dest[i] = b] on a buffer of the kernel. *)

Definition store_char (dest : list byte) (i : Z) (b : byte)
    : Outcome (list byte) :=
  if decide (0 ≤ i < Z.of_nat (length dest))
  then Returned (<[Z.to_nat i := b]> dest)
  else Stopped undefined_behaviour.

Section Params.

Context {K : Type}.
Context (g_cfg : Config).
Context (PageFault : Z → Machine (Access.WithMemory K)
                     → Outcome (ExceptionType * Machine (Access.WithMemory K))).
Context (SystemCall : Machine (Access.WithMemory K)
                      → Outcome (Machine (Access.WithMemory K))).
Context (host_endianess : Z).
Context (signed_memory : bool).

(** The loop of [GetLengthParam(int addr)], from the state [addr], [i], [c];
    [addr++] and [i++] are on [int]. *)

Fixpoint GetLengthParam_loop (turns : nat) (addr i c : Z)
    (m : Machine (Access.WithMemory K))
    : option (Outcome (Z * Machine (Access.WithMemory K))) :=
  if decide (c ≠ 0) then
    match turns with
    | O => None
    | S turns' =>
        if decide (addr = INT_MAX) then Some (Stopped undefined_behaviour)
        else
          match Access.ReadMem g_cfg PageFault SystemCall host_endianess
                  signed_memory (to_uint64 addr) 1 m with
          | Stopped why => Some (Stopped why)
          | Returned (_, value, m1) =>
              if decide (i = INT_MAX) then Some (Stopped undefined_behaviour)
              else GetLengthParam_loop turns' (addr + 1) (i + 1)
                     (default c value) m1
          end
    end
  else if decide (i = INT_MAX) then Some (Stopped undefined_behaviour)
       else Some (Returned (i + 1, m)).

Definition GetLengthParam (turns : nat) (addr : Z)
    (m : Machine (Access.WithMemory K))
    : option (Outcome (Z * Machine (Access.WithMemory K))) :=
  GetLengthParam_loop turns addr 0 1 m.

(** The loop of [GetStringParam(uint64_t addr, char *dest, int maxlen)] and
    the store that follows it. *)

Fixpoint GetStringParam_loop (turns : nat) (addr i c : Z) (dest : list byte)
    (maxlen : Z) (m : Machine (Access.WithMemory K))
    : option (Outcome (list byte * Machine (Access.WithMemory K))) :=
  if decide (c ≠ 0 ∧ i < maxlen) then
    match turns with
    | O => None
    | S turns' =>
        match Access.ReadMem g_cfg PageFault SystemCall host_endianess
                signed_memory addr 1 m with
        | Stopped why => Some (Stopped why)
        | Returned (_, value, m1) =>
            let c1 := default c value in
            match store_char dest i (Access.byte_of c1) with
            | Stopped why => Some (Stopped why)
            | Returned dest1 =>
                GetStringParam_loop turns' (to_uint64 (addr + 1)) (i + 1) c1
                  dest1 maxlen m1
            end
        end
    end
  else
    match store_char dest (maxlen - 1) x00 with
    | Stopped why => Some (Stopped why)
    | Returned dest1 => Some (Returned (dest1, m))
    end.

Definition GetStringParam (turns : nat) (addr : Z) (dest : list byte)
    (maxlen : Z) (m : Machine (Access.WithMemory K))
    : option (Outcome (list byte * Machine (Access.WithMemory K))) :=
  GetStringParam_loop turns addr 0 1 dest maxlen m.

(** The bytes [s] are in the memory of the user program from the virtual
    address [addr] on, inside one page, which is resident and may be
    read. *)

Definition string_at (m : Machine (Access.WithMemory K)) (addr : Z)
    (s : list byte) : Prop :=
  ∃ e,
    entry (translationTable m) (to_int32 (addr / PageSize g_cfg)) = Some e
    ∧ readAllowed e || writeAllowed e = true
    ∧ valid e = true
    ∧ 0 ≤ physicalPage e < to_int32 (NumPhysPages g_cfg)
    ∧ addr mod PageSize g_cfg + Z.of_nat (length s) ≤ PageSize g_cfg
    ∧ Access.bytes_at (Access.memory m)
        (physicalPage e * PageSize g_cfg + addr mod PageSize g_cfg)
        (length s) = Some s.

End Params.

End Params.

(** ** Sample data *)

Module Demo.

(** A timer queue: items 11, 12, 13 due at times 5, 5 and 9. *)

Definition queue : list List.ListElement :=
  [ {| List.key := 5; List.item := 11 |};
    {| List.key := 5; List.item := 12 |};
    {| List.key := 9; List.item := 13 |} ].

(** A page fault being served: frame 0 holds page 0 of the address space at
    address 0 and is locked; frame 1 is free. *)

Definition faulting : PhysMem.State :=
  {| PhysMem.tpr :=
       [ {| PhysMem.free := false; PhysMem.locked := true;
            PhysMem.virtualPage := 0; PhysMem.owner := Some 0%nat |};
         {| PhysMem.free := true; PhysMem.locked := false;
            PhysMem.virtualPage := 0; PhysMem.owner := None |} ];
     PhysMem.free_page_list := [1];
     PhysMem.i_clock := to_uint64 (-1);
     PhysMem.heap :=
       {[ 0%nat := {| PhysMem.translationTable :=
                        Some [Toy.pte 0 false true true] |} ]};
     PhysMem.stat := {| numMemoryAccess := 0; numPageFaults := 1 |} |}.

(** Pages of 4096 bytes and a table that reaches above [INT_MAX]: page
    524288, where address 0x80000000 starts, may be read and is absent; the
    pages below it are not mapped.  The page fault manager serves the pages
    of the table and reports an address error for any other page. *)

Definition paged : Config := {| PageSize := 4096; NumPhysPages := 1024 |}.

Definition high_machine : Machine unit :=
  {| translationTable :=
       replicate (Z.to_nat 524288) (Toy.pte 0 false false false)
       ++ [Toy.pte 0 false true false];
     stat := {| numMemoryAccess := 0; numPageFaults := 0 |};
     kernel := tt |}.

Definition bounded_pager (page : Z) (m : Machine unit)
    : Outcome (ExceptionType * Machine unit) :=
  if decide (0 ≤ page < getMaxNumPages (translationTable m))
  then Toy.PageFault page m
  else Returned (ADDRESSERROR_EXCEPTION, m).

(** The page manager at boot on the machine with four frames. *)

Definition boot4 : PhysMem.State :=
  PhysMem.PhysicalMemManager Toy.cfg 0 ∅
    {| numMemoryAccess := 0; numPageFaults := 0 |}.

(** A machine with four frames of zeroes: page 0 in frame 2, page 1
    writable and absent, page 2 not mapped, page 3 read-only in frame 3; a
    page fault manager that brings the page into frame 1. *)

Definition computer : Machine (Access.WithMemory unit) :=
  {| translationTable :=
       [Toy.pte 2 true true true; Toy.pte 0 false true true;
        Toy.pte 0 false false false; Toy.pte 3 true true false];
     stat := {| numMemoryAccess := 0; numPageFaults := 0 |};
     kernel := {| Access.mainMemory := replicate 512 x00;
                  Access.others := tt |} |}.

(** The same machine with the string [hi] at the start of page 0. *)

Definition named : Machine (Access.WithMemory unit) :=
  Access.set_memory
    (replicate 256 x00 ++ [x68; x69; x00] ++ replicate 253 x00) computer.

Definition pager (page : Z) (m : Machine (Access.WithMemory unit))
    : Outcome (ExceptionType * Machine (Access.WithMemory unit)) :=
  match entry (translationTable m) page with
  | Some e =>
      Returned (NO_EXCEPTION,
                set_table (<[Z.to_nat page := Toy.load e]> (translationTable m))
                  m)
  | None => Returned (ADDRESSERROR_EXCEPTION, m)
  end.

Definition system_call (m : Machine (Access.WithMemory unit))
    : Outcome (Machine (Access.WithMemory unit)) :=
  Returned m.

End Demo.

(** * Lemmas *)

(** ** Machine integers *)

Lemma land_3_mod (a : Z) : Z.land a 3 = a mod 4.
Proof. change 3 with (Z.ones 2). rewrite Z.land_ones by lia. reflexivity. Qed.

Lemma land_1_mod (a : Z) : Z.land a 1 = a mod 2.
Proof. change 1 with (Z.ones 1). rewrite Z.land_ones by lia. reflexivity. Qed.

Lemma to_uint32_shift (a k : Z) : to_uint32 (a + 2 ^ 32 * k) = to_uint32 a.
Proof.
  unfold to_uint32. rewrite (Z.mul_comm (2 ^ 32) k).
  apply Z_mod_plus_full.
Qed.

Lemma to_uint64_shift (a : Z) : ∃ k, to_uint64 a = a + 2 ^ 32 * k.
Proof.
  unfold to_uint64. exists (- (2 ^ 32 * (a / 2 ^ 64))).
  pose proof (Z.div_mod a (2 ^ 64) ltac:(lia)). lia.
Qed.

Lemma to_int32_shift (a : Z) : ∃ k, to_int32 a = a + 2 ^ 32 * k.
Proof.
  unfold to_int32. exists (- ((a + 2 ^ 31) / 2 ^ 32)).
  pose proof (Z.div_mod (a + 2 ^ 31) (2 ^ 32) ltac:(lia)). lia.
Qed.

Lemma to_uint32_small (a : Z) : 0 ≤ a < 2 ^ 32 → to_uint32 a = a.
Proof. intros. unfold to_uint32. apply Z.mod_small. lia. Qed.

Lemma to_uint64_small (a : Z) : 0 ≤ a < 2 ^ 64 → to_uint64 a = a.
Proof. intros. unfold to_uint64. apply Z.mod_small. lia. Qed.

Lemma to_int32_small (a : Z) : - 2 ^ 31 ≤ a < 2 ^ 31 → to_int32 a = a.
Proof. intros. unfold to_int32. rewrite Z.mod_small; lia. Qed.

Lemma to_int32_le (a : Z) : - 2 ^ 31 ≤ a → to_int32 a ≤ a.
Proof.
  intros. unfold to_int32.
  pose proof (Z.div_mod (a + 2 ^ 31) (2 ^ 32) ltac:(lia)).
  assert (0 ≤ (a + 2 ^ 31) / 2 ^ 32) by (apply Z.div_pos; lia).
  lia.
Qed.

(** The address computed on the last line of [Translate] does not wrap when
    the frame is inside the machine memory. *)

Lemma physical_address_exact (c : Config) (pp x : Z) :
  Config_ok c → 0 ≤ pp < to_int32 (NumPhysPages c) → 0 ≤ x < PageSize c →
  to_uint32 (to_uint64 (to_uint64 pp * PageSize c + to_uint64 (to_int32 x)))
  = pp * PageSize c + x.
Proof.
  intros (Hps & Hn & Hmem) Hpp Hx.
  pose proof (to_int32_le (NumPhysPages c) ltac:(lia)) as Hle.
  destruct (to_uint64_shift (to_uint64 pp * PageSize c + to_uint64 (to_int32 x)))
    as [k1 ->].
  rewrite to_uint32_shift.
  destruct (to_uint64_shift pp) as [k2 ->].
  destruct (to_uint64_shift (to_int32 x)) as [k3 ->].
  destruct (to_int32_shift x) as [k4 ->].
  replace ((pp + 2 ^ 32 * k2) * PageSize c + (x + 2 ^ 32 * k4 + 2 ^ 32 * k3))
    with (pp * PageSize c + x + 2 ^ 32 * (k2 * PageSize c + k4 + k3)) by lia.
  rewrite to_uint32_shift. apply to_uint32_small. nia.
Qed.

(** ** Translation table *)

Lemma entry_range (t : TranslationTable) (v : Z) (e : PageTableEntry) :
  entry t v = Some e → 0 ≤ v < getMaxNumPages t.
Proof.
  unfold entry, getMaxNumPages. case_decide; [|done].
  intros H1%lookup_lt_Some. lia.
Qed.

Lemma get_entry {A : Type} (fld : PageTableEntry → A) t v e :
  entry t v = Some e → get fld t v = Returned (fld e).
Proof. unfold get. by intros ->. Qed.

Lemma update_entry (chg : PageTableEntry → PageTableEntry) t v e :
  entry t v = Some e → update chg t v = Returned (<[Z.to_nat v := chg e]> t).
Proof. unfold update. by intros ->. Qed.

Lemma entry_insert_eq (t : TranslationTable) v e e' :
  entry t v = Some e → entry (<[Z.to_nat v := e']> t) v = Some e'.
Proof.
  unfold entry. case_decide; [|done].
  intros H1%lookup_lt_Some. by apply list_lookup_insert_eq.
Qed.

Lemma entry_insert_ne (t : TranslationTable) v v' e' :
  0 ≤ v → v ≠ v' → entry (<[Z.to_nat v := e']> t) v' = entry t v'.
Proof.
  intros Hv Hne. unfold entry. case_decide; [|done].
  apply list_lookup_insert_ne. lia.
Qed.

(** ** The MMU *)

Arguments RaiseException : simpl never.

Section MMU_facts.

Context {K : Type} (g_cfg : Config).
Context (PageFault : Z → Machine K → Outcome (ExceptionType * Machine K)).
Context (SystemCall : Machine K → Outcome (Machine K)).

Local Abbreviation Translate := (Translate g_cfg PageFault SystemCall).
Local Abbreviation make_resident := (make_resident g_cfg PageFault SystemCall).
Local Abbreviation Raise := (RaiseException g_cfg PageFault SystemCall).
Local Abbreviation resolve := (resolve g_cfg).
Local Abbreviation vpn_of va := (to_int32 (va / PageSize g_cfg)).
Local Abbreviation offset_of va := (to_int32 (va mod PageSize g_cfg)).

(** [Translate] once the alignment and range checks are behind. *)

Lemma Translate_in_range va size writing (m : Machine K) e :
  PageSize g_cfg ≠ 0 →
  alignment_error va size = false →
  entry (translationTable m) (vpn_of va) = Some e →
  Translate va size writing m =
    if negb (readAllowed e) && negb (writeAllowed e)
    then Returned (ADDRESSERROR_EXCEPTION, None, m)
    else if writing && negb (writeAllowed e)
    then Returned (READONLY_EXCEPTION, None, m)
    else m1 ← make_resident va (vpn_of va) m;
         resolve (vpn_of va) (offset_of va) writing m1.
Proof.
  intros Hps Ha He. unfold Translate. rewrite Ha, decide_False by done.
  pose proof (entry_range _ _ _ He) as Hr.
  rewrite bool_decide_eq_false_2 by lia.
  unfold getBitReadAllowed, getBitWriteAllowed.
  rewrite !(get_entry _ _ _ _ He). reflexivity.
Qed.

(** The residency step on a resident page does nothing. *)

Lemma make_resident_valid va (m : Machine K) e :
  entry (translationTable m) (vpn_of va) = Some e → valid e = true →
  make_resident va (vpn_of va) m = Returned m.
Proof.
  intros He Hv. unfold make_resident, getBitValid.
  rewrite (get_entry _ _ _ _ He), Hv. reflexivity.
Qed.

(** When the residency step returns, the page is resident. *)

Lemma make_resident_returns va v (m m1 : Machine K) :
  make_resident va v m = Returned m1 →
  ∃ e1, entry (translationTable m1) v = Some e1 ∧ valid e1 = true.
Proof.
  unfold make_resident, getBitValid, get.
  destruct (entry (translationTable m) v) as [e|] eqn:He; [|done].
  cbn. destruct (valid e) eqn:Hv; cbn.
  - intros [= <-]. eauto.
  - destruct (Raise PAGEFAULT_EXCEPTION va _) as [m'|]; [|done]. cbn.
    destruct (entry (translationTable m') v) as [e'|] eqn:He'; [|done].
    cbn. destruct (valid e') eqn:Hv'; cbn; [|done].
    intros [= <-]. eauto.
Qed.

(** The tail of [Translate] on a resident page with a frame in bounds. *)

Lemma resolve_in_bounds v off writing (m : Machine K) e :
  entry (translationTable m) v = Some e →
  0 ≤ physicalPage e < to_int32 (NumPhysPages g_cfg) →
  resolve v off writing m =
    Returned (NO_EXCEPTION,
              Some (to_uint32
                      (to_uint64 (to_uint64 (physicalPage e) * PageSize g_cfg
                                  + to_uint64 off))),
              set_stat (incrMemoryAccess (stat m))
                (set_table (<[Z.to_nat v := touched writing e]>
                              (translationTable m)) m)).
Proof.
  intros He Hb. unfold resolve, getPhysicalPage.
  rewrite (get_entry _ _ _ _ He). cbn.
  rewrite !bool_decide_eq_false_2 by lia. cbn.
  unfold setBitM, setBitU, touched. destruct writing.
  - rewrite (update_entry _ _ _ _ He). cbn.
    rewrite (update_entry _ _ _ _ (entry_insert_eq _ _ _ _ He)). cbn.
    rewrite list_insert_insert_eq.
    rewrite (get_entry _ _ _ _ (entry_insert_eq _ _ _ _ He)). reflexivity.
  - cbn. rewrite (update_entry _ _ _ _ He). cbn.
    rewrite (get_entry _ _ _ _ (entry_insert_eq _ _ _ _ He)). reflexivity.
Qed.

Lemma resolve_out_of_bounds v off writing (m : Machine K) e :
  entry (translationTable m) v = Some e →
  ¬ (0 ≤ physicalPage e < to_int32 (NumPhysPages g_cfg)) →
  resolve v off writing m = Returned (BUSERROR_EXCEPTION, None, m).
Proof.
  intros He Hb. unfold resolve, getPhysicalPage.
  rewrite (get_entry _ _ _ _ He). cbn.
  destruct (decide (physicalPage e < 0)).
  - rewrite bool_decide_eq_true_2 by lia. reflexivity.
  - rewrite bool_decide_eq_false_2 by lia.
    rewrite bool_decide_eq_true_2 by lia. reflexivity.
Qed.

(** *** Alignment *)

Lemma alignment_error_4 va :
  alignment_error va 4 = negb (bool_decide (va mod 4 = 0)).
Proof.
  unfold alignment_error. rewrite land_3_mod.
  rewrite (bool_decide_eq_true_2 (4 = 4)) by done.
  rewrite (bool_decide_eq_false_2 (4 = 2)) by done.
  cbn. by rewrite orb_false_r.
Qed.

Lemma alignment_error_2 va :
  alignment_error va 2 = negb (bool_decide (va mod 2 = 0)).
Proof.
  unfold alignment_error. rewrite land_1_mod.
  rewrite (bool_decide_eq_false_2 (2 = 4)) by done.
  rewrite (bool_decide_eq_true_2 (2 = 2)) by done.
  reflexivity.
Qed.

Lemma alignment_error_other va size :
  size ≠ 4 → size ≠ 2 → alignment_error va size = false.
Proof.
  intros H4 H2. unfold alignment_error.
  rewrite (bool_decide_eq_false_2 (size = 4)) by done.
  rewrite (bool_decide_eq_false_2 (size = 2)) by done.
  reflexivity.
Qed.

(** A bus error that is not an alignment error comes from the frame-bounds
    check at the end of the translation. *)

Lemma bus_error_from_frame_bounds va size writing (m : Machine K) p m' :
  alignment_error va size = false →
  Translate va size writing m = Returned (BUSERROR_EXCEPTION, p, m') →
  ∃ e, entry (translationTable m') (vpn_of va) = Some e
       ∧ valid e = true
       ∧ ¬ (0 ≤ physicalPage e < to_int32 (NumPhysPages g_cfg)).
Proof.
  intros Ha. unfold Translate. rewrite Ha.
  case_decide; [done|].
  case_bool_decide; [done|].
  unfold getBitReadAllowed, getBitWriteAllowed, get.
  destruct (entry (translationTable m) (vpn_of va)) as [e|]; [|done]. cbn.
  destruct (negb (readAllowed e) && negb (writeAllowed e)); [done|].
  destruct (writing && negb (writeAllowed e)); [done|].
  destruct (make_resident va (vpn_of va) m) as [m1|] eqn:Hm; [|done]. cbn.
  destruct (make_resident_returns _ _ _ _ Hm) as (e1 & He1 & Hv1).
  destruct (decide (0 ≤ physicalPage e1 < to_int32 (NumPhysPages g_cfg)))
    as [Hb|Hb].
  - by rewrite (resolve_in_bounds _ _ _ _ _ He1 Hb).
  - rewrite (resolve_out_of_bounds _ _ _ _ _ He1 Hb).
    intros [= <- <-]. eauto.
Qed.

(** C5. A 4-byte access at an address that is not a multiple of 4, and a
    2-byte access at an odd address, end in a bus error whatever the
    translation table holds (the test comes first: the machine is returned
    untouched, no table entry is read); a 1-byte or 8-byte access is never
    refused for its alignment: a bus error on such an access can only be the
    frame-bounds check on a resident page. *)

Theorem translate_alignment va writing (m : Machine K) :
  (va mod 4 ≠ 0 →
     Translate va 4 writing m = Returned (BUSERROR_EXCEPTION, None, m))
  ∧ (va mod 2 ≠ 0 →
     Translate va 2 writing m = Returned (BUSERROR_EXCEPTION, None, m))
  ∧ (∀ size, size = 1 ∨ size = 8 →
       alignment_error va size = false
       ∧ ∀ p m',
           Translate va size writing m = Returned (BUSERROR_EXCEPTION, p, m') →
           ∃ e, entry (translationTable m') (vpn_of va) = Some e
                ∧ valid e = true
                ∧ ¬ (0 ≤ physicalPage e < to_int32 (NumPhysPages g_cfg))).
Proof.
  split; [|split].
  - intros H. unfold Translate.
    rewrite alignment_error_4, bool_decide_eq_false_2 by done. reflexivity.
  - intros H. unfold Translate.
    rewrite alignment_error_2, bool_decide_eq_false_2 by done. reflexivity.
  - intros size Hs.
    assert (alignment_error va size = false) as Ha
      by (apply alignment_error_other; lia).
    split; [done|]. intros p m'. by apply bus_error_from_frame_bounds.
Qed.

(** *** Access rights *)

(** C6. An aligned access to a page inside the table whose entry has
    neither [readAllowed] nor [writeAllowed] ends in an address error, for
    reads and writes alike and whatever the [valid] bit says (the page size
    is not 0: the page number is a division by it). *)

Theorem translate_unmapped va size writing (m : Machine K) e :
  PageSize g_cfg ≠ 0 →
  alignment_error va size = false →
  entry (translationTable m) (vpn_of va) = Some e →
  readAllowed e = false →
  writeAllowed e = false →
  Translate va size writing m = Returned (ADDRESSERROR_EXCEPTION, None, m).
Proof.
  intros Hps Ha He Hr Hw.
  rewrite (Translate_in_range _ _ _ _ _ Hps Ha He), Hr, Hw. reflexivity.
Qed.

(** C7. On an aligned access to a page inside the table that may be read
    but not written, a write ends in a read-only error; a read succeeds as
    soon as the page is or becomes resident and its frame is inside the
    physical memory (the page size is not 0: the page number is a division
    by it). *)

Theorem translate_read_only va size (m : Machine K) e :
  PageSize g_cfg ≠ 0 →
  alignment_error va size = false →
  entry (translationTable m) (vpn_of va) = Some e →
  readAllowed e = true →
  writeAllowed e = false →
  Translate va size true m = Returned (READONLY_EXCEPTION, None, m)
  ∧ ∀ m1 e1,
      make_resident va (vpn_of va) m = Returned m1 →
      entry (translationTable m1) (vpn_of va) = Some e1 →
      0 ≤ physicalPage e1 < to_int32 (NumPhysPages g_cfg) →
      ∃ p m2, Translate va size false m = Returned (NO_EXCEPTION, Some p, m2).
Proof.
  intros Hps Ha He Hr Hw. split.
  - rewrite (Translate_in_range _ _ _ _ _ Hps Ha He), Hr, Hw. reflexivity.
  - intros m1 e1 Hm He1 Hb.
    rewrite (Translate_in_range _ _ _ _ _ Hps Ha He), Hr, Hw. cbn.
    rewrite Hm. cbn. rewrite (resolve_in_bounds _ _ _ _ _ He1 Hb). eauto.
Qed.

(** *** Success *)

(** C1. A call that passes the alignment, range, mapped and permission
    checks, whose page is or becomes resident and whose frame is inside the
    physical memory returns [NO_EXCEPTION] with the physical address
    [physicalPage * PageSize + virtAddr mod PageSize]; afterwards the entry
    has its U bit set, and its M bit set when writing and untouched when
    reading; nothing else of the entry changes. *)

Theorem translate_success va size writing (m m1 : Machine K) e e1 :
  Config_ok g_cfg →
  alignment_error va size = false →
  entry (translationTable m) (vpn_of va) = Some e →
  readAllowed e || writeAllowed e = true →
  (writing = true → writeAllowed e = true) →
  make_resident va (vpn_of va) m = Returned m1 →
  entry (translationTable m1) (vpn_of va) = Some e1 →
  0 ≤ physicalPage e1 < to_int32 (NumPhysPages g_cfg) →
  ∃ m2 e2,
    Translate va size writing m =
      Returned (NO_EXCEPTION,
                Some (physicalPage e1 * PageSize g_cfg + va mod PageSize g_cfg),
                m2)
    ∧ entry (translationTable m2) (vpn_of va) = Some e2
    ∧ U e2 = true
    ∧ M e2 = (if writing then true else M e1)
    ∧ physicalPage e2 = physicalPage e1
    ∧ valid e2 = valid e1
    ∧ readAllowed e2 = readAllowed e1
    ∧ writeAllowed e2 = writeAllowed e1
    ∧ addrDisk e2 = addrDisk e1.
Proof.
  intros Hc Ha He Hmap Hperm Hm He1 Hb.
  assert (PageSize g_cfg ≠ 0) as Hnz by (destruct Hc; lia).
  rewrite (Translate_in_range _ _ _ _ _ Hnz Ha He).
  assert (negb (readAllowed e) && negb (writeAllowed e) = false) as ->
    by (destruct (readAllowed e), (writeAllowed e); done).
  assert (writing && negb (writeAllowed e) = false) as ->
    by (destruct writing; [rewrite Hperm|]; done).
  rewrite Hm. cbn. rewrite (resolve_in_bounds _ _ _ _ _ He1 Hb).
  rewrite physical_address_exact; [|done|done|].
  - eexists _, (touched writing e1). split; [reflexivity|].
    split; [apply (entry_insert_eq _ _ _ _ He1)|].
    by destruct writing.
  - destruct Hc as (Hps & _). apply Z.mod_pos_bound. lia.
Qed.

(** *** Page faults *)

Lemma handler_page va :
  0 < PageSize g_cfg → 0 ≤ va ≤ INT_MAX →
  to_uint64 (to_int32 va) / PageSize g_cfg = vpn_of va.
Proof.
  unfold INT_MAX. intros Hps Hva.
  rewrite (to_int32_small va) by lia.
  rewrite (to_uint64_small va) by lia.
  assert (0 ≤ va / PageSize g_cfg) by (apply Z.div_pos; lia).
  assert (va / PageSize g_cfg ≤ va) by (apply Z.div_le_upper_bound; nia).
  rewrite to_int32_small; lia.
Qed.

(** The residency step on an absent page, in terms of the page fault
    manager. *)

Lemma make_resident_absent va v (m : Machine K) e :
  PageSize g_cfg ≠ 0 →
  entry (translationTable m) v = Some e → valid e = false →
  make_resident va v m =
    '(exc, m1) ← PageFault (to_uint64 (to_int32 va) / PageSize g_cfg)
                   (set_stat (incrPageFault (stat m)) m);
    if decide (exc ≠ NO_EXCEPTION) then Stopped halt_ERROR
    else v1 ← getBitValid (translationTable m1) v;
         if negb v1 then Stopped exit_ERROR else Returned m1.
Proof.
  intros Hps He Hv. unfold make_resident, getBitValid.
  rewrite (get_entry _ _ _ _ He), Hv. cbn.
  unfold RaiseException, ExceptionHandler. rewrite decide_False by done.
  destruct (PageFault _ _) as [[exc m1]|]; [|done]. cbn.
  by case_decide.
Qed.

(** [Translate] on an absent page, in terms of the page fault manager. *)

Lemma Translate_absent va size writing (m : Machine K) e :
  PageSize g_cfg ≠ 0 →
  alignment_error va size = false →
  entry (translationTable m) (vpn_of va) = Some e →
  readAllowed e || writeAllowed e = true →
  (writing = true → writeAllowed e = true) →
  valid e = false →
  Translate va size writing m =
    '(exc, m1) ← PageFault (to_uint64 (to_int32 va) / PageSize g_cfg)
                   (set_stat (incrPageFault (stat m)) m);
    if decide (exc ≠ NO_EXCEPTION) then Stopped halt_ERROR
    else v1 ← getBitValid (translationTable m1) (vpn_of va);
         if negb v1 then Stopped exit_ERROR
         else resolve (vpn_of va) (offset_of va) writing m1.
Proof.
  intros Hps Ha He Hmap Hperm Hv.
  rewrite (Translate_in_range _ _ _ _ _ Hps Ha He).
  assert (negb (readAllowed e) && negb (writeAllowed e) = false) as ->
    by (destruct (readAllowed e), (writeAllowed e); done).
  assert (writing && negb (writeAllowed e) = false) as ->
    by (destruct writing; [rewrite Hperm|]; done).
  rewrite (make_resident_absent _ _ _ _ Hps He Hv).
  destruct (PageFault _ _) as [[exc m1]|]; [|done]. cbn.
  case_decide; [done|].
  destruct (getBitValid (translationTable m1) (vpn_of va)) as [v1|]; [|done].
  cbn. by destruct v1.
Qed.

(** The address as the handler sees it, above [INT_MAX]: the [int] is
    negative and its conversion to the type of the page size adds 2^64. *)

Lemma handler_address_high va :
  INT_MAX < va < 2 ^ 32 →
  to_uint64 (to_int32 va) = 2 ^ 64 - 2 ^ 32 + va.
Proof.
  unfold INT_MAX, to_uint64, to_int32. intros Hva.
  replace ((va + 2 ^ 31) mod 2 ^ 32) with (va + 2 ^ 31 - 2 ^ 32)
    by (apply (Z.mod_unique _ _ 1); lia).
  symmetry. apply (Z.mod_unique _ _ (-1)); lia.
Qed.

(** C3. The page fault manager is not always run for the page of the
    access.  On an aligned access above [INT_MAX] to a mapped page inside
    the table, with the rights for the access, whose [valid] bit is clear,
    the handler receives the address as a negative [int] and divides its
    64-bit conversion by the page size: the manager is run for the page
    [(2^64 - 2^32 + virtAddr) / PageSize], which is greater than every page
    number [Translate] can look up.  When the page of the access is still
    not valid afterwards, [Translate] does not return. *)

Theorem translate_page_fault_other_page va size writing (m : Machine K) e :
  0 < PageSize g_cfg ≤ 2 ^ 32 →
  INT_MAX < va < 2 ^ 32 →
  alignment_error va size = false →
  entry (translationTable m) (vpn_of va) = Some e →
  readAllowed e || writeAllowed e = true →
  (writing = true → writeAllowed e = true) →
  valid e = false →
  let page := (2 ^ 64 - 2 ^ 32 + va) / PageSize g_cfg in
  let m0 := set_stat (incrPageFault (stat m)) m in
  vpn_of va < page
  ∧ Translate va size writing m =
      ('(exc, m1) ← PageFault page m0;
       if decide (exc ≠ NO_EXCEPTION) then Stopped halt_ERROR
       else v1 ← getBitValid (translationTable m1) (vpn_of va);
            if negb v1 then Stopped exit_ERROR
            else resolve (vpn_of va) (offset_of va) writing m1)
  ∧ (∀ exc m1 e1,
       PageFault page m0 = Returned (exc, m1) →
       entry (translationTable m1) (vpn_of va) = Some e1 →
       valid e1 = false →
       ∃ why, Translate va size writing m = Stopped why).
Proof.
  intros Hps Hva Ha He Hmap Hperm Hv page m0.
  assert (Translate va size writing m =
          '(exc, m1) ← PageFault page m0;
          if decide (exc ≠ NO_EXCEPTION) then Stopped halt_ERROR
          else v1 ← getBitValid (translationTable m1) (vpn_of va);
               if negb v1 then Stopped exit_ERROR
               else resolve (vpn_of va) (offset_of va) writing m1) as Hrun.
  { rewrite (Translate_absent _ _ _ _ _ ltac:(lia) Ha He Hmap Hperm Hv).
    by rewrite (handler_address_high _ Hva). }
  split; [|split; [exact Hrun|]].
  - assert (to_int32 (va / PageSize g_cfg) < 2 ^ 31) as Hvpn.
    { unfold to_int32.
      pose proof (Z.mod_pos_bound (va / PageSize g_cfg + 2 ^ 31) (2 ^ 32)
                    ltac:(lia)). lia. }
    assert (2 ^ 31 ≤ page); [|lia].
    unfold page, INT_MAX in *. apply Z.div_le_lower_bound; [lia|]. nia.
  - intros exc m1 e1 Hpf He1 Hv1. rewrite Hrun, Hpf. cbn.
    case_decide; [by eexists|].
    unfold getBitValid. rewrite (get_entry _ _ _ _ He1), Hv1. cbn.
    by eexists.
Qed.

(** X29. On an aligned access to a mapped page inside the table, with the
    rights for the access, whose [valid] bit is clear, [Translate] runs the
    page fault manager before anything else happens, for the page of the
    access when the address is at most [INT_MAX].  If the manager stops the
    simulator, so does [Translate]; if it reports an exception the handler
    halts; if it returns and the page is still not valid, [Translate]
    leaves with [exit(ERROR)] and returns nothing; if the page is valid,
    [Translate] carries on with the frame-bounds check and the address
    computation on the machine the manager left. *)

Theorem translate_page_fault va size writing (m : Machine K) e :
  0 < PageSize g_cfg →
  alignment_error va size = false →
  entry (translationTable m) (vpn_of va) = Some e →
  readAllowed e || writeAllowed e = true →
  (writing = true → writeAllowed e = true) →
  valid e = false →
  let page := to_uint64 (to_int32 va) / PageSize g_cfg in
  let m0 := set_stat (incrPageFault (stat m)) m in
  (0 ≤ va ≤ INT_MAX → page = vpn_of va)
  ∧ (∀ why, PageFault page m0 = Stopped why →
       Translate va size writing m = Stopped why)
  ∧ (∀ exc m1, PageFault page m0 = Returned (exc, m1) →
       exc ≠ NO_EXCEPTION →
       Translate va size writing m = Stopped halt_ERROR)
  ∧ (∀ m1 e1, PageFault page m0 = Returned (NO_EXCEPTION, m1) →
       entry (translationTable m1) (vpn_of va) = Some e1 →
       valid e1 = false →
       Translate va size writing m = Stopped exit_ERROR)
  ∧ (∀ m1 e1, PageFault page m0 = Returned (NO_EXCEPTION, m1) →
       entry (translationTable m1) (vpn_of va) = Some e1 →
       valid e1 = true →
       Translate va size writing m =
         resolve (vpn_of va) (offset_of va) writing m1).
Proof.
  intros Hps Ha He Hmap Hperm Hv page m0.
  rewrite (Translate_absent _ _ _ _ _ ltac:(lia) Ha He Hmap Hperm Hv).
  fold page m0.
  split; [by apply handler_page|].
  split; [by intros why ->|].
  split.
  { intros exc m1 -> Hexc. cbn. by rewrite decide_True. }
  split.
  - intros m1 e1 -> He1 Hv1. cbn.
    unfold getBitValid. by rewrite (get_entry _ _ _ _ He1), Hv1.
  - intros m1 e1 -> He1 Hv1. cbn.
    unfold getBitValid. by rewrite (get_entry _ _ _ _ He1), Hv1.
Qed.

(** *** Translating twice *)

(** What a successful translation went through. *)

Lemma Translate_success_inv va size writing (m : Machine K) p m' :
  Translate va size writing m = Returned (NO_EXCEPTION, p, m') →
  ∃ e m1 e1,
    alignment_error va size = false
    ∧ entry (translationTable m) (vpn_of va) = Some e
    ∧ readAllowed e || writeAllowed e = true
    ∧ (writing = true → writeAllowed e = true)
    ∧ make_resident va (vpn_of va) m = Returned m1
    ∧ entry (translationTable m1) (vpn_of va) = Some e1
    ∧ valid e1 = true
    ∧ 0 ≤ physicalPage e1 < to_int32 (NumPhysPages g_cfg)
    ∧ resolve (vpn_of va) (offset_of va) writing m1
      = Returned (NO_EXCEPTION, p, m').
Proof.
  unfold Translate.
  destruct (alignment_error va size) eqn:Ha; [done|].
  case_decide; [done|].
  case_bool_decide; [done|].
  unfold getBitReadAllowed, getBitWriteAllowed, get.
  destruct (entry (translationTable m) (vpn_of va)) as [e|] eqn:He; [|done].
  cbn.
  destruct (readAllowed e) eqn:Hr, (writeAllowed e) eqn:Hw, writing;
    cbn; try done.
  all: destruct (make_resident va (vpn_of va) m) as [m1|] eqn:Hm;
    [cbn|done].
  all: destruct (make_resident_returns _ _ _ _ Hm) as (e1 & He1 & Hv1).
  all: destruct (decide (0 ≤ physicalPage e1 < to_int32 (NumPhysPages g_cfg)))
    as [Hb|Hb]; [|by rewrite (resolve_out_of_bounds _ _ _ _ _ He1 Hb)].
  all: intros Hres; exists e, m1, e1; rewrite Hr, Hw; done.
Qed.

(** The residency step either leaves the machine alone or returns what the
    page fault manager returned on the same translation table. *)

Lemma make_resident_origin va v (m m1 : Machine K) :
  make_resident va v m = Returned m1 →
  m1 = m
  ∨ ∃ page m0 exc,
      translationTable m0 = translationTable m
      ∧ PageFault page m0 = Returned (exc, m1).
Proof.
  unfold make_resident, getBitValid, get.
  destruct (entry (translationTable m) v) as [e|] eqn:He; [|done]. cbn.
  destruct (valid e) eqn:Hv; cbn.
  - intros [= <-]. by left.
  - unfold RaiseException, ExceptionHandler. case_decide; [done|].
    destruct (PageFault _ _) as [[exc m2]|] eqn:Hpf; [|done]. cbn.
    case_decide; [done|]. cbn.
    destruct (entry (translationTable m2) v) as [e2|]; [|done]. cbn.
    destruct (valid e2); cbn; [|done].
    intros [= <-]. right. eexists _, _, _. split; [|exact Hpf]. reflexivity.
Qed.

(** An aligned translation that returns has divided by the page size. *)

Lemma Translate_returned_nonzero va size writing (m : Machine K) r :
  alignment_error va size = false →
  Translate va size writing m = Returned r →
  PageSize g_cfg ≠ 0.
Proof.
  intros Ha. unfold Translate. rewrite Ha. by case_decide.
Qed.

(** On a resident page, with the rights for the access, [Translate] goes
    straight to its tail. *)

Lemma Translate_resident va size writing (m : Machine K) e :
  PageSize g_cfg ≠ 0 →
  alignment_error va size = false →
  entry (translationTable m) (vpn_of va) = Some e →
  readAllowed e || writeAllowed e = true →
  (writing = true → writeAllowed e = true) →
  valid e = true →
  Translate va size writing m
  = resolve (vpn_of va) (offset_of va) writing m.
Proof.
  intros Hps Ha He Hmap Hperm Hv.
  rewrite (Translate_in_range _ _ _ _ _ Hps Ha He).
  assert (negb (readAllowed e) && negb (writeAllowed e) = false) as ->
    by (destruct (readAllowed e), (writeAllowed e); done).
  assert (writing && negb (writeAllowed e) = false) as ->
    by (destruct writing; [rewrite Hperm|]; done).
  by rewrite (make_resident_valid _ _ _ He Hv).
Qed.

(** The entry a successful translation leaves behind: resident, in bounds,
    with the rights the access needed, and carrying the frame of the
    address that was returned. *)

Lemma Translate_success_state va size writing (m m' : Machine K) p :
  keeps_permissions PageFault →
  Translate va size writing m = Returned (NO_EXCEPTION, Some p, m') →
  ∃ e2,
    alignment_error va size = false
    ∧ entry (translationTable m') (vpn_of va) = Some e2
    ∧ readAllowed e2 || writeAllowed e2 = true
    ∧ (writing = true → writeAllowed e2 = true)
    ∧ valid e2 = true
    ∧ 0 ≤ physicalPage e2 < to_int32 (NumPhysPages g_cfg)
    ∧ p = to_uint32
            (to_uint64 (to_uint64 (physicalPage e2) * PageSize g_cfg
                        + to_uint64 (offset_of va))).
Proof.
  intros Hkeep H1.
  destruct (Translate_success_inv _ _ _ _ _ _ H1)
    as (e & m1 & e1 & Ha & He & Hmap & Hperm & Hm & He1 & Hv1 & Hb & Hres).
  rewrite (resolve_in_bounds _ _ _ _ _ He1 Hb) in Hres.
  injection Hres as Hp Hm'.
  assert (readAllowed e1 = readAllowed e ∧ writeAllowed e1 = writeAllowed e)
    as [Hr1 Hw1].
  { destruct (make_resident_origin _ _ _ _ Hm)
      as [->|(page & m0 & exc & Htt & Hpf)].
    - rewrite He in He1. by injection He1 as ->.
    - eapply Hkeep; [exact Hpf| |exact He1]. by rewrite Htt. }
  exists (touched writing e1). split; [done|]. split.
  { subst m'. cbn. apply (entry_insert_eq _ _ _ _ He1). }
  assert (readAllowed (touched writing e1) = readAllowed e
          ∧ writeAllowed (touched writing e1) = writeAllowed e
          ∧ valid (touched writing e1) = true
          ∧ physicalPage (touched writing e1) = physicalPage e1)
    as (-> & -> & -> & ->)
    by (destruct writing; cbn; auto).
  done.
Qed.

(** C10. With a page fault manager that leaves the access rights of the
    pages alone, a translation that returned [NO_EXCEPTION] with physical
    address [p] returns [NO_EXCEPTION] with the same [p] when it is run
    again, with the same arguments, on the machine the first run left. *)

Theorem translate_twice va size writing (m m' : Machine K) p :
  keeps_permissions PageFault →
  Translate va size writing m = Returned (NO_EXCEPTION, Some p, m') →
  ∃ m'', Translate va size writing m' = Returned (NO_EXCEPTION, Some p, m'').
Proof.
  intros Hkeep H1.
  destruct (Translate_success_state _ _ _ _ _ _ Hkeep H1)
    as (e2 & Ha & He2 & Hmap & Hperm & Hv & Hb & ->).
  pose proof (Translate_returned_nonzero _ _ _ _ _ Ha H1) as Hps.
  rewrite (Translate_resident _ _ _ _ _ Hps Ha He2 Hmap Hperm Hv).
  rewrite (resolve_in_bounds _ _ _ _ _ He2 Hb).
  eexists. reflexivity.
Qed.

(** Hence the assertion at the head of [ReadMem] and [WriteMem] holds
    whenever the first translation succeeds. *)

Lemma access_translation_agrees a size writing (m m1 : Machine K) p :
  keeps_permissions PageFault →
  Translate (to_uint32 a) size writing (set_stat (incrMemoryAccess (stat m)) m)
  = Returned (NO_EXCEPTION, Some p, m1) →
  ∃ m2, access_translation g_cfg PageFault SystemCall a size writing m
        = Returned (NO_EXCEPTION, Some p, m2).
Proof.
  intros Hkeep H1.
  destruct (Translate_success_state _ _ _ _ _ _ Hkeep H1)
    as (e2 & Ha & He2 & Hmap & Hperm & Hv & Hb & ->).
  pose proof (Translate_returned_nonzero _ _ _ _ _ Ha H1) as Hps.
  eexists. unfold access_translation. rewrite H1. cbn.
  rewrite (Translate_resident _ _ _ _ _ Hps Ha He2 Hmap Hperm Hv).
  rewrite (resolve_in_bounds _ _ _ _ _ He2 Hb). cbn.
  rewrite decide_True by done. unfold ASSERT.
  by rewrite bool_decide_eq_true_2.
Qed.

End MMU_facts.

(** *** The small machine *)

Lemma Toy_cfg_ok : Config_ok Toy.cfg.
Proof. unfold Config_ok, Toy.cfg. cbn. lia. Qed.

Lemma Toy_PageFault_keeps_permissions : keeps_permissions Toy.PageFault.
Proof.
  intros page m exc m1 v e e1. unfold Toy.PageFault.
  destruct (entry (translationTable m) page) as [e0|] eqn:He0.
  - intros [= <- <-] He He1. cbn in He1.
    pose proof (entry_range _ _ _ He0) as Hr.
    destruct (decide (page = v)) as [->|Hne].
    + rewrite (entry_insert_eq _ _ _ _ He0) in He1.
      injection He1 as <-. rewrite He in He0. by injection He0 as <-.
    + rewrite entry_insert_ne in He1 by lia.
      rewrite He in He1. by injection He1 as <-.
  - intros [= <- <-] He He1. rewrite He in He1. by injection He1 as <-.
Qed.

(** A read of four bytes at 0x84 faults, is served, and ends at physical
    address 132 with the U bit of page 1 set; with a manager that does not
    bring the page in, [Translate] leaves with [exit(ERROR)]; a write to the
    same page is refused before any fault is raised. *)

Example translate_after_fault :
  Translate Toy.cfg Toy.PageFault Toy.SystemCall 0x84 4 false Toy.machine
  = Returned
      (NO_EXCEPTION, Some 132,
       {| translationTable :=
            [Toy.pte 2 true true true;
             with_U true (Toy.pte 1 true true false);
             Toy.pte 0 false false false; Toy.pte 3 true true false];
          stat := {| numMemoryAccess := 1; numPageFaults := 1 |};
          kernel := () |}).
Proof. reflexivity. Qed.

Example translate_fault_not_served :
  Translate Toy.cfg Toy.idle Toy.SystemCall 0x84 4 false Toy.machine
  = Stopped exit_ERROR.
Proof. reflexivity. Qed.

Example translate_write_refused :
  Translate Toy.cfg Toy.idle Toy.SystemCall 0x84 4 true Toy.machine
  = Returned (READONLY_EXCEPTION, None, Toy.machine).
Proof. reflexivity. Qed.

(** Sizes 1 and 8 at an odd address of page 0 (frame 2). *)

Example translate_byte_unaligned :
  fst <$> Translate Toy.cfg Toy.idle Toy.SystemCall 0x7 1 true Toy.machine
  = Returned (NO_EXCEPTION, Some 263)
  ∧ fst <$> Translate Toy.cfg Toy.idle Toy.SystemCall 0x7 8 false Toy.machine
    = Returned (NO_EXCEPTION, Some 263).
Proof. split; reflexivity. Qed.

(** Address 0x1003, four bytes: bus error. *)

Lemma translate_alignment_witness :
  Translate Toy.cfg Toy.PageFault Toy.SystemCall 0x1003 4 false Toy.machine
  = Returned (BUSERROR_EXCEPTION, None, Toy.machine).
Proof.
  apply (proj1 (translate_alignment Toy.cfg Toy.PageFault Toy.SystemCall
                  0x1003 false Toy.machine)).
  vm_compute. discriminate.
Defined.

(** Address 0x100 is on page 2, which is not mapped. *)

Lemma translate_unmapped_witness :
  Translate Toy.cfg Toy.PageFault Toy.SystemCall 0x100 4 true Toy.machine
  = Returned (ADDRESSERROR_EXCEPTION, None, Toy.machine).
Proof.
  apply (translate_unmapped Toy.cfg Toy.PageFault Toy.SystemCall
           0x100 4 true Toy.machine (Toy.pte 0 false false false));
    first [reflexivity | discriminate].
Defined.

(** Address 0x180 is on page 3, resident and read-only. *)

Lemma translate_read_only_witness :
  Translate Toy.cfg Toy.PageFault Toy.SystemCall 0x180 4 true Toy.machine
  = Returned (READONLY_EXCEPTION, None, Toy.machine)
  ∧ ∃ p m2,
      Translate Toy.cfg Toy.PageFault Toy.SystemCall 0x180 4 false Toy.machine
      = Returned (NO_EXCEPTION, Some p, m2).
Proof.
  destruct (translate_read_only Toy.cfg Toy.PageFault Toy.SystemCall
              0x180 4 Toy.machine (Toy.pte 3 true true false))
    as [Hw Hr]; first [reflexivity | discriminate | idtac].
  split; [exact Hw|].
  apply (Hr Toy.machine (Toy.pte 3 true true false)); try reflexivity.
  vm_compute. split; [discriminate|reflexivity].
Defined.

(** Address 0x84 is byte 4 of page 1, which the page fault manager brings
    into frame 1: physical address 128 + 4. *)

Lemma translate_success_witness :
  ∃ m2 e2,
    Translate Toy.cfg Toy.PageFault Toy.SystemCall 0x84 4 false Toy.machine
    = Returned (NO_EXCEPTION, Some 132, m2)
    ∧ entry (translationTable m2) 1 = Some e2
    ∧ U e2 = true ∧ M e2 = false.
Proof.
  destruct (translate_success Toy.cfg Toy.PageFault Toy.SystemCall
              0x84 4 false Toy.machine Toy.machine_loaded
              (Toy.pte 0 false true false) (Toy.pte 1 true true false))
    as (m2 & e2 & Ht & He & HU & HM & _); try reflexivity.
  - exact Toy_cfg_ok.
  - discriminate.
  - vm_compute. split; [discriminate|reflexivity].
  - exists m2, e2. auto.
Defined.

Lemma translate_page_fault_witness :
  Translate Toy.cfg Toy.PageFault Toy.SystemCall 0x84 4 false Toy.machine
  = resolve Toy.cfg 1 4 false Toy.machine_loaded.
Proof.
  refine (proj2 (proj2 (proj2 (proj2
            (translate_page_fault Toy.cfg Toy.PageFault Toy.SystemCall
               0x84 4 false Toy.machine (Toy.pte 0 false true false)
               _ _ _ _ _ _))))
            Toy.machine_loaded (Toy.pte 1 true true false) _ _ _);
    first [reflexivity | discriminate].
Defined.

(** With pages of 4096 bytes, address 0x80000004 is byte 4 of page 524288,
    readable and absent.  The handler receives -2147483644 and runs the
    page fault manager for page 4503599626846208, which is outside the
    table: the manager reports an address error and the handler halts. *)

Lemma translate_page_fault_other_page_witness :
  to_int32 (0x80000004 / PageSize Demo.paged) = 524288
  ∧ 524288 < 4503599626846208
  ∧ Translate Demo.paged Demo.bounded_pager Toy.SystemCall 0x80000004 4 false
      Demo.high_machine
    = ('(exc, m1) ← Demo.bounded_pager 4503599626846208
                      (set_stat (incrPageFault (stat Demo.high_machine))
                         Demo.high_machine);
       if decide (exc ≠ NO_EXCEPTION) then Stopped halt_ERROR
       else v1 ← getBitValid (translationTable m1) 524288;
            if negb v1 then Stopped exit_ERROR
            else resolve Demo.paged 524288 4 false m1)
  ∧ Translate Demo.paged Demo.bounded_pager Toy.SystemCall 0x80000004 4 false
      Demo.high_machine
    = Stopped halt_ERROR.
Proof.
  destruct (translate_page_fault_other_page Demo.paged Demo.bounded_pager
              Toy.SystemCall 0x80000004 4 false Demo.high_machine
              (Toy.pte 0 false true false))
    as (Hlt & Hrun & _).
  - vm_compute. split; [reflexivity|discriminate].
  - vm_compute. split; reflexivity.
  - reflexivity.
  - vm_compute. reflexivity.
  - reflexivity.
  - discriminate.
  - reflexivity.
  - split; [reflexivity|]. split; [exact Hlt|]. split; [exact Hrun|].
    rewrite Hrun. vm_compute. reflexivity.
Defined.

Lemma translate_twice_witness :
  ∃ m'',
    Translate Toy.cfg Toy.PageFault Toy.SystemCall 0x84 4 false
      (set_stat {| numMemoryAccess := 1; numPageFaults := 1 |}
         (set_table (<[1%nat := touched false (Toy.pte 1 true true false)]>
                       (translationTable Toy.machine_loaded))
            Toy.machine_loaded))
    = Returned (NO_EXCEPTION, Some 132, m'').
Proof.
  apply (translate_twice Toy.cfg Toy.PageFault Toy.SystemCall
           0x84 4 false Toy.machine).
  - exact Toy_PageFault_keeps_permissions.
  - reflexivity.
Defined.

(** ** The physical page manager *)

Section PhysMem_facts.

Import PhysMem.

Context (g_cfg : Config) (INVALID_PAGE : Z).

Local Abbreviation UnlockPage := (UnlockPage g_cfg).
Local Abbreviation FindFreePage := (FindFreePage INVALID_PAGE).

Lemma frame_Returned (s : State) n f :
  frame s n = Returned f → 0 ≤ n ∧ tpr s !! Z.to_nat n = Some f.
Proof.
  unfold frame. case_decide; [|done].
  destruct (tpr s !! Z.to_nat n) eqn:E; [|done]. by intros [= ->].
Qed.

Lemma maps_to_functional (s : State) o v f1 f2 :
  maps_to s o v f1 → maps_to s o v f2 → f1 = f2.
Proof.
  intros (a & t & e & Ha & Ht & He & _ & <-) (a' & t' & e' & Ha' & Ht' & He' & _ & <-).
  rewrite Ha in Ha'. injection Ha' as <-.
  rewrite Ht in Ht'. injection Ht' as <-.
  rewrite He in He'. by injection He' as <-.
Qed.

(** The mappings of a state depend on its heap only. *)

Lemma maps_to_heap (s s' : State) o v f :
  heap s' = heap s → maps_to s' o v f ↔ maps_to s o v f.
Proof. unfold maps_to. by intros ->. Qed.

Lemma frames_disjoint_heap (s s' : State) :
  heap s' = heap s → frames_disjoint s → frames_disjoint s'.
Proof.
  intros Hh Hd o1 v1 o2 v2 f H1 H2.
  apply (Hd o1 v1 o2 v2 f); by apply (maps_to_heap s s').
Qed.

(** Changing a frame without touching [free], [owner] and [virtualPage]
    keeps the back references. *)

Lemma backrefs_store_same (s : State) n f f' :
  0 ≤ n → tpr s !! Z.to_nat n = Some f →
  free f' = free f → owner f' = owner f → virtualPage f' = virtualPage f →
  backrefs_match s → backrefs_match (store_frame n f' s).
Proof.
  intros Hn Hf Hfree Hown Hvp Hb k g Hk Hg. cbn in Hk.
  destruct (decide (k = Z.to_nat n)) as [->|Hne].
  - rewrite list_lookup_insert_eq in Hk by (by eapply lookup_lt_Some).
    injection Hk as <-. rewrite Hfree in Hg.
    destruct (Hb _ _ Hf Hg) as (o & Ho & Hm & Hu).
    exists o. rewrite Hown, Hvp. done.
  - rewrite list_lookup_insert_ne in Hk by done.
    exact (Hb _ _ Hk Hg).
Qed.

Lemma UnlockPage_consistent (s s' : State) n :
  consistent s → UnlockPage n s = Returned s' → consistent s'.
Proof.
  intros [Hd Hb]. unfold PhysMem.UnlockPage, ASSERT.
  case_bool_decide; [cbn|done].
  destruct (frame s n) as [f|] eqn:Hf; [cbn|done].
  destruct (frame_Returned _ _ _ Hf) as [Hn Hl].
  destruct (locked f) eqn:Hlk; [|by cbn].
  destruct (free f) eqn:Hfr; [by cbn|]. cbn.
  intros [= <-]. split.
  - by apply (frames_disjoint_heap s).
  - by apply (backrefs_store_same s n f).
Qed.

(** What [FreePhysicalPage] does on a frame whose back reference names a
    valid entry. *)

Lemma FreePhysicalPage_mapped (s : State) n f o a t e :
  frame s n = Returned f → free f = false →
  owner f = Some o → heap s !! o = Some a → translationTable a = Some t →
  entry t (virtualPage f) = Some e →
  FreePhysicalPage n s =
    Returned
      (set_free_page_list (n :: free_page_list s)
         (set_heap
            (<[o := {| translationTable :=
                         Some (<[Z.to_nat (virtualPage f) := with_valid false e]> t) |}]>
               (heap s))
            (store_frame n
               {| free := true; locked := false;
                  virtualPage := virtualPage f; owner := owner f |} s))).
Proof.
  intros Hf Hfree Ho Ha Ht He. unfold PhysMem.FreePhysicalPage.
  rewrite Hf. cbn. rewrite Hfree. cbn. rewrite Ho, Ha, Ht.
  unfold clearBitValid. rewrite (update_entry _ _ _ _ He). reflexivity.
Qed.

(** The mappings after a valid bit has been cleared: all the former ones
    but the cleared one. *)

Lemma maps_to_after_clear (s s' : State) o a t e v o' v' f' :
  heap s !! o = Some a → translationTable a = Some t →
  entry t v = Some e →
  heap s' = <[o := {| translationTable :=
                        Some (<[Z.to_nat v := with_valid false e]> t) |}]>
              (heap s) →
  maps_to s' o' v' f' ↔ maps_to s o' v' f' ∧ ¬ (o' = o ∧ v' = v).
Proof.
  intros Ha Ht He Hh. pose proof (entry_range _ _ _ He) as Hr.
  unfold maps_to. rewrite Hh. split.
  - intros (a1 & t1 & e1 & Ha1 & Ht1 & He1 & Hv1 & Hp1).
    destruct (decide (o' = o)) as [->|Hno].
    + rewrite lookup_insert_eq in Ha1. injection Ha1 as <-.
      cbn in Ht1. injection Ht1 as <-.
      destruct (decide (v' = v)) as [->|Hnv].
      * rewrite (entry_insert_eq _ _ _ _ He) in He1.
        injection He1 as <-. done.
      * rewrite entry_insert_ne in He1 by lia.
        split; [|by intros [_ ?]]. by exists a, t, e1.
    + rewrite lookup_insert_ne in Ha1 by done.
      split; [|by intros [? _]]. by exists a1, t1, e1.
  - intros [(a1 & t1 & e1 & Ha1 & Ht1 & He1 & Hv1 & Hp1) Hne].
    destruct (decide (o' = o)) as [->|Hno].
    + rewrite Ha in Ha1. injection Ha1 as <-.
      rewrite Ht in Ht1. injection Ht1 as <-.
      assert (v' ≠ v) by (intros ->; by apply Hne).
      eexists _, _, e1. rewrite lookup_insert_eq. split; [done|].
      split; [reflexivity|]. rewrite entry_insert_ne by lia. done.
    + exists a1, t1, e1. rewrite lookup_insert_ne by done. done.
Qed.

Lemma FreePhysicalPage_consistent (s s' : State) n :
  consistent s → FreePhysicalPage n s = Returned s' → consistent s'.
Proof.
  intros [Hd Hb] Hfree.
  destruct (frame s n) as [f|] eqn:Hf;
    [|by unfold PhysMem.FreePhysicalPage in Hfree; rewrite Hf in Hfree].
  destruct (frame_Returned _ _ _ Hf) as [Hn Hl].
  destruct (free f) eqn:Hff;
    [by unfold PhysMem.FreePhysicalPage in Hfree;
        rewrite Hf in Hfree; cbn in Hfree; rewrite Hff in Hfree|].
  destruct (Hb _ _ Hl Hff) as (o & Ho & Hm & Hu).
  rewrite Z2Nat.id in Hm, Hu by done.
  destruct Hm as (a & t & e & Ha & Ht & He & Hv & Hp).
  rewrite (FreePhysicalPage_mapped _ _ _ _ _ _ _ Hf Hff Ho Ha Ht He) in Hfree.
  injection Hfree as <-.
  set (s1 := set_free_page_list _ _).
  assert (∀ o' v' f', maps_to s1 o' v' f'
            ↔ maps_to s o' v' f' ∧ ¬ (o' = o ∧ v' = virtualPage f)) as Hmaps
    by (intros; by apply (maps_to_after_clear s s1 o a t e)).
  split.
  - intros o1 v1 o2 v2 g [H1 _]%Hmaps [H2 _]%Hmaps. by apply (Hd o1 v1 o2 v2 g).
  - intros k g Hk Hg. cbn in Hk.
    destruct (decide (k = Z.to_nat n)) as [->|Hne].
    { rewrite list_lookup_insert_eq in Hk by (by eapply lookup_lt_Some).
      by injection Hk as <-. }
    rewrite list_lookup_insert_ne in Hk by done.
    destruct (Hb _ _ Hk Hg) as (o' & Ho' & Hm' & Hu').
    exists o'. split; [done|]. split.
    + apply Hmaps. split; [done|]. intros [-> Hvp]. rewrite Hvp in Hm'.
      assert (Z.of_nat k = n) as Hkn.
      { apply (maps_to_functional s o (virtualPage f)); [done|].
        by exists a, t, e. }
      lia.
    + intros o'' v'' [H1 _]%Hmaps. by apply Hu'.
Qed.

(** On a consistent state [FreePhysicalPage] returns for every frame in use. *)

Lemma FreePhysicalPage_returns (s : State) n f :
  consistent s → frame s n = Returned f → free f = false →
  returns (FreePhysicalPage n s).
Proof.
  intros [Hd Hb] Hf Hff.
  destruct (frame_Returned _ _ _ Hf) as [Hn Hl].
  destruct (Hb _ _ Hl Hff) as (o & Ho & (a & t & e & Ha & Ht & He & _) & _).
  rewrite (FreePhysicalPage_mapped _ _ _ _ _ _ _ Hf Hff Ho Ha Ht He).
  by eexists.
Qed.

Lemma FindFreePage_heap (s s' : State) p :
  FindFreePage s = Returned (p, s') → heap s' = heap s.
Proof.
  unfold PhysMem.FindFreePage.
  destruct (free_page_list s) as [|page rest]; [by intros [= <- <-]|].
  destruct (frame _ page) as [f|]; [cbn|done].
  unfold ASSERT. destruct (free f); [cbn|done]. by intros [= <- <-].
Qed.

Lemma SetTPREntry_heap (s s' : State) pp v o l :
  SetTPREntry pp v o l s = Returned s' → heap s' = heap s.
Proof.
  unfold SetTPREntry. destruct (frame s pp) as [f|]; [cbn|done].
  by intros [= <-].
Qed.

(** [EvictPage] never returns. *)

Lemma EvictPage_exits (s : State) : EvictPage s = Stopped exit_ERROR.
Proof. reflexivity. Qed.

(** C4 (amended). On a state where no two (owner, virtual page) pairs map
    to the same frame and the back reference of every frame in use names
    the one valid entry that maps to it: [UnlockPage] and
    [FreePhysicalPage] lead to such a state again, and [FreePhysicalPage]
    does return on every frame in use; [EvictPage] never returns;
    [FindFreePage] and [SetTPREntry] leave every translation table as it
    is, so that no frame becomes shared, and leave it to their caller to
    make the back reference and the table agree. *)

Theorem physmem_keeps_consistent (s : State) :
  consistent s →
  (∀ n s', UnlockPage n s = Returned s' → consistent s')
  ∧ (∀ n s', FreePhysicalPage n s = Returned s' → consistent s')
  ∧ (∀ n f, frame s n = Returned f → free f = false →
       returns (FreePhysicalPage n s))
  ∧ ¬ returns (EvictPage s)
  ∧ (∀ p s', FindFreePage s = Returned (p, s') →
       frames_disjoint s' ∧ heap s' = heap s)
  ∧ (∀ pp v o l s', SetTPREntry pp v o l s = Returned s' →
       frames_disjoint s' ∧ heap s' = heap s).
Proof.
  intros Hc. split; [|split; [|split; [|split; [|split]]]].
  - intros n s'. by apply UnlockPage_consistent.
  - intros n s'. by apply FreePhysicalPage_consistent.
  - intros n f. by apply FreePhysicalPage_returns.
  - by intros [a Ha].
  - intros p s' Hf. pose proof (FindFreePage_heap _ _ _ Hf) as Hh.
    split; [|done]. apply (frames_disjoint_heap s); [done|apply Hc].
  - intros pp v o l s' Hs. pose proof (SetTPREntry_heap _ _ _ _ _ _ Hs) as Hh.
    split; [|done]. apply (frames_disjoint_heap s); [done|apply Hc].
Qed.

End PhysMem_facts.

(** *** Two frames in use, and the manager at boot *)

Lemma full_memory_maps o v f :
  PhysMem.maps_to Toy.full_memory o v f ↔
  o = 0%nat ∧ (v = 0 ∧ f = 0 ∨ v = 1 ∧ f = 1).
Proof.
  unfold PhysMem.maps_to, Toy.full_memory. cbn. split.
  - intros (a & t & e & Ha & Ht & He & Hv & Hp).
    apply lookup_singleton_Some in Ha as [<- <-].
    cbn in Ht. injection Ht as <-.
    split; [done|]. unfold entry in He. case_decide; [|done].
    destruct (Z.to_nat v) as [|[|k]] eqn:Hk; cbn in He.
    + injection He as <-. left. cbn in Hp. lia.
    + injection He as <-. right. cbn in Hp. lia.
    + done.
  - intros [-> [[-> ->]|[-> ->]]].
    + eexists _, _, (Toy.pte 0 true true true).
      rewrite lookup_singleton_eq. done.
    + eexists _, _, (Toy.pte 1 true true false).
      rewrite lookup_singleton_eq. done.
Qed.

Lemma full_memory_consistent : PhysMem.consistent Toy.full_memory.
Proof.
  split.
  - intros o1 v1 o2 v2 f H1%full_memory_maps H2%full_memory_maps. lia.
  - intros n f Hn Hf.
    destruct n as [|[|n]]; cbn in Hn; [| |done]; injection Hn as <-;
      exists 0%nat; (split; [done|]); split.
    + apply full_memory_maps. cbn. lia.
    + intros o' v' H%full_memory_maps. cbn in *. lia.
    + apply full_memory_maps. cbn. lia.
    + intros o' v' H%full_memory_maps. cbn in *. lia.
Qed.

Lemma physmem_keeps_consistent_witness :
  ∃ s', PhysMem.FreePhysicalPage 0 Toy.full_memory = Returned s'
        ∧ PhysMem.consistent s'.
Proof.
  destruct (physmem_keeps_consistent Toy.cfg (-1) Toy.full_memory
              full_memory_consistent) as (_ & Hfree & Hret & _).
  destruct (Hret 0 _ eq_refl eq_refl) as [s' Hs'].
  exists s'. split; [exact Hs'|]. exact (Hfree 0 s' Hs').
Defined.

(** Contract violations stop the simulator: unlocking a frame that is not
    locked, freeing a frame twice. *)

Example UnlockPage_not_locked :
  PhysMem.UnlockPage Toy.cfg 0 Toy.full_memory = Stopped assert_failed.
Proof. reflexivity. Qed.

Example FreePhysicalPage_twice :
  (s ← PhysMem.FreePhysicalPage 1 Toy.full_memory;
   PhysMem.FreePhysicalPage 1 s)
  = Stopped assert_failed.
Proof. reflexivity. Qed.

(** C4, as stated, fails on [FindFreePage]: at boot no frame is in use and
    no table exists, so the state is consistent; [FindFreePage] hands out
    frame 0, which is then in use with no owner and no entry mapping to
    it. *)

Lemma FindFreePage_breaks_consistency :
  PhysMem.consistent Toy.boot
  ∧ PhysMem.FindFreePage (-1) Toy.boot = Returned (0, Toy.boot_after_find)
  ∧ ¬ PhysMem.consistent Toy.boot_after_find.
Proof.
  split; [|split].
  - split.
    + intros o1 v1 o2 v2 f (a & t & e & Ha & _). by cbn in Ha.
    + intros n f Hn Hf. destruct n as [|n]; cbn in Hn; [|done].
      injection Hn as <-. done.
  - reflexivity.
  - intros [_ Hb].
    destruct (Hb 0%nat _ eq_refl eq_refl) as (o & Ho & _). done.
Qed.

(** Nor does [SetTPREntry] keep the state consistent by itself: told that
    frame 0 holds virtual page 1, it records so, while the table maps
    page 1 to frame 1. *)

Lemma SetTPREntry_breaks_consistency :
  ∃ s', PhysMem.SetTPREntry 0 1 (Some 0%nat) false Toy.full_memory
        = Returned s'
        ∧ ¬ PhysMem.consistent s'.
Proof.
  eexists. split; [reflexivity|]. intros [_ Hb].
  destruct (Hb 0%nat _ eq_refl eq_refl) as (o & Ho & Hm & _).
  cbn in Ho, Hm. injection Ho as <-.
  destruct Hm as (a & t & e & Ha & Ht & He & _ & Hp).
  cbn in Ha. apply lookup_singleton_Some in Ha as [_ <-].
  cbn in Ht. injection Ht as <-. cbn in He. injection He as <-.
  cbn in Hp. lia.
Qed.

(** C2. With both frames in use and neither locked, [EvictPage] does not
    hand out a frame: it leaves the simulator with [exit(ERROR)], as it
    does on every state. *)

Theorem EvictPage_not_implemented :
  PhysMem.all_occupied Toy.full_memory
  ∧ PhysMem.some_unlocked Toy.full_memory
  ∧ PhysMem.EvictPage Toy.full_memory = Stopped exit_ERROR
  ∧ ¬ returns (PhysMem.EvictPage Toy.full_memory).
Proof.
  split; [|split; [|split]].
  - intros n f Hn. destruct n as [|[|n]]; cbn in Hn; [| |done];
      by injection Hn as <-.
  - by eexists 0%nat, _.
  - reflexivity.
  - by intros [a Ha].
Qed.

(** ** The swap manager *)

Section Swap_facts.

Import Swap.

Context (g_cfg : Config) (NUM_SECTORS ERROR : Z).

Local Abbreviation PutPageSwap := (PutPageSwap g_cfg NUM_SECTORS ERROR).
Local Abbreviation GetPageSwap := (GetPageSwap g_cfg).
Local Abbreviation GetFreeSwapSector := (GetFreeSwapSector NUM_SECTORS ERROR).
Local Abbreviation WriteSector := (WriteSector g_cfg).
Local Abbreviation frame_bytes := (frame_bytes g_cfg).
Local Abbreviation in_memory := (in_memory g_cfg).
Local Abbreviation well_formed := (well_formed NUM_SECTORS).

Lemma Test_lookup (b : list bool) (i : nat) x :
  b !! i = Some x → Test b (Z.of_nat i) = Returned x.
Proof.
  intros H. unfold Test. rewrite decide_True by lia.
  by rewrite Nat2Z.id, H.
Qed.

(** The scan stops at the first clear bit and marks it. *)

Lemma scan_finds (b : list bool) (todo i k : nat) :
  (i ≤ k < i + todo)%nat →
  b !! k = Some false →
  (∀ j, (i ≤ j < k)%nat → b !! j = Some true) →
  scan ERROR b (Z.of_nat i) todo
  = Returned (to_uint64 (Z.of_nat k), <[k := true]> b).
Proof.
  revert i. induction todo as [|todo IH]; intros i Hik Hk Hlow; [lia|].
  cbn [scan]. destruct (decide (i = k)) as [->|Hne].
  - rewrite (Test_lookup _ _ _ Hk). cbn. unfold Mark.
    rewrite (Test_lookup _ _ _ Hk). cbn. by rewrite Nat2Z.id.
  - rewrite (Test_lookup b i true) by (apply Hlow; lia). cbn.
    replace (Z.of_nat i + 1) with (Z.of_nat (S i)) by lia.
    apply IH; [lia|done|]. intros j Hj. apply Hlow. lia.
Qed.

(** With no clear bit the scan runs to the end and leaves the bitmap. *)

Lemma scan_full (b : list bool) (todo i : nat) :
  (∀ j, (i ≤ j < i + todo)%nat → b !! j = Some true) →
  scan ERROR b (Z.of_nat i) todo = Returned (to_uint64 ERROR, b).
Proof.
  revert i. induction todo as [|todo IH]; intros i Hall; [done|].
  cbn [scan]. rewrite (Test_lookup b i true) by (apply Hall; lia). cbn.
  replace (Z.of_nat i + 1) with (Z.of_nat (S i)) by lia.
  apply IH. intros j Hj. apply Hall. lia.
Qed.

Lemma GetFreeSwapSector_finds (s : State) (k : nat) :
  well_formed s → first_clear (page_flags s) k →
  GetFreeSwapSector s
  = Returned (Z.of_nat k, set_page_flags (<[k := true]> (page_flags s)) s).
Proof.
  intros [Hlen Hmax] [Hk Hlow]. unfold Swap.GetFreeSwapSector.
  pose proof (lookup_lt_Some _ _ _ Hk) as Hlt.
  rewrite (scan_finds _ _ 0 k); [|lia|done|intros; apply Hlow; lia].
  cbn. rewrite to_uint64_small; [done|]. unfold INT_MAX in Hmax. lia.
Qed.

Lemma GetFreeSwapSector_full (s : State) :
  well_formed s → all_set (page_flags s) →
  GetFreeSwapSector s = Returned (to_uint64 ERROR, s).
Proof.
  intros [Hlen Hmax] Hall. unfold Swap.GetFreeSwapSector.
  rewrite (scan_full _ _ 0).
  - cbn. by destruct s.
  - intros j Hj.
    destruct (lookup_lt_is_Some_2 (page_flags s) j ltac:(lia)) as [x Hx].
    by rewrite Hx, (Hall _ _ Hx).
Qed.

Lemma WriteSector_in_memory (s : State) sector pp :
  in_memory (mainMemory s) pp →
  WriteSector sector pp s
  = Returned (set_swap_disk
                (<[sector := frame_bytes (mainMemory s) pp]> (swap_disk s)) s).
Proof. intros H. unfold Swap.WriteSector. by rewrite decide_True. Qed.

Lemma length_frame_bytes (mem : list byte) pp :
  in_memory mem pp →
  length (frame_bytes mem pp) = Z.to_nat (PageSize g_cfg).
Proof.
  intros (Hpp & Hps & Hlen). unfold Swap.frame_bytes.
  rewrite length_take_le; [done|]. rewrite length_drop. nia.
Qed.

(** Reading a sector into a frame puts the bytes of the sector there. *)

Lemma ReadSector_frame_bytes (s s' : State) sector pp :
  ReadSector g_cfg sector pp s = Returned s' →
  frame_bytes (mainMemory s') pp = sector_bytes g_cfg (swap_disk s) sector
  ∧ length (mainMemory s') = length (mainMemory s)
  ∧ swap_disk s' = swap_disk s ∧ page_flags s' = page_flags s.
Proof.
  unfold ReadSector. case_decide as Hin; [|done]. intros [= <-]. cbn.
  destruct Hin as (Hpp & Hps & Hlen).
  assert (length (take (Z.to_nat (pp * PageSize g_cfg)) (mainMemory s))
          = Z.to_nat (pp * PageSize g_cfg)) as Htake
    by (rewrite length_take_le; [done|nia]).
  assert (length (sector_bytes g_cfg (swap_disk s) sector)
          = Z.to_nat (PageSize g_cfg)) as Hsec
    by apply length_resize.
  split; [|split; [|done]].
  - unfold Swap.frame_bytes.
    rewrite drop_app_length' by done.
    by rewrite take_app_length'.
  - rewrite !length_app, Htake, Hsec, length_drop. nia.
Qed.

(** C8. [PutPageSwap] called with a sector that is not the sentinel writes
    the frame to that sector and returns the sector, leaving the bitmap
    alone; called with the sentinel it takes the lowest-indexed clear bit of
    the bitmap, sets it, writes the frame to that sector and returns its
    index; called with the sentinel when every bit is set it returns the
    sentinel and writes nothing (here [ERROR], which [GetFreeSwapSector]
    returns, and the sentinel are the same 64-bit value). *)

Theorem PutPageSwap_spec (s : State) (disk_addr pp : Z) :
  (disk_addr ≠ to_uint32 INVALID_SECTOR → in_memory (mainMemory s) pp →
     PutPageSwap disk_addr pp s
     = Returned (disk_addr,
                 set_swap_disk
                   (<[disk_addr := frame_bytes (mainMemory s) pp]> (swap_disk s))
                   s))
  ∧ (∀ k : nat,
       well_formed s → first_clear (page_flags s) k →
       in_memory (mainMemory s) pp →
       PutPageSwap (to_uint32 INVALID_SECTOR) pp s
       = Returned (Z.of_nat k,
                   set_swap_disk
                     (<[Z.of_nat k := frame_bytes (mainMemory s) pp]>
                        (swap_disk s))
                     (set_page_flags (<[k := true]> (page_flags s)) s)))
  ∧ (well_formed s → all_set (page_flags s) →
     to_uint64 ERROR = to_uint64 INVALID_SECTOR →
       PutPageSwap (to_uint32 INVALID_SECTOR) pp s
       = Returned (to_uint64 INVALID_SECTOR, s)).
Proof.
  split; [|split].
  - intros Hne Hin. unfold Swap.PutPageSwap.
    rewrite decide_True by done.
    by rewrite (WriteSector_in_memory _ _ _ Hin).
  - intros k Hwf Hk Hin. unfold Swap.PutPageSwap.
    rewrite decide_False by (by intros H; apply H).
    rewrite (GetFreeSwapSector_finds _ _ Hwf Hk). cbn.
    destruct Hwf as [Hlen Hmax]. destruct Hk as [Hk _].
    pose proof (lookup_lt_Some _ _ _ Hk) as Hlt.
    rewrite decide_False.
    + by rewrite WriteSector_in_memory.
    + unfold INT_MAX in Hmax. vm_compute to_uint64. lia.
  - intros Hwf Hall Herr. unfold Swap.PutPageSwap.
    rewrite decide_False by (by intros H; apply H).
    rewrite (GetFreeSwapSector_full _ Hwf Hall). cbn.
    by rewrite decide_True.
Qed.

(** C9. A frame written with [PutPageSwap] to a newly allocated sector and
    read back from that sector with [GetPageSwap] into any frame, whatever
    the memory holds by then, is found there byte for byte. *)

Theorem swap_round_trip (s : State) (pp pp' : Z) (k : nat) (mem' : list byte) :
  well_formed s →
  first_clear (page_flags s) k →
  in_memory (mainMemory s) pp →
  in_memory mem' pp' →
  ∃ s1 s2,
    PutPageSwap (to_uint32 INVALID_SECTOR) pp s = Returned (Z.of_nat k, s1)
    ∧ GetPageSwap (to_uint32 (Z.of_nat k)) pp' (set_mainMemory mem' s1)
      = Returned s2
    ∧ frame_bytes (mainMemory s2) pp' = frame_bytes (mainMemory s) pp
    ∧ length (mainMemory s2) = length mem'.
Proof.
  intros Hwf Hk Hin Hin'.
  destruct (PutPageSwap_spec s (to_uint32 INVALID_SECTOR) pp)
    as (_ & Hput & _).
  rewrite (Hput k Hwf Hk Hin).
  set (s1 := set_swap_disk _ _).
  assert (∃ s2, GetPageSwap (to_uint32 (Z.of_nat k)) pp' (set_mainMemory mem' s1)
                = Returned s2) as [s2 Hs2].
  { unfold Swap.GetPageSwap, ReadSector. rewrite decide_True by done.
    by eexists. }
  exists s1, s2. split; [done|]. split; [done|].
  destruct (ReadSector_frame_bytes _ _ _ _ Hs2) as (Hbytes & Hlen & _).
  cbn in Hbytes, Hlen. split; [|exact Hlen].
  rewrite Hbytes. unfold sector_bytes.
  destruct Hwf as [Hl Hmax]. destruct Hk as [Hk _].
  pose proof (lookup_lt_Some _ _ _ Hk) as Hlt.
  rewrite to_uint32_small by (unfold INT_MAX in Hmax; lia).
  rewrite lookup_insert_eq. cbn.
  apply resize_all_alt. by rewrite length_frame_bytes.
Qed.

End Swap_facts.

(** *** Three sectors, pages of four bytes *)

Lemma Toy_swap_well_formed b :
  length b = 3%nat → Swap.well_formed 3 (Toy.swap b).
Proof. intros H. unfold Swap.well_formed, INT_MAX. cbn. rewrite H. lia. Qed.

Lemma Toy_first_clear : Swap.first_clear [true; false; true] 1.
Proof.
  split; [reflexivity|]. intros j Hj. destruct j as [|j]; [reflexivity|lia].
Qed.

Lemma Toy_all_set : Swap.all_set [true; true; true].
Proof.
  intros j x. destruct j as [|[|[|j]]]; cbn; intros [= <-] || intros [=];
    reflexivity.
Qed.

Lemma Toy_in_memory pp : 0 ≤ pp < 2 → Swap.in_memory Toy.tiny Toy.memory pp.
Proof. unfold Swap.in_memory. cbn. lia. Qed.

(** Frame 1 holds bytes 5 to 8.  Written to sector 2 on request; to sector
    1, the lowest clear one, when no sector is given; not at all when the
    swap area is full. *)

Lemma PutPageSwap_spec_witness :
  Swap.PutPageSwap Toy.tiny 3 (-1) 2 1 (Toy.swap [true; false; true])
  = Returned (2, Swap.set_swap_disk {[ 2 := [x05; x06; x07; x08] ]}
                   (Toy.swap [true; false; true]))
  ∧ Swap.PutPageSwap Toy.tiny 3 (-1) (to_uint32 Swap.INVALID_SECTOR) 1
      (Toy.swap [true; false; true])
    = Returned (1, Swap.set_swap_disk {[ 1 := [x05; x06; x07; x08] ]}
                     (Toy.swap [true; true; true]))
  ∧ Swap.PutPageSwap Toy.tiny 3 (-1) (to_uint32 Swap.INVALID_SECTOR) 1
      (Toy.swap [true; true; true])
    = Returned (to_uint64 Swap.INVALID_SECTOR, Toy.swap [true; true; true]).
Proof.
  split; [|split].
  - apply (proj1 (PutPageSwap_spec Toy.tiny 3 (-1)
                    (Toy.swap [true; false; true]) 2 1)).
    + vm_compute. discriminate.
    + apply Toy_in_memory. lia.
  - apply (proj1 (proj2 (PutPageSwap_spec Toy.tiny 3 (-1)
                           (Toy.swap [true; false; true])
                           (to_uint32 Swap.INVALID_SECTOR) 1)) 1%nat).
    + exact (Toy_swap_well_formed [true; false; true] eq_refl).
    + exact Toy_first_clear.
    + apply Toy_in_memory. lia.
  - apply (proj2 (proj2 (PutPageSwap_spec Toy.tiny 3 (-1)
                           (Toy.swap [true; true; true])
                           (to_uint32 Swap.INVALID_SECTOR) 1))).
    + exact (Toy_swap_well_formed [true; true; true] eq_refl).
    + exact Toy_all_set.
    + reflexivity.
Defined.

(** Frame 1 goes out to sector 1 and comes back into frame 0 of a memory
    that has been wiped in between. *)

Lemma swap_round_trip_witness :
  ∃ s1 s2,
    Swap.PutPageSwap Toy.tiny 3 (-1) (to_uint32 Swap.INVALID_SECTOR) 1
      (Toy.swap [true; false; true])
    = Returned (1, s1)
    ∧ Swap.GetPageSwap Toy.tiny 1 0
        (Swap.set_mainMemory (replicate 8 x00) s1)
      = Returned s2
    ∧ Swap.frame_bytes Toy.tiny (Swap.mainMemory s2) 0 = [x05; x06; x07; x08]
    ∧ length (Swap.mainMemory s2) = 8%nat.
Proof.
  apply (swap_round_trip Toy.tiny 3 (-1) (Toy.swap [true; false; true])
           1 0 1%nat (replicate 8 x00)).
  - exact (Toy_swap_well_formed [true; false; true] eq_refl).
  - exact Toy_first_clear.
  - apply Toy_in_memory. lia.
  - unfold Swap.in_memory. cbn. lia.
Defined.

(** ** Lists *)

Section List_facts.

Import List.

Lemma insert_behind_split element ptr behind :
  ∃ l1 l2,
    ptr :: behind = l1 ++ l2
    ∧ insert_behind element ptr behind = l1 ++ element :: l2
    ∧ l1 ≠ []
    ∧ (∀ e, e ∈ tail l1 → key e ≤ key element)
    ∧ (∀ e, head l2 = Some e → key element < key e).
Proof.
  revert ptr. induction behind as [|next behind IH]; intros ptr.
  - exists [ptr], []. cbn. repeat split; try done.
    intros e He. by apply elem_of_nil in He.
  - cbn. case_bool_decide as Hlt.
    + exists [ptr], (next :: behind). cbn. repeat split; try done.
      * intros e He. by apply elem_of_nil in He.
      * by intros e [= <-].
    + destruct (IH next) as (l1 & l2 & Hsplit & Hins & Hne & Hle & Hgt).
      exists (ptr :: l1), l2. cbn. rewrite Hsplit, Hins.
      repeat split; try done.
      intros e He. destruct l1 as [|x l1]; [done|].
      injection Hsplit as <- Hsplit. cbn in Hle.
      apply elem_of_cons in He as [->|He]; [lia|by apply Hle].
Qed.

(** Where [SortedInsert] puts the new element. *)

Lemma SortedInsert_split (it sortKey : Z) (l : list ListElement) :
  ∃ l1 l2,
    l = l1 ++ l2
    ∧ SortedInsert it sortKey l
      = l1 ++ {| key := sortKey; item := it |} :: l2
    ∧ (∀ e, e ∈ l1 → key e ≤ sortKey)
    ∧ (∀ e, head l2 = Some e → sortKey < key e).
Proof.
  destruct l as [|first behind].
  - exists [], []. cbn. repeat split; try done.
    intros e He. by apply elem_of_nil in He.
  - cbn. case_bool_decide as Hlt.
    + exists [], (first :: behind). cbn. repeat split; try done.
      * intros e He. by apply elem_of_nil in He.
      * by intros e [= <-].
    + destruct (insert_behind_split {| key := sortKey; item := it |}
                  first behind)
        as (l1 & l2 & Hsplit & Hins & Hne & Hle & Hgt).
      exists l1, l2. repeat split; try done.
      intros e He. destruct l1 as [|x l1]; [done|].
      injection Hsplit as <- Hsplit. cbn in Hle.
      apply elem_of_cons in He as [->|He]; [lia|by apply Hle].
Qed.

(** X1. [SortedInsert] puts the new element at the index [n] such that
    the [n] elements in front of it have a key that is not greater than the
    new key and the element that was at [n], if any, has a greater key;
    the elements of the list keep their order. *)

Theorem SortedInsert_position (it sortKey : Z) (l : list ListElement) :
  ∃ n : nat,
    (n ≤ length l)%nat
    ∧ SortedInsert it sortKey l
      = take n l ++ {| key := sortKey; item := it |} :: drop n l
    ∧ (∀ (i : nat) e, (i < n)%nat → l !! i = Some e → key e ≤ sortKey)
    ∧ (∀ e, l !! n = Some e → sortKey < key e).
Proof.
  destruct (SortedInsert_split it sortKey l)
    as (l1 & l2 & -> & Hins & Hle & Hgt).
  exists (length l1). split; [rewrite length_app; lia|].
  split; [by rewrite take_app_length, drop_app_length|]. split.
  - intros i e Hi He. apply Hle.
    rewrite lookup_app_l in He by done.
    by eapply list_elem_of_lookup_2.
  - intros e He. apply Hgt.
    rewrite lookup_app_r, Nat.sub_diag in He by done.
    by destruct l2.
Qed.

Lemma insert_behind_cons element ptr behind :
  insert_behind element ptr behind
  = ptr :: SortedInsert (item element) (key element) behind.
Proof.
  destruct element as [k it]. destruct behind as [|next behind']; cbn;
    [done|]. by case_bool_decide.
Qed.

Lemma SortedInsert_keeps_sorted (it sortKey : Z) (l : list ListElement) :
  sorted l → sorted (SortedInsert it sortKey l).
Proof.
  destruct (SortedInsert_split it sortKey l)
    as (l1 & l2 & -> & -> & Hle & Hgt).
  unfold sorted. rewrite !StronglySorted_app.
  intros (H12 & H1 & H2). split; [|split; [done|]].
  - intros x1 x2 Hx1 [->|Hx2]%elem_of_cons; cbn; [by apply Hle|].
    by apply H12.
  - apply StronglySorted_cons. split; [|done].
    apply Forall_forall. intros x Hx. cbn.
    destruct l2 as [|y l2]; [by apply elem_of_nil in Hx|].
    specialize (Hgt y eq_refl).
    apply StronglySorted_cons in H2 as [Hy _].
    apply elem_of_cons in Hx as [->|Hx]; [lia|].
    rewrite Forall_forall in Hy. specialize (Hy x Hx). cbn in Hy. lia.
Qed.

(** X2. [SortedInsert] adds one element and takes none away, and the list
    is in increasing order by key afterwards exactly when it was so
    before. *)

Theorem SortedInsert_sorted (it sortKey : Z) (l : list ListElement) :
  SortedInsert it sortKey l ≡ₚ {| key := sortKey; item := it |} :: l
  ∧ (sorted l ↔ sorted (SortedInsert it sortKey l)).
Proof.
  split; [|split; [apply SortedInsert_keeps_sorted|]].
  - destruct (SortedInsert_split it sortKey l) as (l1 & l2 & -> & -> & _).
    by rewrite Permutation_middle.
  - destruct (SortedInsert_split it sortKey l) as (l1 & l2 & -> & -> & _).
    unfold sorted. rewrite !StronglySorted_app.
    intros (H12 & H1 & H2). split; [|split; [done|]].
    + intros x1 x2 Hx1 Hx2. apply H12; [done|]. by right.
    + by apply StronglySorted_cons in H2 as [_ H2].
Qed.

(** X3. On a list in increasing order, [SortedRemove] after [SortedInsert]
    gives the element with the least key of all, the one that was first in
    the list unless the new key is smaller; what is left is in increasing
    order and holds every other element. *)

Theorem SortedRemove_least (it sortKey : Z) (l : list ListElement) :
  sorted l →
  ∃ e l',
    SortedRemove (SortedInsert it sortKey l) = (item e, Some (key e), l')
    ∧ e :: l' ≡ₚ {| key := sortKey; item := it |} :: l
    ∧ sorted l'
    ∧ (∀ x, x ∈ l' → key e ≤ key x)
    ∧ e = (match l with
           | first :: _ =>
               if bool_decide (sortKey < key first)
               then {| key := sortKey; item := it |} else first
           | [] => {| key := sortKey; item := it |}
           end).
Proof.
  intros Hs.
  pose proof (SortedInsert_keeps_sorted it sortKey l Hs) as Hsorted.
  assert (SortedInsert it sortKey l ≡ₚ {| key := sortKey; item := it |} :: l)
    as Hperm.
  { destruct (SortedInsert_split it sortKey l) as (l1 & l2 & -> & -> & _).
    by rewrite Permutation_middle. }
  assert (∃ e l', SortedInsert it sortKey l = e :: l'
                  ∧ e = (match l with
                         | first :: _ =>
                             if bool_decide (sortKey < key first)
                             then {| key := sortKey; item := it |} else first
                         | [] => {| key := sortKey; item := it |}
                         end)) as (e & l' & Heq & He).
  { destruct l as [|first behind]; [by eexists _, _|].
    cbn. case_bool_decide; [by eexists _, _|].
    rewrite insert_behind_cons. by eexists _, _. }
  exists e, l'. rewrite Heq in Hperm, Hsorted |- *.
  apply StronglySorted_cons in Hsorted as [Hall Hs'].
  rewrite Forall_forall in Hall. done.
Qed.

Lemma Search_from_elem_of element behind it :
  Search_from element behind it = true ↔ it ∈ items (element :: behind).
Proof.
  revert element. induction behind as [|next behind IH]; intros element; cbn.
  - rewrite bool_decide_eq_true, list_elem_of_singleton.
    split; congruence.
  - change (items (element :: next :: behind))
      with (item element :: items (next :: behind)).
    rewrite (elem_of_cons _ it (item element)).
    case_bool_decide as Hne.
    + rewrite IH. split; [by right|]. intros [Heq|Hin]; [congruence|done].
    + rewrite bool_decide_eq_true. split; [intros <-; by left|done].
Qed.

(** X4. [Search] answers true exactly when the item is on the list. *)

Theorem Search_elem_of (it : Z) (l : list ListElement) :
  Search it l = true ↔ it ∈ items l.
Proof.
  destruct l as [|first behind]; cbn.
  - split; [done|]. intros H. by apply elem_of_nil in H.
  - apply Search_from_elem_of.
Qed.

(** X5. When the item is on the list, [RemoveItem] ends after as many turns
    as there are elements up to its first occurrence; it takes that
    occurrence off and leaves the elements that were in front of it at the
    end of the list, with the key 0 that [Append] gives them. *)

Theorem RemoveItem_rotates (it : Z) (l : list ListElement) (i more : nat) :
  items l !! i = Some it →
  (∀ j, (j < i)%nat → items l !! j ≠ Some it) →
  RemoveItem (S i + more) it l
  = Some (drop (S i) l ++ (unkeyed <$> take i l)).
Proof.
  revert l. induction i as [|i IH]; intros l Hi Hfirst.
  - destruct l as [|e l]; [done|]. cbn in Hi. injection Hi as Hi.
    cbn. rewrite bool_decide_eq_false_2 by (intros H; by apply H).
    by rewrite drop_0, app_nil_r.
  - destruct l as [|e l]; [done|]. cbn in Hi.
    assert (item e ≠ it) as Hne.
    { intros Heq. apply (Hfirst 0%nat); [lia|]. cbn. by rewrite Heq. }
    change (S (S i) + more)%nat with (S (S i + more)).
    cbn [RemoveItem Remove SortedRemove].
    rewrite bool_decide_eq_true_2 by done.
    unfold Append. rewrite IH.
    + assert (i < length l)%nat as Hlen
        by (apply lookup_lt_Some in Hi; unfold items in Hi;
            by rewrite length_fmap in Hi).
      f_equal. cbn [drop take].
      rewrite drop_app_le, take_app_le by lia.
      by rewrite fmap_cons, <- app_assoc.
    + unfold items. rewrite fmap_app, lookup_app_l; [done|].
      by apply lookup_lt_Some in Hi.
    + intros j Hj. unfold items. rewrite fmap_app, lookup_app_l.
      * apply (Hfirst (S j)). lia.
      * apply lookup_lt_Some in Hi. lia.
Qed.

(** X6. When the item is not on the list, [RemoveItem] never ends: it
    keeps moving the first element to the end (on an empty list it keeps
    appending the [NULL] that [Remove] returns), unless the list is empty
    and the item is [NULL]. *)

Theorem RemoveItem_absent (it : Z) (l : list ListElement) (turns : nat) :
  it ∉ items l →
  l ≠ [] ∨ it ≠ NULL →
  RemoveItem turns it l = None.
Proof.
  revert l. induction turns as [|turns IH]; intros l Hnotin Hne; [done|].
  destruct l as [|e l]; cbn.
  - destruct Hne as [Hne|Hne]; [done|].
    rewrite bool_decide_eq_true_2 by (intros H; by apply Hne).
    apply IH.
    + unfold items. cbn. intros H%list_elem_of_singleton. by apply Hne.
    + by left.
  - assert (item e ≠ it) as Hit.
    { intros Heq. apply Hnotin. unfold items. cbn. rewrite Heq. by left. }
    rewrite bool_decide_eq_true_2 by done.
    apply IH.
    + unfold Append, items. rewrite fmap_app. cbn.
      intros [Hin|Hin%list_elem_of_singleton]%elem_of_app.
      * apply Hnotin. unfold items. cbn. by right.
      * by apply Hit.
    + left. unfold Append. by destruct l.
Qed.

(** X7. The destructor empties a list that holds no [NULL] item; on a
    list that does, it stops at the first one and leaves every element
    behind it chained. *)

Theorem destroy_stops_at_NULL (l : list ListElement) :
  ((∀ e, e ∈ l → item e ≠ NULL) → destroy l = [])
  ∧ (∀ l1 e l2,
       l = l1 ++ e :: l2 →
       (∀ x, x ∈ l1 → item x ≠ NULL) →
       item e = NULL →
       destroy l = l2).
Proof.
  split.
  - induction l as [|e l IH]; intros Hall; [done|]. cbn.
    rewrite bool_decide_eq_true_2 by (apply Hall; by left).
    apply IH. intros x Hx. apply Hall. by right.
  - intros l1. revert l. induction l1 as [|x l1 IH]; intros l e l2 -> Hall He.
    + cbn. by rewrite bool_decide_eq_false_2 by (intros H; by apply H).
    + cbn. rewrite bool_decide_eq_true_2 by (apply Hall; by left).
      apply (IH _ e l2 eq_refl); [|done].
      intros y Hy. apply Hall. by right.
Qed.

End List_facts.

(** *** The timer queue *)

Lemma Demo_queue_sorted : List.sorted Demo.queue.
Proof.
  unfold List.sorted, Demo.queue.
  repeat (apply StronglySorted_cons; split;
          [rewrite Forall_forall; intros x Hx;
           repeat (apply elem_of_cons in Hx as [->|Hx]; [cbn; lia|]);
           by apply elem_of_nil in Hx|]).
  constructor.
Qed.

(** An item due at time 5 goes behind the two that are already due then. *)

Lemma SortedInsert_sorted_witness :
  List.sorted (List.SortedInsert 14 5 Demo.queue)
  ∧ List.items (List.SortedInsert 14 5 Demo.queue) = [11; 12; 14; 13].
Proof.
  split; [|reflexivity].
  exact (proj1 (proj2 (SortedInsert_sorted 14 5 Demo.queue))
           Demo_queue_sorted).
Defined.

Lemma SortedRemove_least_witness :
  ∃ e l',
    List.SortedRemove (List.SortedInsert 14 2 Demo.queue)
    = (List.item e, Some (List.key e), l')
    ∧ List.key e = 2
    ∧ ∀ x, x ∈ l' → List.key e ≤ List.key x.
Proof.
  destruct (SortedRemove_least 14 2 Demo.queue Demo_queue_sorted)
    as (e & l' & Hrem & _ & _ & Hleast & He).
  exists e, l'. split; [exact Hrem|]. split; [|exact Hleast].
  rewrite He. reflexivity.
Defined.

(** Taking item 13 off the queue leaves 11 and 12, without their times. *)

Lemma RemoveItem_rotates_witness :
  List.RemoveItem 3 13 Demo.queue
  = Some [ {| List.key := 0; List.item := 11 |};
           {| List.key := 0; List.item := 12 |} ].
Proof.
  apply (RemoveItem_rotates 13 Demo.queue 2 0).
  - reflexivity.
  - intros j Hj. destruct j as [|[|j]]; [discriminate|discriminate|lia].
Defined.

Lemma RemoveItem_absent_witness :
  List.RemoveItem 1000 99 Demo.queue = None.
Proof.
  apply (RemoveItem_absent 99 Demo.queue 1000).
  - unfold List.items, Demo.queue. cbn.
    rewrite !elem_of_cons, elem_of_nil. lia.
  - left. discriminate.
Defined.

(** ** The free page list *)

Section Free_list_facts.

Import PhysMem.

Context (g_cfg : Config) (INVALID_PAGE : Z).

Local Abbreviation UnlockPage := (UnlockPage g_cfg).
Local Abbreviation FindFreePage := (FindFreePage INVALID_PAGE).

Lemma frame_store_eq (s : State) n f f' :
  frame s n = Returned f → frame (store_frame n f' s) n = Returned f'.
Proof.
  intros [Hn Hl]%frame_Returned. unfold frame, store_frame. cbn.
  rewrite decide_True by done.
  by rewrite list_lookup_insert_eq by (by eapply lookup_lt_Some).
Qed.

Lemma frame_store_ne (s : State) n m f' :
  0 ≤ n → n ≠ m → frame (store_frame n f' s) m = frame s m.
Proof.
  intros Hn Hne. unfold frame, store_frame. cbn.
  case_decide; [|done]. by rewrite list_lookup_insert_ne by lia.
Qed.

(** What [FindFreePage] does when the first frame of the list is free. *)

Lemma FindFreePage_head (s : State) page rest f :
  free_page_list s = page :: rest →
  frame s page = Returned f → free f = true →
  FindFreePage s
  = Returned
      (page,
       store_frame page
         {| free := false; locked := locked f;
            virtualPage := virtualPage f; owner := owner f |}
         (set_free_page_list rest
            (set_stat (incrMemoryAccess (stat s)) s))).
Proof.
  intros Hl Hf Hfree. unfold PhysMem.FindFreePage. rewrite Hl.
  change (frame (set_free_page_list rest
                   (set_stat (incrMemoryAccess (stat s)) s)) page)
    with (frame s page).
  rewrite Hf. cbn. rewrite Hfree. reflexivity.
Qed.

Lemma frame_tpr (s s' : State) n : tpr s' = tpr s → frame s' n = frame s n.
Proof. unfold frame. by intros ->. Qed.

Lemma FindFreePage_inv (s s' : State) p :
  FindFreePage s = Returned (p, s') →
  (free_page_list s = [] ∧ p = to_uint64 INVALID_PAGE ∧ s' = s)
  ∨ ∃ rest f,
      free_page_list s = p :: rest
      ∧ frame s p = Returned f ∧ free f = true
      ∧ s' = store_frame p
               {| free := false; locked := locked f;
                  virtualPage := virtualPage f; owner := owner f |}
               (set_free_page_list rest
                  (set_stat (incrMemoryAccess (stat s)) s)).
Proof.
  unfold PhysMem.FindFreePage.
  destruct (free_page_list s) as [|page rest] eqn:Hl.
  - intros [= <- <-]. by left.
  - change (frame (set_free_page_list rest
                     (set_stat (incrMemoryAccess (stat s)) s)) page)
      with (frame s page).
    destruct (frame s page) as [f|] eqn:Hf; [cbn|done].
    destruct (free f) eqn:Hfree; [cbn|done].
    intros [= <- <-]. right. by exists rest, f.
Qed.

Lemma FreePhysicalPage_frames (s s' : State) n :
  FreePhysicalPage n s = Returned s' →
  ∃ f,
    frame s n = Returned f ∧ free f = false
    ∧ tpr s' = <[Z.to_nat n := {| free := true; locked := false;
                                  virtualPage := virtualPage f;
                                  owner := owner f |}]> (tpr s)
    ∧ free_page_list s' = n :: free_page_list s
    ∧ i_clock s' = i_clock s ∧ stat s' = stat s.
Proof.
  unfold PhysMem.FreePhysicalPage.
  destruct (frame s n) as [f|] eqn:Hf; [cbn|done].
  destruct (free f) eqn:Hfree; [done|cbn].
  destruct (owner f) as [o|] eqn:Ho; [|done].
  destruct (heap s !! o) as [a|]; [|done].
  destruct (translationTable a) as [t|].
  - destruct (clearBitValid t (virtualPage f)) as [t'|]; [cbn|done].
    intros [= <-]. exists f. cbn. by rewrite Ho.
  - cbn. intros [= <-]. exists f. cbn. by rewrite Ho.
Qed.

Lemma UnlockPage_inv (s s' : State) n :
  UnlockPage n s = Returned s' →
  n < NumPhysPages g_cfg
  ∧ ∃ f,
      frame s n = Returned f ∧ locked f = true ∧ free f = false
      ∧ s' = store_frame n
               {| free := free f; locked := false;
                  virtualPage := virtualPage f; owner := owner f |} s.
Proof.
  unfold PhysMem.UnlockPage, ASSERT.
  case_bool_decide as Hn; [cbn|done].
  destruct (frame s n) as [f|] eqn:Hf; [cbn|done].
  destruct (locked f) eqn:Hlk; [|by cbn].
  destruct (free f) eqn:Hfr; [by cbn|]. cbn.
  intros [= <-]. split; [done|]. exists f. by rewrite Hfr.
Qed.

Lemma SetTPREntry_inv (s s' : State) pp v o l :
  SetTPREntry pp v o l s = Returned s' →
  ∃ f, frame s pp = Returned f
       ∧ s' = store_frame pp
                {| free := free f; locked := l;
                   virtualPage := v; owner := o |} s.
Proof.
  unfold SetTPREntry. destruct (frame s pp) as [f|] eqn:Hf; [cbn|done].
  intros [= <-]. by exists f.
Qed.

(** Storing a frame with the same [free] bit keeps an exact list exact. *)

Lemma free_list_exact_store (s : State) n f f' :
  frame s n = Returned f → free f' = free f →
  free_list_exact s → free_list_exact (store_frame n f' s).
Proof.
  intros Hf Hfree [Hnd Hiff]. destruct (frame_Returned _ _ _ Hf) as [Hn _].
  split; [done|]. intros m. cbn. rewrite (Hiff m).
  destruct (decide (n = m)) as [<-|Hne].
  - rewrite (frame_store_eq _ _ _ _ Hf), Hf.
    split; intros (g & [= <-] & Hg); eexists; (split; [done|]); congruence.
  - by rewrite frame_store_ne.
Qed.

Lemma PhysicalMemManager_exact junk h p :
  free_list_exact (PhysicalMemManager g_cfg junk h p).
Proof.
  split.
  - cbn. apply NoDup_fmap; [intros x y; lia|]. apply NoDup_seq.
  - intros n. cbn. rewrite list_elem_of_fmap. unfold frame. cbn.
    split.
    + intros (k & -> & Hk%elem_of_seq).
      rewrite decide_True by lia. rewrite Nat2Z.id.
      rewrite lookup_replicate_2 by lia. by eexists.
    + intros (f & Hf & _). case_decide as Hn; [|done].
      destruct (replicate _ _ !! Z.to_nat n) eqn:Hl; [|done].
      apply lookup_replicate in Hl as [_ Hl].
      exists (Z.to_nat n). split; [lia|]. apply elem_of_seq. lia.
Qed.

(** X8. The constructor makes the free page list exact: it names each free
    frame once and no other frame; [FindFreePage], [FreePhysicalPage],
    [UnlockPage] and [SetTPREntry] keep it exact. *)

Theorem free_list_exact_kept :
  (∀ junk h p, free_list_exact (PhysicalMemManager g_cfg junk h p))
  ∧ ∀ s, free_list_exact s →
      (∀ p s', FindFreePage s = Returned (p, s') → free_list_exact s')
      ∧ (∀ n s', FreePhysicalPage n s = Returned s' → free_list_exact s')
      ∧ (∀ n s', UnlockPage n s = Returned s' → free_list_exact s')
      ∧ (∀ pp v o l s', SetTPREntry pp v o l s = Returned s' →
           free_list_exact s').
Proof.
  split; [apply PhysicalMemManager_exact|].
  intros s Hex. split; [|split; [|split]].
  - intros p s' [(_ & _ & ->)|(rest & f & Hl & Hf & Hfree & ->)]%FindFreePage_inv;
      [done|].
    destruct Hex as [Hnd Hiff]. rewrite Hl in Hnd, Hiff.
    apply NoDup_cons in Hnd as [Hnotin Hnd].
    destruct (frame_Returned _ _ _ Hf) as [Hp _].
    split; [done|]. intros m. cbn.
    destruct (decide (p = m)) as [<-|Hne].
    + rewrite (frame_store_eq _ p f) by done.
      split; [done|]. by intros (g & [= <-] & Hg).
    + rewrite frame_store_ne by done.
      change (frame (set_free_page_list rest
                       (set_stat (incrMemoryAccess (stat s)) s)) m)
        with (frame s m).
      rewrite <- (Hiff m), elem_of_cons. split; [by right|].
      by intros [->|].
  - intros n s' (f & Hf & Hfree & Htpr & Hl & _)%FreePhysicalPage_frames.
    destruct Hex as [Hnd Hiff].
    destruct (frame_Returned _ _ _ Hf) as [Hn Hlook].
    assert (∀ m, frame s' m
                 = frame (store_frame n
                            {| free := true; locked := false;
                               virtualPage := virtualPage f;
                               owner := owner f |} s) m) as Hframe
      by (intros m; by apply frame_tpr).
    split.
    + rewrite Hl. apply NoDup_cons. split; [|done].
      rewrite (Hiff n), Hf. intros (g & [= <-] & Hg). congruence.
    + intros m. rewrite Hl, Hframe, elem_of_cons.
      destruct (decide (n = m)) as [<-|Hne].
      * rewrite (frame_store_eq _ n f) by done.
        split; [by eexists|by left].
      * rewrite frame_store_ne by done. rewrite (Hiff m).
        split; [by intros [->|]|by right].
  - intros n s' (_ & f & Hf & _ & _ & ->)%UnlockPage_inv.
    by apply (free_list_exact_store s n f).
  - intros pp v o l s' (f & Hf & ->)%SetTPREntry_inv.
    by apply (free_list_exact_store s pp f).
Qed.

Lemma all_occupied_Forall (s : State) :
  all_occupied s ↔ Forall (λ f, free f = false) (tpr s).
Proof.
  rewrite Forall_lookup. unfold all_occupied. done.
Qed.

(** X9. With an exact free page list [FindFreePage] always returns: the
    value [INVALID_PAGE], leaving everything as it is, exactly when every
    frame is in use; otherwise a frame that was free, which is then in use
    while every other frame and every translation table is as before. *)

Theorem FindFreePage_exact (s : State) :
  free_list_exact s →
  (all_occupied s → FindFreePage s = Returned (to_uint64 INVALID_PAGE, s))
  ∧ (¬ all_occupied s →
       ∃ p f s',
         FindFreePage s = Returned (p, s')
         ∧ frame s p = Returned f ∧ free f = true
         ∧ frame s' p
           = Returned {| free := false; locked := locked f;
                         virtualPage := virtualPage f; owner := owner f |}
         ∧ (∀ m, m ≠ p → frame s' m = frame s m)
         ∧ heap s' = heap s).
Proof.
  intros [Hnd Hiff]. split.
  - intros Hocc. unfold PhysMem.FindFreePage.
    destruct (free_page_list s) as [|page rest] eqn:Hl; [done|].
    exfalso. destruct (proj1 (Hiff page)) as (f & Hf & Hfree); [by left|].
    destruct (frame_Returned _ _ _ Hf) as [_ Hlook].
    specialize (Hocc _ _ Hlook). congruence.
  - intros Hnot. rewrite all_occupied_Forall in Hnot.
    apply not_Forall_Exists in Hnot; [|intros f; apply _].
    apply Exists_exists in Hnot as (g & Hg & Hfree).
    apply list_elem_of_lookup in Hg as [k Hk].
    assert (Z.of_nat k ∈ free_page_list s) as Hin.
    { apply Hiff. exists g. cbn in Hfree.
      split; [|by destruct (free g)].
      unfold frame. rewrite decide_True by lia. by rewrite Nat2Z.id, Hk. }
    destruct (free_page_list s) as [|page rest] eqn:Hl;
      [by apply elem_of_nil in Hin|].
    destruct (proj1 (Hiff page)) as (f & Hf & Hff); [by left|].
    destruct (frame_Returned _ _ _ Hf) as [Hp _].
    eexists page, f, _. split; [by apply FindFreePage_head|].
    split; [done|]. split; [done|]. split; [|split; [|done]].
    + by apply (frame_store_eq _ page f).
    + intros m Hm. by rewrite frame_store_ne.
Qed.

(** X10. A frame released with [FreePhysicalPage] is the frame the next
    [FindFreePage] returns; it comes back in use and unlocked, still with
    the owner and virtual page recorded for its former use, and the free
    page list is as it was before the release. *)

Theorem FindFreePage_after_free (s s1 : State) n :
  FreePhysicalPage n s = Returned s1 →
  ∃ f s2,
    frame s n = Returned f
    ∧ FindFreePage s1 = Returned (n, s2)
    ∧ frame s2 n
      = Returned {| free := false; locked := false;
                    virtualPage := virtualPage f; owner := owner f |}
    ∧ free_page_list s2 = free_page_list s.
Proof.
  intros (f & Hf & Hfree & Htpr & Hl & _)%FreePhysicalPage_frames.
  destruct (frame_Returned _ _ _ Hf) as [Hn Hlook].
  assert (frame s1 n
          = Returned {| free := true; locked := false;
                        virtualPage := virtualPage f; owner := owner f |})
    as Hf1.
  { unfold frame. rewrite Htpr, decide_True by done.
    by rewrite list_lookup_insert_eq by (by eapply lookup_lt_Some). }
  eexists f, _. split; [done|].
  split; [by apply (FindFreePage_head s1 n (free_page_list s) _ Hl Hf1)|].
  split; [|done].
  eapply frame_store_eq. exact Hf1.
Qed.

(** X11. [UnlockPage] returns only for a frame inside the table that is
    locked and in use; it clears the lock and touches nothing else, and
    unlocking the same frame again fails the assertion. *)

Theorem UnlockPage_once (s s' : State) n :
  UnlockPage n s = Returned s' →
  (∃ f, frame s n = Returned f ∧ locked f = true ∧ free f = false
        ∧ frame s' n
          = Returned {| free := false; locked := false;
                        virtualPage := virtualPage f; owner := owner f |})
  ∧ n < NumPhysPages g_cfg
  ∧ (∀ m, m ≠ n → frame s' m = frame s m)
  ∧ free_page_list s' = free_page_list s ∧ heap s' = heap s
  ∧ UnlockPage n s' = Stopped assert_failed.
Proof.
  intros (Hn & f & Hf & Hlk & Hfr & ->)%UnlockPage_inv.
  destruct (frame_Returned _ _ _ Hf) as [Hn0 _].
  pose proof (frame_store_eq s n f
                {| free := free f; locked := false;
                   virtualPage := virtualPage f; owner := owner f |} Hf)
    as Hf'.
  split; [exists f; by rewrite <- Hfr at 3|].
  split; [done|]. split; [intros m Hm; by rewrite frame_store_ne|].
  split; [done|]. split; [done|].
  unfold PhysMem.UnlockPage, ASSERT.
  rewrite bool_decide_eq_true_2 by done. cbn.
  rewrite Hf'. reflexivity.
Qed.

(** X12. [FreePhysicalPage] returns only for a frame in use; afterwards
    the frame is free and unlocked, the entry of its owner for the virtual
    page it held is no longer valid (when the owner still has a table), and
    releasing the same frame again fails the assertion. *)

Theorem FreePhysicalPage_once (s s' : State) n :
  FreePhysicalPage n s = Returned s' →
  ∃ f o a,
    frame s n = Returned f ∧ free f = false
    ∧ frame s' n
      = Returned {| free := true; locked := false;
                    virtualPage := virtualPage f; owner := owner f |}
    ∧ owner f = Some o ∧ heap s !! o = Some a
    ∧ (∀ t, translationTable a = Some t →
         ∃ a' t' e,
           heap s' !! o = Some a' ∧ translationTable a' = Some t'
           ∧ entry t' (virtualPage f) = Some e ∧ valid e = false)
    ∧ (translationTable a = None → heap s' = heap s)
    ∧ FreePhysicalPage n s' = Stopped assert_failed.
Proof.
  intros Hfree.
  destruct (FreePhysicalPage_frames _ _ _ Hfree)
    as (f & Hf & Hff & Htpr & Hl & _).
  destruct (frame_Returned _ _ _ Hf) as [Hn Hlook].
  assert (frame s' n
          = Returned {| free := true; locked := false;
                        virtualPage := virtualPage f; owner := owner f |})
    as Hf'.
  { unfold frame. rewrite Htpr, decide_True by done.
    by rewrite list_lookup_insert_eq by (by eapply lookup_lt_Some). }
  unfold PhysMem.FreePhysicalPage in Hfree. rewrite Hf in Hfree.
  cbn in Hfree. rewrite Hff in Hfree. cbn in Hfree.
  destruct (owner f) as [o|] eqn:Ho; [|done].
  destruct (heap s !! o) as [a|] eqn:Ha; [|done].
  exists f, o, a. rewrite Ho.
  split; [done|]. split; [done|]. split; [done|].
  split; [done|]. split; [done|].
  split; [|split].
  - intros t Ht. rewrite Ht in Hfree. unfold clearBitValid, update in Hfree.
    destruct (entry t (virtualPage f)) as [e|] eqn:He; [|done].
    cbn in Hfree. injection Hfree as <-. cbn.
    eexists _, _, (with_valid false e). rewrite lookup_insert_eq.
    split; [done|]. split; [done|].
    split; [by apply (entry_insert_eq _ _ e)|done].
  - intros Ht. rewrite Ht in Hfree. cbn in Hfree. by injection Hfree as <-.
  - unfold PhysMem.FreePhysicalPage. rewrite Hf'. reflexivity.
Qed.

(** A run of [FindFreePage] on a list that names the free frames [a],
    [a + 1], ... in this order. *)

Lemma FindFreePages_seq (k a b : nat) (s : State) :
  free_page_list s = Z.of_nat <$> seq a b →
  (∀ j, (a ≤ j < a + b)%nat → ∃ f, tpr s !! j = Some f ∧ free f = true) →
  (k ≤ b)%nat →
  ∃ s',
    FindFreePages INVALID_PAGE k s = Returned (Z.of_nat <$> seq a k, s')
    ∧ free_page_list s' = Z.of_nat <$> seq (a + k) (b - k).
Proof.
  revert a b s. induction k as [|k IH]; intros a b s Hl Hfree Hk.
  - exists s. split; [done|]. by rewrite Nat.add_0_r, Nat.sub_0_r.
  - destruct b as [|b]; [lia|]. cbn in Hl.
    destruct (Hfree a ltac:(lia)) as (f & Hf & Hff).
    assert (frame s (Z.of_nat a) = Returned f) as Hfr
      by (unfold frame; rewrite decide_True by lia; by rewrite Nat2Z.id, Hf).
    cbn [FindFreePages].
    rewrite (FindFreePage_head _ _ _ _ Hl Hfr Hff). cbn.
    edestruct (IH (S a) b) as (s' & Hrun & Hl'); [| |lia|].
    3:{ rewrite Hrun. cbn. exists s'. split; [done|].
        rewrite Hl'. f_equal. f_equal; lia. }
    + done.
    + intros j Hj. cbn. rewrite Nat2Z.id.
      rewrite list_lookup_insert_ne by lia. apply Hfree. lia.
Qed.

(** X13. From the state the constructor builds, successive calls of
    [FindFreePage] return the frames 0, 1, 2, ... in this order, and after
    [NumPhysPages] calls the next one returns [INVALID_PAGE]. *)

Theorem boot_frames_in_order junk h p (k : nat) :
  (k ≤ Z.to_nat (NumPhysPages g_cfg))%nat →
  ∃ s',
    FindFreePages INVALID_PAGE k (PhysicalMemManager g_cfg junk h p)
    = Returned (Z.of_nat <$> seq 0 k, s')
    ∧ (k = Z.to_nat (NumPhysPages g_cfg) →
       FindFreePage s' = Returned (to_uint64 INVALID_PAGE, s')).
Proof.
  intros Hk.
  destruct (FindFreePages_seq k 0 (Z.to_nat (NumPhysPages g_cfg))
              (PhysicalMemManager g_cfg junk h p))
    as (s' & Hrun & Hl); [done| |done|].
  - intros j Hj. cbn. rewrite lookup_replicate_2 by lia. by eexists.
  - exists s'. split; [done|]. intros ->.
    rewrite Nat.sub_diag in Hl. cbn in Hl.
    unfold PhysMem.FindFreePage. by rewrite Hl.
Qed.

End Free_list_facts.

(** *** The page manager on small machines *)

Lemma full_memory_exact : free_list_exact Toy.full_memory.
Proof.
  split; [apply NoDup_nil_2|]. intros n. cbn. split.
  - intros H. by apply elem_of_nil in H.
  - intros (f & Hf & Hfree). unfold PhysMem.frame in Hf. cbn in Hf.
    case_decide; [|done].
    destruct (Z.to_nat n) as [|[|k]]; cbn in Hf; [| |done];
      injection Hf as <-; done.
Qed.

Lemma free_list_exact_kept_witness :
  ∃ s', PhysMem.FindFreePage (-1) Demo.boot4 = Returned (0, s')
        ∧ free_list_exact s'.
Proof.
  eexists. split; [reflexivity|].
  refine (proj1 (proj2 (free_list_exact_kept Toy.cfg (-1)) Demo.boot4
                   (PhysicalMemManager_exact Toy.cfg 0 ∅ _)) 0 _ _).
  reflexivity.
Defined.

Lemma FindFreePage_exact_witness :
  PhysMem.FindFreePage (-1) Toy.full_memory
  = Returned (to_uint64 (-1), Toy.full_memory).
Proof.
  apply (proj1 (FindFreePage_exact (-1) Toy.full_memory full_memory_exact)).
  intros n f Hn. destruct n as [|[|n]]; cbn in Hn; [| |done];
    by injection Hn as <-.
Defined.

Lemma FindFreePage_after_free_witness :
  ∃ s1 f s2,
    PhysMem.FreePhysicalPage 0 Toy.full_memory = Returned s1
    ∧ PhysMem.frame Toy.full_memory 0 = Returned f
    ∧ PhysMem.FindFreePage (-1) s1 = Returned (0, s2)
    ∧ PhysMem.free_page_list s2 = [].
Proof.
  destruct (FindFreePage_after_free (-1) Toy.full_memory _ 0 eq_refl)
    as (f & s2 & Hf & Hfind & _ & Hl).
  eexists _, f, s2. split; [reflexivity|]. split; [exact Hf|].
  split; [exact Hfind|exact Hl].
Defined.

Lemma boot_frames_in_order_witness :
  ∃ s',
    FindFreePages (-1) 4 Demo.boot4 = Returned ([0; 1; 2; 3], s')
    ∧ PhysMem.FindFreePage (-1) s' = Returned (to_uint64 (-1), s').
Proof.
  destruct (boot_frames_in_order Toy.cfg (-1) 0 ∅
              {| numMemoryAccess := 0; numPageFaults := 0 |} 4)
    as (s' & Hrun & Hend); [cbn; lia|].
  exists s'. split; [exact Hrun|exact (Hend eq_refl)].
Defined.

Lemma UnlockPage_once_witness :
  ∃ s', PhysMem.UnlockPage Toy.cfg 0 Demo.faulting = Returned s'
        ∧ PhysMem.UnlockPage Toy.cfg 0 s' = Stopped assert_failed.
Proof.
  eexists. split; [reflexivity|].
  refine (proj2 (proj2 (proj2 (proj2 (proj2
            (UnlockPage_once Toy.cfg Demo.faulting _ 0 _)))))).
  reflexivity.
Defined.

Lemma FreePhysicalPage_once_witness :
  ∃ s', PhysMem.FreePhysicalPage 1 Toy.full_memory = Returned s'
        ∧ PhysMem.FreePhysicalPage 1 s' = Stopped assert_failed.
Proof.
  eexists. split; [reflexivity|].
  destruct (FreePhysicalPage_once Toy.full_memory _ 1 eq_refl)
    as (f & o & a & _ & _ & _ & _ & _ & _ & _ & H).
  exact H.
Defined.

(** ** More on the swap manager *)

Section Swap_more.

Import Swap.

Context (g_cfg : Config) (NUM_SECTORS ERROR : Z).

Local Abbreviation PutPageSwap := (PutPageSwap g_cfg NUM_SECTORS ERROR).
Local Abbreviation GetPageSwap := (GetPageSwap g_cfg).
Local Abbreviation GetFreeSwapSector := (GetFreeSwapSector NUM_SECTORS ERROR).
Local Abbreviation frame_bytes := (frame_bytes g_cfg).
Local Abbreviation in_memory := (in_memory g_cfg).
Local Abbreviation well_formed := (well_formed NUM_SECTORS).

(** A bitmap has a lowest clear bit or none at all. *)

Lemma first_clear_or_all_set (b : list bool) :
  all_set b ∨ ∃ k, first_clear b k.
Proof.
  induction b as [|x b IH].
  - left. by intros j y.
  - destruct x.
    + destruct IH as [Hall|[k [Hk Hlow]]].
      * left. intros [|j] y; cbn; [by intros [= <-]|apply Hall].
      * right. exists (S k). split; [done|].
        intros [|j] Hj; [done|]. cbn. apply Hlow. lia.
    + right. exists 0%nat. split; [done|]. intros j Hj. lia.
Qed.

(** X14. On a bitmap with one bit per sector [GetFreeSwapSector] always
    returns: the lowest clear sector, whose bit it sets, or [ERROR] with
    the bitmap untouched when no bit is clear; the disk and the memory are
    not touched, and the bitmap still has one bit per sector. *)

Theorem GetFreeSwapSector_total (s : State) :
  well_formed s →
  ∃ sector s',
    GetFreeSwapSector s = Returned (sector, s')
    ∧ well_formed s'
    ∧ swap_disk s' = swap_disk s ∧ mainMemory s' = mainMemory s
    ∧ ((∃ k, first_clear (page_flags s) k ∧ sector = Z.of_nat k
             ∧ page_flags s' = <[k := true]> (page_flags s))
       ∨ (all_set (page_flags s) ∧ sector = to_uint64 ERROR ∧ s' = s)).
Proof.
  intros Hwf. destruct (first_clear_or_all_set (page_flags s)) as [Hall|[k Hk]].
  - exists (to_uint64 ERROR), s.
    split; [by apply GetFreeSwapSector_full|]. split; [done|].
    split; [done|]. split; [done|]. by right.
  - eexists _, _. split; [by apply GetFreeSwapSector_finds|].
    split; [|split; [done|split; [done|]]].
    + destruct Hwf as [Hlen Hmax]. split; [|done]. cbn.
      by rewrite length_insert.
    + left. by exists k.
Qed.

(** X15. A sector obtained from [GetFreeSwapSector] and given back with
    [ReleasePageSwap] leaves the swap manager as it was. *)

Theorem ReleasePageSwap_undoes (s : State) (k : nat) :
  well_formed s →
  first_clear (page_flags s) k →
  ∃ s1,
    GetFreeSwapSector s = Returned (Z.of_nat k, s1)
    ∧ ReleasePageSwap (to_uint32 (Z.of_nat k)) s1 = Returned s.
Proof.
  intros Hwf Hk. eexists. split; [by apply GetFreeSwapSector_finds|].
  destruct Hwf as [Hlen Hmax]. destruct Hk as [Hk Hlow].
  pose proof (lookup_lt_Some _ _ _ Hk) as Hlt.
  rewrite to_uint32_small by (unfold INT_MAX in Hmax; lia).
  unfold ReleasePageSwap, Clear. cbn.
  rewrite (Test_lookup _ k true)
    by (by rewrite list_lookup_insert_eq by done).
  cbn. rewrite Nat2Z.id, list_insert_insert_eq, list_insert_id by done.
  by destruct s.
Qed.

Lemma spliced_lookup (m block : list byte) (a n i : nat) :
  length block = n → (a + n ≤ length m)%nat →
  (i < a ∨ a + n ≤ i)%nat →
  (take a m ++ block ++ drop (a + n) m) !! i = m !! i.
Proof.
  intros Hb Hlen [Hi|Hi].
  - rewrite lookup_app_l by (rewrite length_take; lia).
    by rewrite lookup_take_lt.
  - rewrite lookup_app_r by (rewrite length_take; lia).
    rewrite length_take, Nat.min_l by lia.
    rewrite lookup_app_r by lia.
    rewrite lookup_drop. f_equal. lia.
Qed.

Lemma PutPageSwap_fresh (s : State) (pp : Z) (k : nat) :
  well_formed s → first_clear (page_flags s) k →
  in_memory (mainMemory s) pp →
  PutPageSwap (to_uint32 INVALID_SECTOR) pp s
  = Returned (Z.of_nat k,
              set_swap_disk
                (<[Z.of_nat k := frame_bytes (mainMemory s) pp]> (swap_disk s))
                (set_page_flags (<[k := true]> (page_flags s)) s)).
Proof.
  intros Hwf Hk Hin. unfold Swap.PutPageSwap.
  rewrite decide_False by (by intros H; apply H).
  rewrite (GetFreeSwapSector_finds _ _ _ _ Hwf Hk). cbn.
  destruct Hwf as [Hlen Hmax]. destruct Hk as [Hk _].
  pose proof (lookup_lt_Some _ _ _ Hk) as Hlt.
  rewrite decide_False.
  - by rewrite WriteSector_in_memory.
  - unfold INT_MAX in Hmax. vm_compute to_uint64. lia.
Qed.

(** X17. Two pages put into the swap area one after the other, each on a
    new sector, get different sectors, and the first page is still read
    back byte for byte after the second has been written. *)

Theorem swap_out_two (s : State) (pp1 pp2 pp' : Z) (k1 k2 : nat) :
  well_formed s →
  first_clear (page_flags s) k1 →
  first_clear (<[k1 := true]> (page_flags s)) k2 →
  in_memory (mainMemory s) pp1 →
  in_memory (mainMemory s) pp2 →
  in_memory (mainMemory s) pp' →
  ∃ s1 s2 s3,
    PutPageSwap (to_uint32 INVALID_SECTOR) pp1 s = Returned (Z.of_nat k1, s1)
    ∧ PutPageSwap (to_uint32 INVALID_SECTOR) pp2 s1 = Returned (Z.of_nat k2, s2)
    ∧ k1 ≠ k2
    ∧ GetPageSwap (to_uint32 (Z.of_nat k1)) pp' s2 = Returned s3
    ∧ frame_bytes (mainMemory s3) pp' = frame_bytes (mainMemory s) pp1.
Proof.
  intros Hwf Hk1 Hk2 Hin1 Hin2 Hin'.
  assert (k1 ≠ k2) as Hne.
  { intros <-. destruct Hk1 as [Hk1 _], Hk2 as [Hk2 _].
    rewrite list_lookup_insert_eq in Hk2 by (by eapply lookup_lt_Some).
    done. }
  pose proof (PutPageSwap_fresh s pp1 k1 Hwf Hk1 Hin1) as H1.
  set (s1 := set_swap_disk _ _) in H1.
  assert (well_formed s1) as Hwf1.
  { destruct Hwf as [Hlen Hmax]. split; [|done]. cbn.
    by rewrite length_insert. }
  pose proof (PutPageSwap_fresh s1 pp2 k2 Hwf1 Hk2 Hin2) as H2.
  set (s2 := set_swap_disk _ _) in H2.
  assert (∃ s3, GetPageSwap (to_uint32 (Z.of_nat k1)) pp' s2 = Returned s3)
    as [s3 Hs3].
  { unfold Swap.GetPageSwap, ReadSector. rewrite decide_True by done.
    by eexists. }
  exists s1, s2, s3. split; [done|]. split; [done|]. split; [done|].
  split; [done|].
  destruct (ReadSector_frame_bytes _ _ _ _ _ Hs3) as (Hbytes & _).
  rewrite Hbytes. unfold sector_bytes. cbn.
  destruct Hwf as [Hl Hmax]. destruct Hk1 as [Hk1 _].
  pose proof (lookup_lt_Some _ _ _ Hk1) as Hlt.
  rewrite to_uint32_small by (unfold INT_MAX in Hmax; lia).
  rewrite lookup_insert_ne by lia.
  rewrite lookup_insert_eq. cbn.
  apply resize_all_alt. by rewrite (length_frame_bytes g_cfg).
Qed.

End Swap_more.

(** *** Three sectors again *)

Lemma GetFreeSwapSector_total_witness :
  ∃ s', Swap.GetFreeSwapSector 3 (-1) (Toy.swap [true; false; true])
        = Returned (1, s')
        ∧ Swap.page_flags s' = [true; true; true].
Proof.
  destruct (GetFreeSwapSector_total 3 (-1) (Toy.swap [true; false; true])
              (Toy_swap_well_formed [true; false; true] eq_refl))
    as (sector & s' & Hget & _ & _ & _ & Hcases).
  exists s'.
  assert (Swap.GetFreeSwapSector 3 (-1) (Toy.swap [true; false; true])
          = Returned (1, Swap.set_page_flags [true; true; true]
                           (Toy.swap [true; false; true]))) as Hrun
    by reflexivity.
  rewrite Hrun in Hget. injection Hget as <- <-. split; [exact Hrun|done].
Defined.

Lemma ReleasePageSwap_undoes_witness :
  ∃ s1,
    Swap.GetFreeSwapSector 3 (-1) (Toy.swap [true; false; true])
    = Returned (1, s1)
    ∧ Swap.ReleasePageSwap 1 s1 = Returned (Toy.swap [true; false; true]).
Proof.
  exact (ReleasePageSwap_undoes 3 (-1) (Toy.swap [true; false; true]) 1
           (Toy_swap_well_formed [true; false; true] eq_refl)
           Toy_first_clear).
Defined.

Lemma Toy_second_clear :
  Swap.first_clear (<[1%nat := true]> [true; false; false]) 2.
Proof.
  split; [reflexivity|].
  intros j Hj. destruct j as [|[|j]]; [reflexivity|reflexivity|lia].
Qed.

Lemma Toy_first_clear' : Swap.first_clear [true; false; false] 1.
Proof.
  split; [reflexivity|]. intros j Hj. destruct j as [|j]; [reflexivity|lia].
Qed.

Lemma swap_out_two_witness :
  ∃ s1 s2 s3,
    Swap.PutPageSwap Toy.tiny 3 (-1) (to_uint32 Swap.INVALID_SECTOR) 0
      (Toy.swap [true; false; false]) = Returned (1, s1)
    ∧ Swap.PutPageSwap Toy.tiny 3 (-1) (to_uint32 Swap.INVALID_SECTOR) 1 s1
      = Returned (2, s2)
    ∧ 1%nat ≠ 2%nat
    ∧ Swap.GetPageSwap Toy.tiny 1 1 s2 = Returned s3
    ∧ Swap.frame_bytes Toy.tiny (Swap.mainMemory s3) 1 = [x01; x02; x03; x04].
Proof.
  apply (swap_out_two Toy.tiny 3 (-1) (Toy.swap [true; false; false])
           0 1 1 1 2).
  - exact (Toy_swap_well_formed [true; false; false] eq_refl).
  - exact Toy_first_clear'.
  - exact Toy_second_clear.
  - apply Toy_in_memory. lia.
  - apply Toy_in_memory. lia.
  - apply Toy_in_memory. lia.
Defined.

(** ** Reading and writing through the MMU *)

Lemma byte_value_of (z : Z) : Access.byte_value (Access.byte_of z) = z mod 256.
Proof.
  unfold Access.byte_value, Access.byte_of.
  pose proof (Z.mod_pos_bound z 256 ltac:(lia)) as Hb.
  destruct (Byte.of_N (Z.to_N (z mod 256))) as [b|] eqn:Hof.
  - cbn. apply Byte.to_of_N in Hof. rewrite Hof. lia.
  - apply Byte.of_N_None_iff in Hof. lia.
Qed.

Lemma length_le_bytes (n : nat) (v : Z) : length (Access.le_bytes n v) = n.
Proof. revert v. induction n as [|n IH]; intros v; cbn; [done|]. by rewrite IH. Qed.

Lemma le_value_bytes (n : nat) (v : Z) :
  Access.le_value (Access.le_bytes n v) = v mod 256 ^ Z.of_nat n.
Proof.
  revert v. induction n as [|n IH]; intros v.
  - cbn. by rewrite Z.mod_1_r.
  - cbn [Access.le_bytes Access.le_value]. rewrite byte_value_of, IH.
    rewrite Nat2Z.inj_succ, Z.pow_succ_r by lia.
    rewrite Z.rem_mul_r by lia. reflexivity.
Qed.

Lemma bytes_at_store (mem mem' bs : list byte) (p : Z) :
  Access.store_bytes mem p bs = Some mem' →
  Access.bytes_at mem' p (length bs) = Some bs
  ∧ length mem' = length mem
  ∧ ∀ i : nat, Z.of_nat i < p ∨ p + Z.of_nat (length bs) ≤ Z.of_nat i →
               mem' !! i = mem !! i.
Proof.
  unfold Access.store_bytes, Access.bytes_at.
  case_decide as Hin; [|done]. intros [= <-].
  assert (length (take (Z.to_nat p) mem) = Z.to_nat p) as Htake
    by (rewrite length_take; lia).
  assert (length (take (Z.to_nat p) mem ++ bs
                  ++ drop (Z.to_nat p + length bs) mem) = length mem) as Hlen
    by (rewrite !length_app, Htake, length_drop; lia).
  split; [|split; [done|]].
  - rewrite decide_True by (rewrite Hlen; lia).
    rewrite drop_app_length' by done. by rewrite take_app_length.
  - intros i Hi. apply spliced_lookup; [done|lia|lia].
Qed.

Section Access_facts.

Import Access.

Context {K : Type} (g_cfg : Config).
Context (PageFault : Z → Machine (WithMemory K)
                     → Outcome (ExceptionType * Machine (WithMemory K))).
Context (SystemCall : Machine (WithMemory K)
                      → Outcome (Machine (WithMemory K))).
Context (host_endianess : Z) (signed_memory : bool).

Local Abbreviation Translate := (Translate g_cfg PageFault SystemCall).
Local Abbreviation access_translation :=
  (access_translation g_cfg PageFault SystemCall).
Local Abbreviation Raise := (RaiseException g_cfg PageFault SystemCall).
Local Abbreviation ReadMem :=
  (ReadMem g_cfg PageFault SystemCall host_endianess signed_memory).
Local Abbreviation WriteMem :=
  (WriteMem g_cfg PageFault SystemCall host_endianess).
Local Abbreviation host_value := (host_value host_endianess).
Local Abbreviation host_bytes := (host_bytes host_endianess).
Local Abbreviation read_value := (read_value host_endianess signed_memory).
Local Abbreviation vpn_of va := (to_int32 (va / PageSize g_cfg)).
Local Abbreviation offset_of va := (to_int32 (va mod PageSize g_cfg)).

Lemma host_value_bytes (n : nat) (v : Z) :
  host_value (host_bytes n v) = v mod 256 ^ Z.of_nat n.
Proof.
  unfold Access.host_value, Access.host_bytes. case_decide.
  - apply le_value_bytes.
  - rewrite reverse_involutive. apply le_value_bytes.
Qed.

Lemma length_host_bytes (n : nat) (v : Z) : length (host_bytes n v) = n.
Proof.
  unfold Access.host_bytes. case_decide; [|rewrite length_reverse];
    apply length_le_bytes.
Qed.

(** The exceptions [Translate] returns, and when it stores an address. *)

Lemma Translate_exceptions va size writing (m m' : Machine (WithMemory K))
    exc p :
  Translate va size writing m = Returned (exc, p, m') →
  (exc = NO_EXCEPTION ∧ is_Some p)
  ∨ (p = None
     ∧ (exc = BUSERROR_EXCEPTION ∨ exc = ADDRESSERROR_EXCEPTION
        ∨ exc = READONLY_EXCEPTION)).
Proof.
  unfold Translate.
  destruct (alignment_error va size); [intros [= <- <- <-]; right; auto|].
  case_decide; [done|].
  case_bool_decide; [intros [= <- <- <-]; right; auto|].
  unfold getBitReadAllowed, getBitWriteAllowed, get.
  destruct (entry (translationTable m) (vpn_of va)) as [e|]; [|done]. cbn.
  destruct (negb (readAllowed e) && negb (writeAllowed e));
    [intros [= <- <- <-]; right; auto|].
  destruct (writing && negb (writeAllowed e));
    [intros [= <- <- <-]; right; auto|].
  destruct (make_resident _ _ _ va (vpn_of va) m) as [m1|] eqn:Hm; [|done].
  cbn. destruct (make_resident_returns _ _ _ _ _ _ _ Hm) as (e1 & He1 & Hv1).
  destruct (decide (0 ≤ physicalPage e1 < to_int32 (NumPhysPages g_cfg)))
    as [Hb|Hb].
  - rewrite (resolve_in_bounds _ _ _ _ _ _ He1 Hb).
    intros [= <- <- <-]. left. eauto.
  - rewrite (resolve_out_of_bounds _ _ _ _ _ _ He1 Hb).
    intros [= <- <- <-]. right. auto.
Qed.

Lemma Raise_fatal exc va (m : Machine (WithMemory K)) :
  exc = BUSERROR_EXCEPTION ∨ exc = ADDRESSERROR_EXCEPTION
  ∨ exc = READONLY_EXCEPTION →
  Raise exc va m = Stopped halt_ERROR.
Proof. by intros [->|[->| ->]]. Qed.

Lemma access_translation_inv a size writing (m m2 : Machine (WithMemory K))
    exc p :
  access_translation a size writing m = Returned (exc, p, m2) →
  (exc = NO_EXCEPTION ∧ is_Some p)
  ∨ (p = None
     ∧ (exc = BUSERROR_EXCEPTION ∨ exc = ADDRESSERROR_EXCEPTION
        ∨ exc = READONLY_EXCEPTION)).
Proof.
  unfold access_translation.
  destruct (Translate _ _ _ _) as [[[exc1 p1] m1]|] eqn:H1; [cbn|done].
  destruct (Translate _ _ _ m1) as [[[exc2 p2] m2']|]; [cbn|done].
  destruct (if decide (exc1 = NO_EXCEPTION) then _ else _); [cbn|done].
  intros [= <- <- <-]. by apply Translate_exceptions in H1.
Qed.

(** X18. [ReadMem] and [WriteMem] never return false: when the translation
    ends in an exception the handler halts the machine, so that a caller
    that ignores the result never goes on with a value that was not read;
    when they return, [ReadMem] has stored a value. *)

Theorem access_never_false a size value (m : Machine (WithMemory K)) :
  (∀ b v m', ReadMem a size m = Returned (b, v, m') → b = true ∧ is_Some v)
  ∧ (∀ b m', WriteMem a size value m = Returned (b, m') → b = true).
Proof.
  split.
  - intros b v m'. unfold Access.ReadMem.
    destruct (access_translation a size false m) as [[[exc p] m2]|] eqn:Ha;
      [cbn|done].
    destruct (access_translation_inv _ _ _ _ _ _ _ Ha) as [[-> _]|[_ Hexc]].
    + rewrite decide_False by (by intros H).
      destruct (access_size size); [|done].
      destruct (p ≫= _); [|done]. intros [= <- <- <-]. eauto.
    + rewrite decide_True by (by destruct Hexc as [->|[->| ->]]).
      by rewrite (Raise_fatal _ _ _ Hexc).
  - intros b m'. unfold Access.WriteMem.
    destruct (access_translation a size true m) as [[[exc p] m2]|] eqn:Ha;
      [cbn|done].
    destruct (access_translation_inv _ _ _ _ _ _ _ Ha) as [[-> _]|[_ Hexc]].
    + rewrite decide_False by (by intros H).
      destruct (access_size size); [|done].
      destruct (p ≫= _); [|done]. by intros [= <- <-].
    + rewrite decide_True by (by destruct Hexc as [->|[->| ->]]).
      by rewrite (Raise_fatal _ _ _ Hexc).
Qed.

(** A translation that succeeds leaves a valid, touched entry behind. *)

Lemma Translate_success_entry va size writing (m m' : Machine (WithMemory K))
    p :
  Translate va size writing m = Returned (NO_EXCEPTION, p, m') →
  ∃ e1,
    alignment_error va size = false
    ∧ valid e1 = true
    ∧ 0 ≤ physicalPage e1 < to_int32 (NumPhysPages g_cfg)
    ∧ entry (translationTable m') (vpn_of va) = Some (touched writing e1)
    ∧ p = Some (to_uint32
                  (to_uint64 (to_uint64 (physicalPage e1) * PageSize g_cfg
                              + to_uint64 (offset_of va)))).
Proof.
  intros HT.
  destruct (Translate_success_inv _ _ _ _ _ _ _ _ _ HT)
    as (e & m1 & e1 & Hal & He & Hperm & Hw & Hm1 & He1 & Hv1 & Hb1 & Hres).
  rewrite (resolve_in_bounds _ _ _ _ _ _ He1 Hb1) in Hres.
  injection Hres as <- <-. exists e1. repeat split; try done; try lia.
  cbn. by eapply entry_insert_eq.
Qed.

Lemma touched_touched writing e :
  touched writing (touched writing e) = touched writing e.
Proof. by destruct writing. Qed.

(** The translation step of an access to a resident page. *)

Lemma access_translation_resident a size writing (m : Machine (WithMemory K))
    e :
  PageSize g_cfg ≠ 0 →
  alignment_error (to_uint32 a) size = false →
  entry (translationTable m) (vpn_of (to_uint32 a)) = Some e →
  readAllowed e || writeAllowed e = true →
  (writing = true → writeAllowed e = true) →
  valid e = true →
  0 ≤ physicalPage e < to_int32 (NumPhysPages g_cfg) →
  access_translation a size writing m
  = Returned (NO_EXCEPTION,
              Some (to_uint32
                      (to_uint64 (to_uint64 (physicalPage e) * PageSize g_cfg
                                  + to_uint64 (offset_of (to_uint32 a))))),
              set_stat (incrMemoryAccess
                          (incrMemoryAccess (incrMemoryAccess (stat m))))
                (set_table (<[Z.to_nat (vpn_of (to_uint32 a))
                              := touched writing e]> (translationTable m))
                   m)).
Proof.
  intros Hps Hal He Hperm Hw Hv Hb. unfold access_translation.
  set (m0 := set_stat (incrMemoryAccess (stat m)) m).
  assert (entry (translationTable m0) (vpn_of (to_uint32 a)) = Some e) as He0
    by done.
  rewrite (Translate_resident _ _ _ _ _ _ _ _ Hps Hal He0 Hperm Hw Hv).
  rewrite (resolve_in_bounds _ _ _ _ _ _ He0 Hb). cbn [mbind Outcome_bind].
  set (m1 := set_stat _ (set_table _ m0)).
  assert (entry (translationTable m1) (vpn_of (to_uint32 a))
          = Some (touched writing e)) as He1
    by (cbn; by eapply entry_insert_eq).
  rewrite (Translate_resident _ _ _ _ _ _ _ _ Hps Hal He1);
    [|by destruct writing|by destruct writing|by destruct writing].
  rewrite (resolve_in_bounds _ _ _ _ _ _ He1)
    by (by destruct writing).
  cbn [mbind Outcome_bind]. rewrite decide_True by done.
  replace (physicalPage (touched writing e)) with (physicalPage e)
    by (by destruct writing).
  unfold ASSERT. rewrite bool_decide_eq_true_2 by done. cbn.
  rewrite touched_touched, list_insert_insert_eq. reflexivity.
Qed.

(** What a successful translation step of an access leaves behind. *)

Lemma access_translation_success a size writing
    (m m2 : Machine (WithMemory K)) exc p :
  access_translation a size writing m = Returned (exc, Some p, m2) →
  ∃ e2,
    PageSize g_cfg ≠ 0
    ∧ alignment_error (to_uint32 a) size = false
    ∧ entry (translationTable m2) (vpn_of (to_uint32 a)) = Some e2
    ∧ readAllowed e2 || writeAllowed e2 = true
    ∧ (writing = true → writeAllowed e2 = true)
    ∧ valid e2 = true
    ∧ 0 ≤ physicalPage e2 < to_int32 (NumPhysPages g_cfg)
    ∧ p = to_uint32
            (to_uint64 (to_uint64 (physicalPage e2) * PageSize g_cfg
                        + to_uint64 (offset_of (to_uint32 a)))).
Proof.
  unfold access_translation.
  destruct (Translate _ _ _ _) as [[[exc1 p1] m1]|] eqn:H1; [cbn|done].
  destruct (Translate _ _ _ m1) as [[[exc2 p2] m2']|] eqn:H2; [cbn|done].
  destruct (Translate_exceptions _ _ _ _ _ _ _ H1) as [[-> _]|[-> _]];
    [|by destruct (if decide _ then _ else _)].
  rewrite decide_True by done. unfold ASSERT. case_bool_decide as Hp; [|done].
  cbn. intros [= <- -> <-]. subst p2.
  destruct (Translate_exceptions _ _ _ _ _ _ _ H2) as [[-> _]|[? _]]; [|done].
  destruct (Translate_success_entry _ _ _ _ _ _ H1)
    as (e1 & Hal & Hv1 & Hb1 & He1 & _).
  destruct (Translate_success_inv _ _ _ _ _ _ _ _ _ H2)
    as (e & m1' & e1' & _ & He & Hperm & Hw & Hm1 & He1' & Hv1' & Hb1' & Hres).
  rewrite (make_resident_valid _ _ _ _ _ _ He) in Hm1
    by (rewrite He1 in He; injection He as <-; by destruct writing).
  injection Hm1 as <-. rewrite He in He1'. injection He1' as <-.
  rewrite (resolve_in_bounds _ _ _ _ _ _ He Hb1') in Hres.
  injection Hres as Hp <-. exists (touched writing e).
  replace (physicalPage (touched writing e)) with (physicalPage e)
    by (by destruct writing).
  split; [exact (Translate_returned_nonzero _ _ _ _ _ _ _ _ Hal H1)|].
  repeat split; try (by destruct writing); try lia.
  cbn. by eapply entry_insert_eq.
Qed.

(** An access to a resident page, up to the access to the memory. *)

Lemma WriteMem_resident_run a size n value (m : Machine (WithMemory K)) e :
  Config_ok g_cfg →
  access_size size = Some n →
  alignment_error (to_uint32 a) size = false →
  entry (translationTable m) (vpn_of (to_uint32 a)) = Some e →
  writeAllowed e = true →
  valid e = true →
  0 ≤ physicalPage e < to_int32 (NumPhysPages g_cfg) →
  WriteMem a size value m
  = match store_bytes (memory m)
            (physicalPage e * PageSize g_cfg
             + to_uint32 a mod PageSize g_cfg) (host_bytes n value) with
    | Some mem =>
        Returned (true,
                  set_memory mem
                    (set_stat (incrMemoryAccess
                                 (incrMemoryAccess
                                    (incrMemoryAccess (stat m))))
                       (set_table (<[Z.to_nat (vpn_of (to_uint32 a))
                                     := with_U true (with_M true e)]>
                                     (translationTable m)) m)))
    | None => Stopped undefined_behaviour
    end.
Proof.
  intros Hcfg Hn Hal He Hw Hv Hb.
  pose proof Hcfg as (Hps & _ & _).
  pose proof (Z.mod_pos_bound (to_uint32 a) (PageSize g_cfg) Hps) as Hoff.
  unfold Access.WriteMem.
  rewrite (access_translation_resident a size true m e ltac:(lia) Hal He)
    by (try done; by rewrite Hw, orb_true_r).
  cbn [mbind Outcome_bind]. rewrite decide_False by (by intros H).
  rewrite Hn. cbn [mbind option_bind].
  by rewrite (physical_address_exact _ _ _ Hcfg Hb Hoff).
Qed.

Lemma ReadMem_resident_run a size n (m : Machine (WithMemory K)) e :
  Config_ok g_cfg →
  access_size size = Some n →
  alignment_error (to_uint32 a) size = false →
  entry (translationTable m) (vpn_of (to_uint32 a)) = Some e →
  readAllowed e || writeAllowed e = true →
  valid e = true →
  0 ≤ physicalPage e < to_int32 (NumPhysPages g_cfg) →
  ReadMem a size m
  = match bytes_at (memory m)
            (physicalPage e * PageSize g_cfg
             + to_uint32 a mod PageSize g_cfg) n with
    | Some bs =>
        Returned (true, Some (read_value n bs),
                  set_stat (incrMemoryAccess
                              (incrMemoryAccess (incrMemoryAccess (stat m))))
                    (set_table (<[Z.to_nat (vpn_of (to_uint32 a))
                                  := with_U true e]>
                                  (translationTable m)) m))
    | None => Stopped undefined_behaviour
    end.
Proof.
  intros Hcfg Hn Hal He Hperm Hv Hb.
  pose proof Hcfg as (Hps & _ & _).
  pose proof (Z.mod_pos_bound (to_uint32 a) (PageSize g_cfg) Hps) as Hoff.
  unfold Access.ReadMem.
  rewrite (access_translation_resident a size false m e ltac:(lia) Hal He)
    by done.
  cbn [mbind Outcome_bind]. rewrite decide_False by (by intros H).
  rewrite Hn. cbn [mbind option_bind].
  by rewrite (physical_address_exact _ _ _ Hcfg Hb Hoff).
Qed.

Lemma store_bytes_fits (mem bs : list byte) (p : Z) :
  0 ≤ p → p + Z.of_nat (length bs) ≤ Z.of_nat (length mem) →
  ∃ mem', store_bytes mem p bs = Some mem'.
Proof.
  intros Hp Hfit. unfold Access.store_bytes.
  rewrite decide_True by done. eauto.
Qed.

(** X19. A write of 1, 2, 4 or 8 bytes to a resident, writable page returns
    true without a page fault: the bytes of the value, laid out as the host
    lays them out, are at [physicalPage * PageSize + virtAddr mod PageSize];
    no other byte of the memory changes; the entry has its U and M bits
    set; three memory accesses are counted. *)

Theorem WriteMem_resident a size n value (m : Machine (WithMemory K)) e p :
  Config_ok g_cfg →
  access_size size = Some n →
  alignment_error (to_uint32 a) size = false →
  entry (translationTable m) (vpn_of (to_uint32 a)) = Some e →
  writeAllowed e = true →
  valid e = true →
  0 ≤ physicalPage e < to_int32 (NumPhysPages g_cfg) →
  p = physicalPage e * PageSize g_cfg + to_uint32 a mod PageSize g_cfg →
  p + Z.of_nat n ≤ Z.of_nat (length (memory m)) →
  ∃ mem,
    WriteMem a size value m
    = Returned (true,
                set_memory mem
                  (set_stat (incrMemoryAccess
                               (incrMemoryAccess (incrMemoryAccess (stat m))))
                     (set_table (<[Z.to_nat (vpn_of (to_uint32 a))
                                   := with_U true (with_M true e)]>
                                   (translationTable m)) m)))
    ∧ bytes_at mem p n = Some (host_bytes n value)
    ∧ length mem = length (memory m)
    ∧ ∀ i : nat, Z.of_nat i < p ∨ p + Z.of_nat n ≤ Z.of_nat i →
                 mem !! i = memory m !! i.
Proof.
  intros Hcfg Hn Hal He Hw Hv Hb -> Hlen.
  pose proof Hcfg as (Hps & _ & _).
  pose proof (Z.mod_pos_bound (to_uint32 a) (PageSize g_cfg) Hps) as Hoff.
  rewrite (WriteMem_resident_run a size n value m e) by done.
  destruct (store_bytes_fits (memory m) (host_bytes n value)
              (physicalPage e * PageSize g_cfg
               + to_uint32 a mod PageSize g_cfg)) as [mem Hst];
    [nia|by rewrite length_host_bytes|].
  rewrite Hst. exists mem. split; [done|].
  destruct (bytes_at_store _ _ _ _ Hst) as (Hat & Hl & Hout).
  rewrite length_host_bytes in Hat, Hout. done.
Qed.

(** X20. A read of 1, 2, 4 or 8 bytes from a resident, readable page
    returns true with the value of the bytes at
    [physicalPage * PageSize + virtAddr mod PageSize]; the memory is
    unchanged, the entry has its U bit set and its M bit as before. *)

Theorem ReadMem_resident a size n (m : Machine (WithMemory K)) e p bs :
  Config_ok g_cfg →
  access_size size = Some n →
  alignment_error (to_uint32 a) size = false →
  entry (translationTable m) (vpn_of (to_uint32 a)) = Some e →
  readAllowed e || writeAllowed e = true →
  valid e = true →
  0 ≤ physicalPage e < to_int32 (NumPhysPages g_cfg) →
  p = physicalPage e * PageSize g_cfg + to_uint32 a mod PageSize g_cfg →
  bytes_at (memory m) p n = Some bs →
  ReadMem a size m
  = Returned (true, Some (read_value n bs),
              set_stat (incrMemoryAccess
                          (incrMemoryAccess (incrMemoryAccess (stat m))))
                (set_table (<[Z.to_nat (vpn_of (to_uint32 a))
                              := with_U true e]>
                              (translationTable m)) m)).
Proof.
  intros Hcfg Hn Hal He Hperm Hv Hb -> Hbs.
  rewrite (ReadMem_resident_run a size n m e) by done.
  by rewrite Hbs.
Qed.

Lemma read_value_host_bytes (n : nat) (v : Z) :
  read_value n (host_bytes n v) mod 256 ^ Z.of_nat n = v mod 256 ^ Z.of_nat n
  ∧ (n ≠ 1%nat ∨ signed_memory = false →
     read_value n (host_bytes n v) = v mod 256 ^ Z.of_nat n).
Proof.
  unfold Access.read_value. case_decide as Hn.
  - subst n.
    assert (le_value (host_bytes 1 v) = v mod 256) as ->.
    { unfold Access.host_bytes. case_decide; cbn [le_bytes reverse rev_append];
        cbn [le_value]; rewrite byte_value_of; lia. }
    change (256 ^ Z.of_nat 1) with 256.
    pose proof (Z.mod_pos_bound v 256 ltac:(lia)) as Hb.
    destruct signed_memory.
    + split; [|by intros [?|?]].
      unfold to_uint64, to_int8.
      rewrite Z.mod_mod_divide by (exists (2 ^ 56); reflexivity).
      rewrite Zminus_mod, Zmod_mod, <- Zminus_mod.
      replace (v mod 256 + 2 ^ 7 - 2 ^ 7) with (v mod 256) by lia.
      apply Zmod_mod.
    + split; [apply Zmod_mod|done].
  - rewrite host_value_bytes. split; [apply Zmod_mod|done].
Qed.

(** X21. Round trip: after a [WriteMem] that returns, a [ReadMem] of the
    same size at the same address returns true with the low [size] bytes of
    the value written, and raises no page fault (the page fault manager may
    be any).  For a one-byte access on a memory of signed bytes the value
    is the sign extension of the byte, so that only its low byte is the one
    written. *)

Theorem WriteMem_ReadMem a size value (m m1 : Machine (WithMemory K)) b :
  WriteMem a size value m = Returned (b, m1) →
  ∃ n r m2,
    access_size size = Some n
    ∧ ReadMem a size m1 = Returned (true, Some r, m2)
    ∧ memory m2 = memory m1
    ∧ numPageFaults (stat m2) = numPageFaults (stat m1)
    ∧ r mod 256 ^ Z.of_nat n = value mod 256 ^ Z.of_nat n
    ∧ (n ≠ 1%nat ∨ signed_memory = false → r = value mod 256 ^ Z.of_nat n).
Proof.
  unfold Access.WriteMem.
  destruct (access_translation a size true m) as [[[exc pa] m']|] eqn:Ha;
    [cbn [mbind Outcome_bind]|done].
  destruct (access_translation_inv _ _ _ _ _ _ _ Ha) as [[-> [p ->]]|[_ Hexc]];
    [|rewrite decide_True by (by destruct Hexc as [->|[->| ->]]);
      by rewrite (Raise_fatal _ _ _ Hexc)].
  rewrite decide_False by (by intros H).
  destruct (access_size size) as [n|] eqn:Hn; [|done].
  cbn [mbind option_bind].
  destruct (store_bytes (memory m') p (host_bytes n value)) as [mem|] eqn:Hst;
    [|done].
  intros [= <- <-].
  destruct (access_translation_success _ _ _ _ _ _ _ Ha)
    as (e2 & Hps & Hal & He2 & Hperm & _ & Hv & Hb & Hp).
  destruct (bytes_at_store _ _ _ _ Hst) as (Hat & _ & _).
  rewrite length_host_bytes in Hat.
  exists n, (read_value n (host_bytes n value)). eexists.
  split; [done|]. split; [|split; [|split]].
  - unfold Access.ReadMem.
    rewrite (access_translation_resident a size false (set_memory mem m') e2
               Hps) by done.
    cbn [mbind Outcome_bind]. rewrite decide_False by (by intros H).
    rewrite Hn. cbn [mbind option_bind]. rewrite <- Hp.
    change (memory (set_stat _ (set_table _ (set_memory mem m')))) with mem.
    rewrite Hat. reflexivity.
  - reflexivity.
  - reflexivity.
  - apply read_value_host_bytes.
Qed.

(** X22. With a page size that is a multiple of 4 and a memory of
    [NumPhysPages] frames, a write of 1, 2 or 4 bytes to a resident,
    writable page returns true and changes no byte outside the frame of the
    page. *)

Theorem WriteMem_within_frame a size value (m : Machine (WithMemory K)) e :
  Config_ok g_cfg →
  PageSize g_cfg mod 4 = 0 →
  Z.of_nat (length (memory m)) = NumPhysPages g_cfg * PageSize g_cfg →
  size = 1 ∨ size = 2 ∨ size = 4 →
  alignment_error (to_uint32 a) size = false →
  entry (translationTable m) (vpn_of (to_uint32 a)) = Some e →
  writeAllowed e = true →
  valid e = true →
  0 ≤ physicalPage e < to_int32 (NumPhysPages g_cfg) →
  ∃ m',
    WriteMem a size value m = Returned (true, m')
    ∧ ∀ i : nat,
        Z.of_nat i < physicalPage e * PageSize g_cfg
        ∨ (physicalPage e + 1) * PageSize g_cfg ≤ Z.of_nat i →
        memory m' !! i = memory m !! i.
Proof.
  intros Hcfg H4 Hmem Hsize Hal He Hw Hv Hb.
  pose proof Hcfg as (Hps & HN & _).
  pose proof (Z.mod_pos_bound (to_uint32 a) (PageSize g_cfg) Hps) as Hoff.
  pose proof (to_int32_le (NumPhysPages g_cfg) ltac:(lia)) as HleN.
  assert (∃ n, access_size size = Some n
               ∧ to_uint32 a mod PageSize g_cfg + Z.of_nat n
                 ≤ PageSize g_cfg) as (n & Hn & Hfit).
  { apply Z.mod_divide in H4 as [q Hq]; [|lia].
    destruct Hsize as [->|[->| ->]].
    - exists 1%nat. split; [done|lia].
    - exists 2%nat. split; [done|].
      rewrite alignment_error_2 in Hal.
      apply negb_false_iff, bool_decide_eq_true in Hal.
      assert ((to_uint32 a mod PageSize g_cfg) mod 2 = 0) as Hm.
      { by rewrite Z.mod_mod_divide by (exists (2 * q); lia). }
      assert (PageSize g_cfg mod 2 = 0) as Hp2
        by (rewrite Hq; replace (q * 4) with (2 * q * 2) by lia;
            apply Z_mod_mult).
      apply Z.mod_divide in Hm as [x Hx]; [|lia].
      apply Z.mod_divide in Hp2 as [y Hy]; [|lia]. lia.
    - exists 4%nat. split; [done|].
      rewrite alignment_error_4 in Hal.
      apply negb_false_iff, bool_decide_eq_true in Hal.
      assert ((to_uint32 a mod PageSize g_cfg) mod 4 = 0) as Hm.
      { by rewrite Z.mod_mod_divide by (exists q; lia). }
      apply Z.mod_divide in Hm as [x Hx]; [|lia]. lia. }
  rewrite (WriteMem_resident_run a size n value m e) by done.
  destruct (store_bytes_fits (memory m) (host_bytes n value)
              (physicalPage e * PageSize g_cfg
               + to_uint32 a mod PageSize g_cfg)) as [mem Hst];
    [nia|rewrite length_host_bytes; nia|].
  rewrite Hst. eexists. split; [reflexivity|].
  destruct (bytes_at_store _ _ _ _ Hst) as (_ & _ & Hout).
  rewrite length_host_bytes in Hout.
  intros i Hi. apply Hout. nia.
Qed.

(** X23. An access of 8 bytes is not checked for alignment: a write that
    starts [k] bytes (0 < k < 8) before the end of a resident, writable
    page returns true and puts the last [8 - k] bytes of the value at the
    start of the frame that follows the frame of the page in memory,
    whatever page that frame holds. *)

Theorem WriteMem_crosses_frame a value (m : Machine (WithMemory K)) e
    (k : nat) :
  Config_ok g_cfg →
  (0 < k < 8)%nat →
  to_uint32 a mod PageSize g_cfg + Z.of_nat k = PageSize g_cfg →
  entry (translationTable m) (vpn_of (to_uint32 a)) = Some e →
  writeAllowed e = true →
  valid e = true →
  0 ≤ physicalPage e < to_int32 (NumPhysPages g_cfg) →
  (physicalPage e + 1) * PageSize g_cfg + 8 ≤ Z.of_nat (length (memory m)) →
  ∃ m',
    WriteMem a 8 value m = Returned (true, m')
    ∧ bytes_at (memory m') ((physicalPage e + 1) * PageSize g_cfg) (8 - k)
      = Some (drop k (host_bytes 8 value)).
Proof.
  intros Hcfg Hk Hoff He Hw Hv Hb Hlen.
  pose proof Hcfg as (Hps & _ & _).
  pose proof (Z.mod_pos_bound (to_uint32 a) (PageSize g_cfg) Hps) as Hmod.
  rewrite (WriteMem_resident_run a 8 8 value m e Hcfg eq_refl
             (alignment_error_other _ 8 ltac:(done) ltac:(done)))
    by done.
  destruct (store_bytes_fits (memory m) (host_bytes 8 value)
              (physicalPage e * PageSize g_cfg
               + to_uint32 a mod PageSize g_cfg)) as [mem Hst];
    [nia|rewrite length_host_bytes; lia|].
  rewrite Hst. eexists. split; [reflexivity|].
  destruct (bytes_at_store _ _ _ _ Hst) as (Hat & Hl & _).
  rewrite length_host_bytes in Hat.
  change (memory (set_memory mem _)) with mem.
  revert Hat. unfold Access.bytes_at.
  case_decide as Hin; [|done]. intros [= Hat].
  rewrite decide_True by lia. f_equal.
  rewrite <- Hat. replace 8%nat with (k + (8 - k))%nat at 2 by lia.
  rewrite <- take_drop_commute, drop_drop. do 2 f_equal. lia.
Qed.

End Access_facts.

Lemma access_never_false_witness :
  true = true ∧ is_Some (Some 0).
Proof.
  refine (proj1 (access_never_false Toy.cfg Demo.pager Demo.system_call
                   Access.IS_LITTLE_ENDIAN false 0 4 0 Demo.computer)
            true (Some 0) _ _).
  reflexivity.
Defined.

Lemma WriteMem_resident_witness :
  ∃ mem,
    Access.bytes_at mem 264 4 = Some [x04; x03; x02; x01]
    ∧ length mem = 512%nat.
Proof.
  destruct (WriteMem_resident Toy.cfg Demo.pager Demo.system_call
              Access.IS_LITTLE_ENDIAN 8 4 4 16909060 Demo.computer
              (Toy.pte 2 true true true) 264)
    as (mem & _ & Hat & Hl & _);
    try reflexivity; try (vm_compute; intuition discriminate).
  exists mem. split; [exact Hat|exact Hl].
Defined.

Lemma ReadMem_resident_witness :
  ∃ m',
    Access.ReadMem Toy.cfg Demo.pager Demo.system_call
      Access.IS_LITTLE_ENDIAN true 392 2 Demo.computer
    = Returned (true, Some 0, m')
    ∧ (translationTable m' !! 3%nat) ≫= (λ e, Some (U e, M e))
      = Some (true, false).
Proof.
  eexists. split.
  - apply (ReadMem_resident Toy.cfg Demo.pager Demo.system_call
             Access.IS_LITTLE_ENDIAN true 392 2 2 Demo.computer
             (Toy.pte 3 true true false) 392 [x00; x00]);
      try reflexivity; vm_compute; intuition discriminate.
  - reflexivity.
Defined.

Lemma WriteMem_ReadMem_witness :
  ∃ m1 r m2,
    Access.WriteMem Toy.cfg Demo.pager Demo.system_call
      Access.IS_LITTLE_ENDIAN 130 1 511 Demo.computer = Returned (true, m1)
    ∧ Access.ReadMem Toy.cfg Demo.pager Demo.system_call
        Access.IS_LITTLE_ENDIAN true 130 1 m1 = Returned (true, Some r, m2)
    ∧ r mod 256 = 255.
Proof.
  pose (m1 := Access.set_memory
                (<[130%nat := xff]> (replicate 512 x00))
                (set_stat {| numMemoryAccess := 3; numPageFaults := 1 |}
                   (set_table
                      [Toy.pte 2 true true true;
                       touched true (Toy.load (Toy.pte 0 false true true));
                       Toy.pte 0 false false false;
                       Toy.pte 3 true true false] Demo.computer))).
  destruct (WriteMem_ReadMem Toy.cfg Demo.pager Demo.system_call
              Access.IS_LITTLE_ENDIAN true 130 1 511 Demo.computer m1 true)
    as (n & r & m2 & Hn & Hrd & _ & _ & Hr & _).
  - vm_compute. reflexivity.
  - exists m1, r, m2. split; [vm_compute; reflexivity|].
    split; [exact Hrd|].
    injection Hn as <-. exact Hr.
Defined.

Lemma WriteMem_within_frame_witness :
  ∃ m',
    Access.WriteMem Toy.cfg Demo.pager Demo.system_call
      Access.IS_LITTLE_ENDIAN 124 4 (-1) Demo.computer = Returned (true, m')
    ∧ Access.memory m' !! 384%nat = Some x00.
Proof.
  destruct (WriteMem_within_frame Toy.cfg Demo.pager Demo.system_call
              Access.IS_LITTLE_ENDIAN 124 4 (-1) Demo.computer
              (Toy.pte 2 true true true))
    as (m' & Hwr & Hout);
    try reflexivity; try (vm_compute; intuition discriminate); try tauto.
  exists m'. split; [exact Hwr|].
  rewrite (Hout 384%nat); [reflexivity|]. right. vm_compute. discriminate.
Defined.

Lemma WriteMem_crosses_frame_witness :
  ∃ m',
    Access.WriteMem Toy.cfg Demo.pager Demo.system_call
      Access.IS_LITTLE_ENDIAN 124 8 (-1) Demo.computer = Returned (true, m')
    ∧ Access.bytes_at (Access.memory m') 384 4 = Some [xff; xff; xff; xff].
Proof.
  destruct (WriteMem_crosses_frame Toy.cfg Demo.pager Demo.system_call
              Access.IS_LITTLE_ENDIAN 124 (-1) Demo.computer
              (Toy.pte 2 true true true) 4)
    as (m' & Hwr & Hat);
    try reflexivity; try (vm_compute; intuition discriminate); try lia.
  exists m'. split; [exact Hwr|exact Hat].
Defined.

(** ** String parameters of system calls *)

Lemma byte_value_range (b : byte) : 0 ≤ Access.byte_value b < 256.
Proof. unfold Access.byte_value. pose proof (Byte.to_N_bounded b). lia. Qed.

Lemma byte_of_value (b : byte) : Access.byte_of (Access.byte_value b) = b.
Proof.
  unfold Access.byte_of. pose proof (byte_value_range b).
  rewrite Z.mod_small by done. unfold Access.byte_value.
  rewrite N2Z.id, Byte.of_to_N. reflexivity.
Qed.

Lemma byte_value_zero (b : byte) : Access.byte_value b = 0 ↔ b = x00.
Proof.
  split; [|by intros ->].
  intros H. rewrite <- (byte_of_value b), H. reflexivity.
Qed.

Lemma byte_of_mod (z : Z) : Access.byte_of (z mod 256) = Access.byte_of z.
Proof. unfold Access.byte_of. by rewrite Zmod_mod. Qed.

Lemma bytes_at_lookup (mem s : list byte) (p : Z) (n j : nat) (b : byte) :
  Access.bytes_at mem p n = Some s → s !! j = Some b →
  Access.bytes_at mem (p + Z.of_nat j) 1 = Some [b].
Proof.
  unfold Access.bytes_at. case_decide as Hin; [|done]. intros [= <-] Hj.
  apply lookup_take_Some in Hj as [Hj Hlt]. rewrite lookup_drop in Hj.
  rewrite decide_True by lia. f_equal.
  replace (Z.to_nat (p + Z.of_nat j)) with (Z.to_nat p + j)%nat by lia.
  by rewrite (drop_S _ _ _ Hj).
Qed.

(** The buffer after a copy of at most [n] bytes of the string [cs] and the
    store of the final zero. *)

Lemma copied_string (cs dest : list byte) (n : nat) :
  (1 ≤ n ≤ length dest)%nat →
  let D := <[(n - 1)%nat := x00]>
             (take n (cs ++ [x00]) ++ drop (n `min` S (length cs)) dest) in
  let k := (length cs `min` (n - 1))%nat in
  length D = length dest
  ∧ take k D = take k cs
  ∧ D !! k = Some x00
  ∧ drop n D = drop n dest.
Proof.
  intros Hn D k.
  assert (length (take n (cs ++ [x00])) = (n `min` S (length cs))%nat) as HA
    by (rewrite length_take, length_app; cbn [length]; lia).
  assert (length (take n (cs ++ [x00]) ++ drop (n `min` S (length cs)) dest)
          = length dest) as HD
    by (rewrite length_app, HA, length_drop; lia).
  split; [|split; [|split]].
  - unfold D. by rewrite length_insert.
  - unfold D. rewrite take_insert_ge by lia.
    rewrite take_app_le by lia. rewrite take_take.
    replace (k `min` n)%nat with k by lia.
    apply take_app_le. lia.
  - unfold D. destruct (decide (k = n - 1)%nat) as [->|Hne].
    + apply list_lookup_insert_eq. lia.
    + rewrite list_lookup_insert_ne by done.
      rewrite lookup_app_l by lia. rewrite lookup_take_lt by lia.
      replace k with (length cs) by lia.
      by apply list_lookup_middle.
  - unfold D. rewrite drop_insert_lt by lia.
    rewrite drop_app_ge by lia. rewrite HA, drop_drop. f_equal. lia.
Qed.

Section Params_facts.

Import Access Params.

Context {K : Type} (g_cfg : Config).
Context (PageFault : Z → Machine (WithMemory K)
                     → Outcome (ExceptionType * Machine (WithMemory K))).
Context (SystemCall : Machine (WithMemory K)
                      → Outcome (Machine (WithMemory K))).
Context (host_endianess : Z) (signed_memory : bool).

Local Abbreviation ReadMem :=
  (ReadMem g_cfg PageFault SystemCall host_endianess signed_memory).
Local Abbreviation read_value := (read_value host_endianess signed_memory).
Local Abbreviation string_at := (string_at g_cfg).
Local Abbreviation GetLengthParam_loop :=
  (GetLengthParam_loop g_cfg PageFault SystemCall host_endianess
     signed_memory).
Local Abbreviation GetLengthParam :=
  (GetLengthParam g_cfg PageFault SystemCall host_endianess signed_memory).
Local Abbreviation GetStringParam_loop :=
  (GetStringParam_loop g_cfg PageFault SystemCall host_endianess
     signed_memory).
Local Abbreviation GetStringParam :=
  (GetStringParam g_cfg PageFault SystemCall host_endianess signed_memory).

(** The value of a one-byte read, as the loops use it. *)

Lemma read_value_byte (b : byte) :
  (read_value 1 [b] = 0 ↔ b = x00)
  ∧ byte_of (read_value 1 [b]) = b.
Proof.
  unfold Access.read_value. rewrite decide_True by done.
  cbn [le_value]. rewrite Z.mul_0_r, Z.add_0_r.
  pose proof (byte_value_range b) as Hr.
  destruct signed_memory.
  - unfold to_uint64, to_int8.
    destruct (decide (byte_value b < 128)) as [Hlt|Hge].
    + rewrite (Z.mod_small (_ + _)) by lia.
      replace (byte_value b + 2 ^ 7 - 2 ^ 7) with (byte_value b) by lia.
      rewrite Z.mod_small by lia.
      split; [apply byte_value_zero|apply byte_of_value].
    + replace ((byte_value b + 2 ^ 7) mod 2 ^ 8)
        with (byte_value b - 2 ^ 7)
        by (apply (Z.mod_unique _ _ 1); lia).
      replace ((byte_value b - 2 ^ 7 - 2 ^ 7) mod 2 ^ 64)
        with (byte_value b - 2 ^ 8 + 2 ^ 64)
        by (apply (Z.mod_unique _ _ (-1)); lia).
      split.
      * split; [lia|]. intros ->. by vm_compute in Hge.
      * rewrite <- byte_of_mod.
        replace ((byte_value b - 2 ^ 8 + 2 ^ 64) mod 256) with (byte_value b)
          by (apply (Z.mod_unique _ _ (2 ^ 56 - 1)); lia).
        apply byte_of_value.
  - split; [apply byte_value_zero|apply byte_of_value].
Qed.

(** Reading one byte of a resident string. *)

Lemma string_at_read (m : Machine (WithMemory K)) addr s (j : nat) b :
  Config_ok g_cfg →
  0 ≤ addr → addr + Z.of_nat (length s) ≤ 2 ^ 32 →
  string_at m addr s → s !! j = Some b →
  ∃ m', ReadMem (addr + Z.of_nat j) 1 m
        = Returned (true, Some (read_value 1 [b]), m')
        ∧ string_at m' addr s.
Proof.
  intros Hcfg Haddr Hmax (e & He & Hperm & Hv & Hb & Hfit & Hbytes) Hj.
  pose proof Hcfg as (Hps & _ & _).
  pose proof (lookup_lt_Some _ _ _ Hj) as Hlt.
  pose proof (Z.mod_pos_bound addr (PageSize g_cfg) Hps) as Hoff.
  pose proof (Z.div_mod addr (PageSize g_cfg) ltac:(lia)) as Hdm.
  assert (to_uint32 (addr + Z.of_nat j) = addr + Z.of_nat j) as Hva
    by (apply to_uint32_small; lia).
  assert ((addr + Z.of_nat j) / PageSize g_cfg = addr / PageSize g_cfg)
    as Hdiv by (symmetry;
                apply (Z.div_unique _ _ _ (addr mod PageSize g_cfg + Z.of_nat j));
                lia).
  assert ((addr + Z.of_nat j) mod PageSize g_cfg
          = addr mod PageSize g_cfg + Z.of_nat j) as Hmod
    by (symmetry; apply (Z.mod_unique _ _ (addr / PageSize g_cfg)); lia).
  eexists. split.
  - rewrite (ReadMem_resident_run g_cfg PageFault SystemCall host_endianess
               signed_memory (addr + Z.of_nat j) 1 1 m e Hcfg eq_refl);
      [|by apply alignment_error_other|by rewrite Hva, Hdiv|done..].
    rewrite Hva, Hmod, Z.add_assoc.
    by rewrite (bytes_at_lookup _ _ _ _ _ _ Hbytes Hj).
  - rewrite Hdiv. exists (with_U true e).
    repeat split; try done; try (cbn; lia).
    cbn. by eapply entry_insert_eq.
Qed.

Lemma GetLengthParam_loop_end (turns : nat) addr i
    (m : Machine (WithMemory K)) :
  i ≠ INT_MAX →
  GetLengthParam_loop turns addr i 0 m = Some (Returned (i + 1, m)).
Proof.
  intros Hi. destruct turns; cbn; rewrite decide_False by lia;
    by rewrite decide_False by done.
Qed.

Lemma GetLengthParam_loop_counts rest pre (m : Machine (WithMemory K)) addr c
    (turns : nat) :
  Config_ok g_cfg →
  0 ≤ addr →
  addr + Z.of_nat (length (pre ++ rest)) + 2 ≤ INT_MAX →
  string_at m addr (pre ++ rest ++ [x00]) →
  Forall (λ b, b ≠ x00) rest →
  c ≠ 0 →
  (length rest < turns)%nat →
  ∃ m',
    GetLengthParam_loop turns (addr + Z.of_nat (length pre))
      (Z.of_nat (length pre)) c m
    = Some (Returned (Z.of_nat (length (pre ++ rest)) + 2, m'))
    ∧ string_at m' addr (pre ++ rest ++ [x00]).
Proof.
  intros Hcfg Haddr. revert pre m c turns.
  induction rest as [|b rest IH]; intros pre m c turns Hmax Hs Hnz Hc Hturns;
    (destruct turns as [|turns]; [cbn in Hturns; lia|]);
    rewrite length_app in Hmax; cbn [length] in Hmax; unfold INT_MAX in Hmax.
  - destruct (string_at_read m addr (pre ++ [] ++ [x00]) (length pre) x00)
      as (m' & Hrd & Hs'); try done.
    { rewrite !length_app. cbn [length]. lia. }
    { by apply (list_lookup_middle pre [] x00). }
    exists m'. split; [|done].
    cbn [Params.GetLengthParam_loop]. rewrite decide_True by done.
    rewrite decide_False by (unfold INT_MAX; lia).
    rewrite to_uint64_small by lia. rewrite Hrd.
    rewrite decide_False by (unfold INT_MAX; lia).
    cbn [default].
    rewrite (proj2 (proj1 (read_value_byte x00)) eq_refl).
    rewrite GetLengthParam_loop_end by (unfold INT_MAX; lia).
    rewrite length_app. cbn [length]. do 3 f_equal. lia.
  - apply Forall_cons in Hnz as [Hb Hnz].
    destruct (string_at_read m addr (pre ++ (b :: rest) ++ [x00])
                (length pre) b) as (m' & Hrd & Hs'); try done.
    { rewrite !length_app. cbn [length]. lia. }
    { by apply (list_lookup_middle pre (rest ++ [x00]) b). }
    cbn [Params.GetLengthParam_loop]. rewrite decide_True by done.
    rewrite decide_False by (unfold INT_MAX; lia).
    rewrite to_uint64_small by lia. rewrite Hrd.
    rewrite decide_False by (unfold INT_MAX; lia).
    cbn [default].
    destruct (IH (pre ++ [b]) m' (read_value 1 [b]) turns)
      as (m2 & Hloop & Hs2).
    + rewrite !length_app. cbn [length]. unfold INT_MAX. lia.
    + by rewrite <- app_assoc.
    + done.
    + intros H0. by apply (proj1 (read_value_byte b)) in H0.
    + cbn in Hturns. lia.
    + exists m2. rewrite <- app_assoc in Hs2. split; [|done].
      rewrite length_app in Hloop. cbn [length] in Hloop.
      replace (addr + Z.of_nat (length pre) + 1)
        with (addr + Z.of_nat (length pre + 1)) by lia.
      replace (Z.of_nat (length pre) + 1)
        with (Z.of_nat (length pre + 1)) by lia.
      unfold id. rewrite Hloop. rewrite <- app_assoc. reflexivity.
Qed.

Lemma GetStringParam_loop_end (turns : nat) addr i c dest maxlen
    (m : Machine (WithMemory K)) :
  ¬ (c ≠ 0 ∧ i < maxlen) →
  GetStringParam_loop turns addr i c dest maxlen m
  = match store_char dest (maxlen - 1) x00 with
    | Stopped why => Some (Stopped why)
    | Returned dest1 => Some (Returned (dest1, m))
    end.
Proof. intros H. destruct turns; cbn; by rewrite decide_False. Qed.

Lemma store_char_in (dest : list byte) (i : nat) (b : byte) :
  (i < length dest)%nat →
  store_char dest (Z.of_nat i) b = Returned (<[i := b]> dest).
Proof.
  intros Hi. unfold store_char. rewrite decide_True by lia.
  by rewrite Nat2Z.id.
Qed.

Lemma GetStringParam_loop_copies rest pre (m : Machine (WithMemory K)) addr c
    dest (maxlen turns : nat) :
  Config_ok g_cfg →
  0 ≤ addr →
  addr + Z.of_nat (length (pre ++ rest)) + 1 ≤ 2 ^ 32 →
  string_at m addr (pre ++ rest ++ [x00]) →
  Forall (λ b, b ≠ x00) rest →
  c ≠ 0 →
  (length pre ≤ maxlen)%nat →
  (1 ≤ maxlen ≤ length dest)%nat →
  (maxlen - length pre ≤ turns)%nat →
  ∃ m',
    GetStringParam_loop turns (addr + Z.of_nat (length pre))
      (Z.of_nat (length pre)) c dest (Z.of_nat maxlen) m
    = Some (Returned
              (<[(maxlen - 1)%nat := x00]>
                 (take (length pre) dest
                  ++ take (maxlen - length pre) (rest ++ [x00])
                  ++ drop (length pre
                           + min (maxlen - length pre) (S (length rest)))
                       dest),
               m'))
    ∧ string_at m' addr (pre ++ rest ++ [x00]).
Proof.
  intros Hcfg Haddr. revert pre m c dest turns.
  induction rest as [|b rest IH];
    intros pre m c dest turns Hmax Hs Hnz Hc Hpre Hlen Hturns;
    rewrite length_app in Hmax; cbn [length] in Hmax;
    (destruct (decide (length pre < maxlen)%nat) as [Hlt|Hge];
     [destruct turns as [|turns]; [lia|]
     |exists m; split; [|done];
      rewrite GetStringParam_loop_end by lia;
      replace (Z.of_nat maxlen - 1) with (Z.of_nat (maxlen - 1)) by lia;
      rewrite store_char_in by lia;
      replace (maxlen - length pre)%nat with 0%nat by lia;
      cbn [take Nat.min app]; rewrite Nat.add_0_r, take_drop; done]).
  - destruct (string_at_read m addr (pre ++ [] ++ [x00]) (length pre) x00)
      as (m' & Hrd & Hs'); try done.
    { rewrite !length_app. cbn [length]. lia. }
    { by apply (list_lookup_middle pre [] x00). }
    exists m'. split; [|done].
    cbn [Params.GetStringParam_loop].
    rewrite decide_True by (split; [done|lia]).
    rewrite Hrd. cbn [default from_option]. unfold id.
    rewrite (proj2 (read_value_byte x00)).
    rewrite store_char_in by lia.
    rewrite (proj2 (proj1 (read_value_byte x00)) eq_refl).
    rewrite GetStringParam_loop_end by (by intros [? _]).
    replace (Z.of_nat maxlen - 1) with (Z.of_nat (maxlen - 1)) by lia.
    rewrite store_char_in by (rewrite length_insert; lia).
    do 4 f_equal.
    rewrite insert_take_drop by lia.
    cbn [length app]. rewrite (take_ge [x00]) by (cbn; lia).
    replace (length pre + (maxlen - length pre) `min` 1)%nat
      with (S (length pre)) by lia.
    reflexivity.
  - apply Forall_cons in Hnz as [Hb Hnz].
    destruct (string_at_read m addr (pre ++ (b :: rest) ++ [x00])
                (length pre) b) as (m' & Hrd & Hs'); try done.
    { rewrite !length_app. cbn [length]. lia. }
    { by apply (list_lookup_middle pre (rest ++ [x00]) b). }
    cbn [Params.GetStringParam_loop].
    rewrite decide_True by (split; [done|lia]).
    rewrite Hrd. cbn [default from_option]. unfold id.
    rewrite (proj2 (read_value_byte b)).
    rewrite store_char_in by lia.
    rewrite to_uint64_small by lia.
    destruct (IH (pre ++ [b]) m' (read_value 1 [b])
                (<[length pre := b]> dest) turns) as (m2 & Hloop & Hs2).
    + rewrite !length_app. cbn [length]. lia.
    + by rewrite <- app_assoc.
    + done.
    + intros H0. by apply (proj1 (read_value_byte b)) in H0.
    + rewrite length_app. cbn [length]. lia.
    + rewrite length_insert. lia.
    + rewrite length_app. cbn [length]. lia.
    + exists m2. rewrite <- app_assoc in Hs2. split; [|done].
      rewrite length_app in Hloop. cbn [length] in Hloop.
      replace (addr + Z.of_nat (length pre) + 1)
        with (addr + Z.of_nat (length pre + 1)) by lia.
      replace (Z.of_nat (length pre) + 1)
        with (Z.of_nat (length pre + 1)) by lia.
      rewrite Hloop. do 3 f_equal.
      replace (length pre + 1)%nat with (S (length pre)) by lia.
      rewrite (take_S_r _ _ b) by (apply list_lookup_insert_eq; lia).
      rewrite take_insert_ge by lia.
      rewrite drop_insert_lt by lia.
      replace (maxlen - length pre)%nat with (S (maxlen - S (length pre)))
        by lia.
      cbn [take app length].
      replace (length pre
               + S (maxlen - S (length pre)) `min` S (S (length rest)))%nat
        with (S (length pre)
              + (maxlen - S (length pre)) `min` S (length rest))%nat by lia.
      by rewrite <- app_assoc.
Qed.

(** X24. On a string of [n] non-zero bytes followed by a zero, in a page
    that is resident and may be read, [GetLengthParam] returns [n + 2]:
    the number of bytes it has read, the zero among them, plus one; the
    string is still in place. *)

Theorem GetLengthParam_counts cs (m : Machine (WithMemory K)) addr
    (turns : nat) :
  Config_ok g_cfg →
  0 ≤ addr →
  addr + Z.of_nat (length cs) + 2 ≤ INT_MAX →
  string_at m addr (cs ++ [x00]) →
  Forall (λ b, b ≠ x00) cs →
  (length cs < turns)%nat →
  ∃ m',
    GetLengthParam turns addr m
    = Some (Returned (Z.of_nat (length cs) + 2, m'))
    ∧ string_at m' addr (cs ++ [x00]).
Proof.
  intros Hcfg Haddr Hmax Hs Hnz Hturns.
  destruct (GetLengthParam_loop_counts cs [] m addr 1 turns)
    as (m' & Hloop & Hs'); try done.
  exists m'. split; [|done].
  unfold Params.GetLengthParam. cbn [length app] in Hloop.
  by rewrite Z.add_0_r in Hloop.
Qed.

(** X25. On the same kind of string, [GetStringParam] with
    [1 <= maxlen] and a buffer of at least [maxlen] bytes returns after at
    most [maxlen] turns of its loop: the buffer holds the string cut to
    [maxlen - 1] bytes, then a zero; its bytes from [maxlen] on are
    as before. *)

Theorem GetStringParam_copies cs (m : Machine (WithMemory K)) addr dest
    maxlen (turns : nat) :
  Config_ok g_cfg →
  0 ≤ addr →
  addr + Z.of_nat (length cs) + 1 ≤ 2 ^ 32 →
  string_at m addr (cs ++ [x00]) →
  Forall (λ b, b ≠ x00) cs →
  1 ≤ maxlen ≤ Z.of_nat (length dest) →
  (Z.to_nat maxlen ≤ turns)%nat →
  ∃ dest' m',
    GetStringParam turns addr dest maxlen m = Some (Returned (dest', m'))
    ∧ length dest' = length dest
    ∧ take (length cs `min` (Z.to_nat maxlen - 1)) dest'
      = take (length cs `min` (Z.to_nat maxlen - 1)) cs
    ∧ dest' !! (length cs `min` (Z.to_nat maxlen - 1))%nat = Some x00
    ∧ drop (Z.to_nat maxlen) dest' = drop (Z.to_nat maxlen) dest.
Proof.
  intros Hcfg Haddr Hmax Hs Hnz Hlen Hturns.
  destruct (GetStringParam_loop_copies cs [] m addr 1 dest (Z.to_nat maxlen)
              turns) as (m' & Hloop & _); try done; try (cbn [length]; lia).
  cbn [length app take] in Hloop.
  rewrite Z.add_0_r, Nat.sub_0_r, Z2Nat.id in Hloop by lia.
  eexists _, m'. split; [exact Hloop|].
  apply copied_string. lia.
Qed.

(** X26. The two calls of the system calls, one after the other:
    [GetLengthParam] gives the size of the buffer, and [GetStringParam]
    with that size as [maxlen] fills it with the string followed by two
    zeroes. *)

Theorem string_parameter_copied cs (m : Machine (WithMemory K)) addr
    (turns : nat) :
  Config_ok g_cfg →
  0 ≤ addr →
  addr + Z.of_nat (length cs) + 2 ≤ INT_MAX →
  string_at m addr (cs ++ [x00]) →
  Forall (λ b, b ≠ x00) cs →
  (length cs + 2 ≤ turns)%nat →
  ∃ size m1,
    GetLengthParam turns addr m = Some (Returned (size, m1))
    ∧ ∀ ch, Z.of_nat (length ch) = size →
        ∃ m2, GetStringParam turns addr ch size m1
              = Some (Returned (cs ++ [x00; x00], m2)).
Proof.
  intros Hcfg Haddr Hmax Hs Hnz Hturns. unfold INT_MAX in Hmax.
  destruct (GetLengthParam_loop_counts cs [] m addr 1 turns)
    as (m1 & Hloop & Hs1); try done; try lia.
  cbn [length app] in Hloop. rewrite Z.add_0_r in Hloop.
  exists (Z.of_nat (length cs) + 2), m1. split; [exact Hloop|].
  intros ch Hch.
  destruct (GetStringParam_loop_copies cs [] m1 addr 1 ch (length cs + 2)
              turns) as (m2 & Hcopy & _); try done;
    try (cbn [length app]; lia).
  cbn [length app take] in Hcopy.
  rewrite Z.add_0_r, Nat.sub_0_r in Hcopy.
  replace (Z.of_nat (length cs + 2)) with (Z.of_nat (length cs) + 2)
    in Hcopy by lia.
  change (Z.of_nat 0) with 0 in Hcopy.
  exists m2. unfold Params.GetStringParam. rewrite Hcopy. do 3 f_equal.
  rewrite take_0. cbn [app Nat.add].
  rewrite (take_ge (cs ++ [x00]))
    by (rewrite length_app; cbn [length]; lia).
  replace ((length cs + 2) `min` S (length cs))%nat with (S (length cs))
    by lia.
  assert (∃ z, drop (S (length cs)) ch = [z]) as [z ->].
  { destruct (drop (S (length cs)) ch) as [|z [|z' r]] eqn:Hd;
      apply (f_equal length) in Hd; rewrite length_drop in Hd;
      cbn [length] in Hd; [lia|by exists z|lia]. }
  rewrite <- app_assoc. cbn [app].
  replace (length cs + 2 - 1)%nat with (length cs + 1)%nat by lia.
  rewrite insert_app_r. by cbn.
Qed.

(** X27. [GetStringParam] with [maxlen <= 0] reads nothing and stores
    its final zero at [dest[maxlen - 1]], before the start of the buffer:
    the call is undefined, whatever the machine and the buffer. *)

Theorem GetStringParam_no_room (m : Machine (WithMemory K)) addr dest maxlen
    (turns : nat) :
  maxlen ≤ 0 →
  GetStringParam turns addr dest maxlen m = Some (Stopped undefined_behaviour).
Proof.
  intros Hmaxlen. unfold Params.GetStringParam.
  rewrite GetStringParam_loop_end by lia.
  unfold store_char. by rewrite decide_False by lia.
Qed.

End Params_facts.

Lemma destroy_stops_at_NULL_witness :
  List.destroy
    [ {| List.key := 1; List.item := 7 |};
      {| List.key := 2; List.item := List.NULL |};
      {| List.key := 3; List.item := 9 |} ]
  = [ {| List.key := 3; List.item := 9 |} ].
Proof.
  refine (proj2 (destroy_stops_at_NULL _)
            [ {| List.key := 1; List.item := 7 |} ]
            {| List.key := 2; List.item := List.NULL |}
            [ {| List.key := 3; List.item := 9 |} ] eq_refl _ eq_refl).
  intros x Hx. apply list_elem_of_singleton in Hx as ->. discriminate.
Defined.

(** *** The string [hi] *)

Lemma Demo_named_string :
  Params.string_at Toy.cfg Demo.named 0 [x68; x69; x00].
Proof.
  exists (Toy.pte 2 true true true).
  repeat split; try reflexivity; vm_compute; intuition discriminate.
Qed.

Lemma Demo_hi_nonzero : Forall (λ b : byte, b ≠ x00) [x68; x69].
Proof. repeat constructor; discriminate. Qed.

Lemma GetLengthParam_counts_witness :
  ∃ m',
    Params.GetLengthParam Toy.cfg Demo.pager Demo.system_call
      Access.IS_LITTLE_ENDIAN true 3 0 Demo.named = Some (Returned (4, m')).
Proof.
  destruct (GetLengthParam_counts Toy.cfg Demo.pager Demo.system_call
              Access.IS_LITTLE_ENDIAN true [x68; x69] Demo.named 0 3)
    as (m' & Hrun & _).
  - vm_compute. intuition discriminate.
  - lia.
  - vm_compute. discriminate.
  - exact Demo_named_string.
  - exact Demo_hi_nonzero.
  - cbn. lia.
  - exists m'. exact Hrun.
Defined.

Lemma GetStringParam_copies_witness :
  ∃ dest' m',
    Params.GetStringParam Toy.cfg Demo.pager Demo.system_call
      Access.IS_LITTLE_ENDIAN true 2 0 [x01; x01; x01] 2 Demo.named
    = Some (Returned (dest', m'))
    ∧ take 1 dest' = [x68]
    ∧ dest' !! 1%nat = Some x00
    ∧ drop 2 dest' = [x01].
Proof.
  destruct (GetStringParam_copies Toy.cfg Demo.pager Demo.system_call
              Access.IS_LITTLE_ENDIAN true [x68; x69] Demo.named 0
              [x01; x01; x01] 2 2)
    as (dest' & m' & Hrun & _ & Htake & Hend & Hrest).
  - vm_compute. intuition discriminate.
  - lia.
  - vm_compute. discriminate.
  - exact Demo_named_string.
  - exact Demo_hi_nonzero.
  - cbn. lia.
  - cbn. lia.
  - exists dest', m'. split; [exact Hrun|].
    split; [exact Htake|]. split; [exact Hend|exact Hrest].
Defined.

Lemma string_parameter_copied_witness :
  ∃ size m1,
    Params.GetLengthParam Toy.cfg Demo.pager Demo.system_call
      Access.IS_LITTLE_ENDIAN true 4 0 Demo.named
    = Some (Returned (size, m1))
    ∧ ∀ ch, Z.of_nat (length ch) = size →
        ∃ m2, Params.GetStringParam Toy.cfg Demo.pager Demo.system_call
                Access.IS_LITTLE_ENDIAN true 4 0 ch size m1
              = Some (Returned ([x68; x69; x00; x00], m2)).
Proof.
  apply (string_parameter_copied Toy.cfg Demo.pager Demo.system_call
           Access.IS_LITTLE_ENDIAN true [x68; x69] Demo.named 0 4).
  - vm_compute. intuition discriminate.
  - lia.
  - vm_compute. discriminate.
  - exact Demo_named_string.
  - exact Demo_hi_nonzero.
  - cbn. lia.
Defined.

Lemma GetStringParam_no_room_witness :
  Params.GetStringParam Toy.cfg Demo.pager Demo.system_call
    Access.IS_LITTLE_ENDIAN true 5 0 [x01] 0 Demo.named
  = Some (Stopped undefined_behaviour).
Proof.
  apply (GetStringParam_no_room Toy.cfg Demo.pager Demo.system_call
           Access.IS_LITTLE_ENDIAN true Demo.named 0 [x01] 0 5).
  lia.
Defined.

(** ** Translations that fail *)

Section Translate_failure.

Context {K : Type} (g_cfg : Config).
Context (PageFault : Z → Machine K → Outcome (ExceptionType * Machine K)).
Context (SystemCall : Machine K → Outcome (Machine K)).

Local Abbreviation Translate := (Translate g_cfg PageFault SystemCall).
Local Abbreviation vpn_of va := (to_int32 (va / PageSize g_cfg)).

(** X28. A translation that ends in an exception stores no physical
    address and leaves the machine as it found it (no U or M bit set, no
    memory access counted), unless the page was absent and the frame the
    page fault manager gave it lies outside the memory. *)

Theorem Translate_failure_leaves_machine va size writing (m m' : Machine K)
    exc p :
  Translate va size writing m = Returned (exc, p, m') →
  exc ≠ NO_EXCEPTION →
  p = None
  ∧ (m' = m
     ∨ (exc = BUSERROR_EXCEPTION
        ∧ ∃ e, entry (translationTable m) (vpn_of va) = Some e
               ∧ valid e = false)).
Proof.
  unfold Translate.
  destruct (alignment_error va size); [intros [= <- <- <-]; auto|].
  case_decide; [done|].
  case_bool_decide; [intros [= <- <- <-]; auto|].
  unfold getBitReadAllowed, getBitWriteAllowed, get.
  destruct (entry (translationTable m) (vpn_of va)) as [e|] eqn:He; [|done].
  cbn [mbind Outcome_bind].
  destruct (negb (readAllowed e) && negb (writeAllowed e));
    [intros [= <- <- <-]; auto|].
  destruct (writing && negb (writeAllowed e));
    [intros [= <- <- <-]; auto|].
  destruct (valid e) eqn:Hv.
  - rewrite (make_resident_valid _ _ _ _ _ _ He Hv). cbn [mbind Outcome_bind].
    destruct (decide (0 ≤ physicalPage e < to_int32 (NumPhysPages g_cfg)))
      as [Hb|Hb].
    + rewrite (resolve_in_bounds _ _ _ _ _ _ He Hb). by intros [= <- <- <-].
    + rewrite (resolve_out_of_bounds _ _ _ _ _ _ He Hb).
      intros [= <- <- <-]. auto.
  - destruct (make_resident _ _ _ va (vpn_of va) m) as [m1|] eqn:Hm; [|done].
    cbn [mbind Outcome_bind].
    destruct (make_resident_returns _ _ _ _ _ _ _ Hm) as (e1 & He1 & Hv1).
    destruct (decide (0 ≤ physicalPage e1 < to_int32 (NumPhysPages g_cfg)))
      as [Hb|Hb].
    + rewrite (resolve_in_bounds _ _ _ _ _ _ He1 Hb). by intros [= <- <- <-].
    + rewrite (resolve_out_of_bounds _ _ _ _ _ _ He1 Hb).
      intros [= <- <- <-] _. split; [done|]. right. eauto.
Qed.

End Translate_failure.

Lemma Translate_failure_leaves_machine_witness :
  (None : option Z) = None
  ∧ (Toy.machine = Toy.machine
     ∨ (READONLY_EXCEPTION = BUSERROR_EXCEPTION
        ∧ ∃ e, entry (translationTable Toy.machine)
                 (to_int32 (392 / PageSize Toy.cfg)) = Some e
               ∧ valid e = false)).
Proof.
  apply (Translate_failure_leaves_machine Toy.cfg Toy.PageFault
           Toy.SystemCall 392 4 true Toy.machine Toy.machine
           READONLY_EXCEPTION None).
  - reflexivity.
  - discriminate.
Defined.
